(** * AtalJudge test-case manager: the Generator-Validator supervision loop

    A shallow embedding of the services under
    [test-case-manager/app/services] that the supervision loop is made of,
    and the properties of the loop established on it.

    Conventions of the embedding.
    - A Python [str] is a [list ascii]; a character is a code point below
      256.  Whitespace is what [str.isspace] accepts on that range.
    - A child process (generator, validator, oracle) is a function of the
      environment that yields its outcome: exit status with captured
      streams, a timeout, or an operating-system failure.
    - Collaborators that the supervisor receives through its constructor
      (the two LLM agents, the compiler, the executors) are fields of an
      environment record.  Each call is numbered, so a collaborator may
      answer differently every time it is asked.
    - A Python exception is a [None] answer (agents) or a [Raised] result
      (the entry point). *)

From Stdlib Require Import ZArith List Ascii String Lia Bool DecimalString.
From stdpp Require Import base decidable option list gmap sets strings.

Local Open Scope Z_scope.
Local Open Scope nat_scope.

(** ** Python strings *)

Abbreviation text := (list ascii).

Definition T (s : string) : text := list_ascii_of_string s.

Definition NL : ascii := ascii_of_nat 10.
Definition DQUOTE : ascii := ascii_of_nat 34.

Definition chr_eqb (a b : ascii) : bool := Ascii.eqb a b.

(** [str.isspace] on one character below 256. *)
Definition isspace (c : ascii) : bool :=
  let n := nat_of_ascii c in
  ((9 <=? n) && (n <=? 13)) || ((28 <=? n) && (n <=? 32))
  || (n =? 133) || (n =? 160).

Fixpoint dropwhile {A} (p : A -> bool) (l : list A) : list A :=
  match l with
  | [] => []
  | x :: l' => if p x then dropwhile p l' else l
  end.

Fixpoint takewhile {A} (p : A -> bool) (l : list A) : list A :=
  match l with
  | [] => []
  | x :: l' => if p x then x :: takewhile p l' else []
  end.

Definition lstrip (s : text) : text := dropwhile isspace s.
Definition rstrip (s : text) : text := rev (dropwhile isspace (rev s)).
(** [s.strip()] *)
Definition strip (s : text) : text := rstrip (lstrip s).
(** [s.rstrip(c)] for a one-character argument. *)
Definition rstrip_chr (c : ascii) (s : text) : text :=
  rev (dropwhile (chr_eqb c) (rev s)).

Fixpoint text_eqb (a b : text) : bool :=
  match a, b with
  | [], [] => true
  | x :: a', y :: b' => chr_eqb x y && text_eqb a' b'
  | _, _ => false
  end.

(** [s.startswith(p)] *)
Fixpoint startswith (p s : text) : bool :=
  match p, s with
  | [], _ => true
  | x :: p', y :: s' => chr_eqb x y && startswith p' s'
  | _ :: _, [] => false
  end.

(** [s.endswith(p)] *)
Definition endswith (p s : text) : bool := startswith (rev p) (rev s).

(** [sub in s] *)
Fixpoint contains (sub s : text) : bool :=
  startswith sub s ||
  match s with
  | [] => false
  | _ :: s' => contains sub s'
  end.

(** What is left of [s] after a leading [p], when [s] starts with [p]. *)
Fixpoint strip_prefix (p s : text) : option text :=
  match p, s with
  | [], _ => Some s
  | x :: p', y :: s' => if chr_eqb x y then strip_prefix p' s' else None
  | _ :: _, [] => None
  end.

(** [s.split(c)] for a one-character separator: never the empty list. *)
Fixpoint split_chr (c : ascii) (s : text) : list text :=
  match s with
  | [] => [[]]
  | x :: s' =>
      if chr_eqb x c then [] :: split_chr c s'
      else match split_chr c s' with
           | [] => [[x]]
           | w :: ws => (x :: w) :: ws
           end
  end.

(** [s.split()]: the maximal runs of non-whitespace characters. *)
Fixpoint split_ws_go (cur : option text) (s : text) : list text :=
  match s with
  | [] => match cur with Some w => [w] | None => [] end
  | x :: s' =>
      if isspace x
      then match cur with
           | Some w => w :: split_ws_go None s'
           | None => split_ws_go None s'
           end
      else split_ws_go (Some (match cur with Some w => w ++ [x] | None => [x] end)) s'
  end.
Definition split_ws (s : text) : list text := split_ws_go None s.

(** [sep.join(parts)] *)
Fixpoint join (sep : text) (parts : list text) : text :=
  match parts with
  | [] => []
  | [p] => p
  | p :: ps => p ++ sep ++ join sep ps
  end.

(** [s.lower()] on code points below 256. *)
Definition lower_chr (c : ascii) : ascii :=
  let n := nat_of_ascii c in
  if ((65 <=? n) && (n <=? 90))
     || ((192 <=? n) && (n <=? 222) && negb (n =? 215))
  then ascii_of_nat (n + 32) else c.
Definition lower (s : text) : text := map lower_chr s.

(** [str(n)] for a natural number, and for an integer. *)
Definition str_of_N (n : N) : text :=
  T (NilZero.string_of_uint (N.to_uint n)).
Definition str_of_nat (n : nat) : text := str_of_N (N.of_nat n).
Definition str_of_Z (z : Z) : text :=
  if (z <? 0)%Z then T "-" ++ str_of_N (Z.to_N (- z))
  else str_of_N (Z.to_N z).

(** Lexicographic order on code points, the order of [sorted] on strings. *)
Fixpoint text_leb (a b : text) : bool :=
  match a, b with
  | [], _ => true
  | _ :: _, [] => false
  | x :: a', y :: b' =>
      let nx := nat_of_ascii x in
      let ny := nat_of_ascii y in
      if nx <? ny then true
      else if ny <? nx then false
      else text_leb a' b'
  end.

Fixpoint insert_sorted (x : text) (l : list text) : list text :=
  match l with
  | [] => [x]
  | y :: l' => if text_leb x y then x :: l else y :: insert_sorted x l'
  end.
(** [sorted(s)] for a set of strings. *)
Definition sorted (s : gset text) : list text :=
  foldr insert_sorted [] (elements s).

(** [l[:n]] for any Python integer [n]. *)
Definition slice_to {A} (n : Z) (l : list A) : list A :=
  if (0 <=? n)%Z then take (Z.to_nat n) l
  else take (Z.to_nat (Z.of_nat (length l) + n)) l.

(** ** Brace balancing (Generator Agent and Validator Agent) *)

Definition LBRACE : ascii := ascii_of_nat 123.
Definition RBRACE : ascii := ascii_of_nat 125.

(** The loop state of [_balance_braces]. *)
Record BraceScan := {
  balanced_chars : text;
  open_count : nat;
  removed : nat
}.

Definition brace_step (st : BraceScan) (ch : ascii) : BraceScan :=
  if chr_eqb ch LBRACE then
    {| balanced_chars := balanced_chars st ++ [ch];
       open_count := S (open_count st);
       removed := removed st |}
  else if chr_eqb ch RBRACE then
    match open_count st with
    | O => {| balanced_chars := balanced_chars st;
              open_count := 0;
              removed := S (removed st) |}
    | S k => {| balanced_chars := balanced_chars st ++ [ch];
                open_count := k;
                removed := removed st |}
    end
  else
    {| balanced_chars := balanced_chars st ++ [ch];
       open_count := open_count st;
       removed := removed st |}.

Definition brace_scan (code : text) : BraceScan :=
  fold_left brace_step code
    {| balanced_chars := []; open_count := 0; removed := 0 |}.

Definition brace_finish (st : BraceScan) : text :=
  if 0 <? open_count st
  then balanced_chars st ++ (NL :: repeat RBRACE (open_count st))
  else balanced_chars st.

(** The two agents carry the same method; they differ in the text they
    log, which the embedding leaves out. *)
Definition balance_braces (code : text) : text :=
  brace_finish (brace_scan code).

(** ** Child processes and the world *)

(** What [subprocess.run] or [Popen.communicate] can end in. *)
Inductive ProcOutcome :=
| Exited (returncode : Z) (stdout stderr : text)
| TimedOut
| OSFailure (message : text).

(** What the supervisor and its services ask of the outside, in order. *)
Inductive Event :=
| EvTime
| EvInferFormat
| EvGenerateGenerator
| EvReviseGenerator (code : text)
| EvGenerateValidator
| EvReviseValidator (code : text)
| EvMinimalValidator (samples : list text)
| EvCompileGenerator (code : text)
| EvCompileValidator (code : text)
| EvRunGenerator (exe : text) (args : list text)
| EvRunValidator (exe : text) (input : text)
| EvRunOracle (code : text) (input : text).

(** The requests made so far, the latest first.  Its length numbers the
    next request. *)
Definition World := list Event.

Definition M (A : Type) : Type := World -> A * World.
Definition ret {A} (a : A) : M A := fun w => (a, w).
Definition bind {A B} (c : M A) (k : A -> M B) : M B :=
  fun w => let '(a, w') := c w in k a w'.
Definition call {A} (ev : Event) (answer : nat -> A) : M A :=
  fun w => (answer (length w), ev :: w).

Declare Scope world_scope.
Delimit Scope world_scope with world.
Notation "x <- c ;; k" := (bind c (fun x => k))
  (at level 100, c at next level, right associativity) : world_scope.

(** ** [code_executor.py] *)
Module CodeExecutor.

Inductive ExecError :=
| OutputTooLarge
| RuntimeFailure (message : text)
| TimeLimitExceeded
| LaunchFailure (message : text).

Record ExecResult := {
  success : bool;
  output : option text;
  error : option ExecError
}.

Definition max_output_size : Z := 10 * 1024 * 1024.

(** [_run_subprocess], on the outcome of the interpreter process. *)
Definition _run_subprocess (p : ProcOutcome) : ExecResult :=
  match p with
  | Exited returncode stdout stderr =>
      if (max_output_size <? Z.of_nat (length stdout))%Z then
        {| success := false; output := None; error := Some OutputTooLarge |}
      else if negb (returncode =? 0)%Z then
        {| success := false; output := None;
           error := Some (RuntimeFailure
                            (match stderr with
                             | [] => T "Erro desconhecido"
                             | _ => strip stderr
                             end)) |}
      else
        {| success := true; output := Some (strip stdout); error := None |}
  | TimedOut =>
      {| success := false; output := None; error := Some TimeLimitExceeded |}
  | OSFailure message =>
      {| success := false; output := None; error := Some (LaunchFailure message) |}
  end.

(** [execute(code, input_data)]: the result of [_run_subprocess] with the
    same three fields (the elapsed time is left out). *)
Definition execute (interp : nat -> text -> text -> ProcOutcome)
    (code input_data : text) : M ExecResult :=
  (p <- call (EvRunOracle code input_data) (fun k => interp k code input_data) ;;
   ret (_run_subprocess p))%world.

(** One entry of what [execute_batch] returns: the result of a run, or
    the failure dictionary that stands for an input left out after the
    failure of entry [failed_entry] (numbered from 1). *)
Inductive BatchEntry :=
| Executed (result : ExecResult)
| Skipped (failed_entry : nat).

Fixpoint execute_batch_loop (interp : nat -> text -> text -> ProcOutcome)
    (code : text) (continue_on_error : bool) (i : nat) (inputs : list text)
  : M (list BatchEntry) :=
  match inputs with
  | [] => ret []
  | input_data :: rest =>
      (result <- execute interp code input_data ;;
       if negb (success result) && negb continue_on_error
       then ret (Executed result :: map (fun _ => Skipped (S i)) rest)
       else
         results <- execute_batch_loop interp code continue_on_error (S i) rest ;;
         ret (Executed result :: results))%world
  end.

(** [execute_batch(code, inputs, continue_on_error)] *)
Definition execute_batch (interp : nat -> text -> text -> ProcOutcome)
    (code : text) (inputs : list text) (continue_on_error : bool)
  : M (list BatchEntry) :=
  execute_batch_loop interp code continue_on_error 0 inputs.

End CodeExecutor.

(** ** [generator_executor_service.py] *)
Module GeneratorExecutorService.

Inductive GenError :=
| NoOutput
| GeneratorFailed (message : text)
| GeneratorTimeout
| GeneratorException (message : text).

Record GenRun := {
  success : bool;
  input_data : option text;
  error : option GenError
}.

(** The argument vector [generate_test_case] hands to the executable;
    [None] when [cmd_parts[0]] raises [IndexError]. *)
Definition command_args (command : text) : option (list text) :=
  match split_ws command with
  | [] => None
  | p0 :: rest =>
      if text_eqb p0 (T "./gen") || text_eqb p0 (T "gen")
      then Some rest else Some (p0 :: rest)
  end.

(** The part of [generate_test_case] that follows [subprocess.run]. *)
Definition candidate_of (p : ProcOutcome) : GenRun :=
  match p with
  | Exited returncode stdout stderr =>
      if (returncode =? 0)%Z then
        match stdout, strip stdout with
        | [], _ | _, [] =>
            {| success := false; input_data := None; error := Some NoOutput |}
        | _, _ =>
            {| success := true;
               input_data := Some (rstrip_chr NL stdout ++ [NL]);
               error := None |}
        end
      else
        {| success := false; input_data := None;
           error := Some (GeneratorFailed
                            (match stderr, stdout with
                             | _ :: _, _ => stderr
                             | [], _ :: _ => stdout
                             | [], [] => T "Erro desconhecido"
                             end)) |}
  | TimedOut =>
      {| success := false; input_data := None; error := Some GeneratorTimeout |}
  | OSFailure message =>
      {| success := false; input_data := None;
         error := Some (GeneratorException message) |}
  end.

(** [generate_test_case(command)] for the executable at [exe]. *)
Definition generate_test_case (proc : nat -> text -> list text -> ProcOutcome)
    (exe : text) (command : text) : M GenRun :=
  match command_args command with
  | None =>
      ret {| success := false; input_data := None;
             error := Some (GeneratorException (T "list index out of range")) |}
  | Some args =>
      (p <- call (EvRunGenerator exe args) (fun k => proc k exe args) ;;
       ret (candidate_of p))%world
  end.

Fixpoint batch_loop (proc : nat -> text -> list text -> ProcOutcome)
    (exe : text) (target_count : Z) (results : list GenRun)
    (commands : list text) : M (list GenRun) :=
  match commands with
  | [] => ret results
  | command :: commands' =>
      if (target_count <=? Z.of_nat (length results))%Z then ret results
      else
        (r <- generate_test_case proc exe command ;;
         batch_loop proc exe target_count (results ++ [r]) commands')%world
  end.

(** [generate_test_cases_batch(commands, max_cases)] *)
Definition generate_test_cases_batch
    (proc : nat -> text -> list text -> ProcOutcome)
    (exe : text) (commands : list text) (max_cases : option Z)
  : M (list GenRun) :=
  let target_count :=
    match max_cases with
    | Some n => if (n =? 0)%Z then Z.of_nat (length commands) else n
    | None => Z.of_nat (length commands)
    end in
  batch_loop proc exe target_count [] commands.

(** The value of one hexadecimal digit, as [int(_, 16)] reads it. *)
Definition hex_digit (c : ascii) : option Z :=
  let n := nat_of_ascii c in
  if (48 <=? n) && (n <=? 57) then Some (Z.of_nat (n - 48))
  else if (97 <=? n) && (n <=? 102) then Some (Z.of_nat (n - 87))
  else if (65 <=? n) && (n <=? 70) then Some (Z.of_nat (n - 55))
  else None.

Fixpoint hex_value (acc : Z) (s : text) : option Z :=
  match s with
  | [] => Some acc
  | c :: s' =>
      match hex_digit c with
      | Some d => hex_value (16 * acc + d)%Z s'
      | None => None
      end
  end.

(** [calculate_seed(command)]: the first eight hexadecimal digits of the
    MD5 digest of the command, as a number.  [hashlib.md5] belongs to the
    Python library and is taken as a parameter. *)
Definition calculate_seed (md5_hexdigest : text -> text) (command : text)
  : option Z :=
  match take 8 (md5_hexdigest command) with
  | [] => None
  | hash_hex => hex_value 0%Z hash_hex
  end.

End GeneratorExecutorService.

(** ** [validator_executor_service.py] *)
Module ValidatorExecutorService.

Record ValidationResult := {
  valid : bool;
  error_message : option text;
  error_line : option nat
}.

Definition is_digit (c : ascii) : bool :=
  let n := nat_of_ascii c in (48 <=? n) && (n <=? 57).

(** [int(digits)] for a run of decimal digits. *)
Definition nat_of_digits (digits : text) : nat :=
  fold_left (fun acc c => 10 * acc + (nat_of_ascii c - 48)) digits 0.

(** A match of [Line\s+(\d+)], letters in either case, at the head of [s]. *)
Definition line_match_at (s : text) : option nat :=
  match strip_prefix (T "line") (lower (take 4 s)) with
  | Some [] =>
      let rest := drop 4 s in
      match takewhile isspace rest with
      | [] => None
      | _ =>
          match takewhile is_digit (dropwhile isspace rest) with
          | [] => None
          | digits => Some (nat_of_digits digits)
          end
      end
  | _ => None
  end.

(** [re.search] of that pattern: the leftmost match. *)
Fixpoint search_line (s : text) : option nat :=
  match line_match_at s with
  | Some n => Some n
  | None => match s with
            | [] => None
            | _ :: s' => search_line s'
            end
  end.

(** [_parse_validator_error(error_output)]; its second search repeats the
    first. *)
Definition _parse_validator_error (error_output : text) : text * option nat :=
  (strip error_output, search_line error_output).

Definition timeout_message : text :=
  T "Timeout ap" ++ [ascii_of_nat 243] ++ T "s 5s".

(** The part of [validate_test_case] that follows [subprocess.run]. *)
Definition verdict_of (p : ProcOutcome) : ValidationResult :=
  match p with
  | Exited returncode stdout stderr =>
      if (returncode =? 0)%Z then
        {| valid := true; error_message := None; error_line := None |}
      else
        let error_output :=
          match stderr, stdout with
          | _ :: _, _ => stderr
          | [], _ => stdout
          end in
        let error_output :=
          match strip error_output with
          | [] => T "Validator returned exit code " ++ str_of_Z returncode
          | _ => error_output
          end in
        let '(message, line) := _parse_validator_error error_output in
        let message :=
          match message, strip message with
          | [], _ | _, [] =>
              T "Validation failed (exit code " ++ str_of_Z returncode ++ T ")"
          | _, _ => message
          end in
        {| valid := false; error_message := Some message; error_line := line |}
  | TimedOut =>
      {| valid := false; error_message := Some timeout_message;
         error_line := None |}
  | OSFailure message =>
      {| valid := false; error_message := Some message; error_line := None |}
  end.

(** [validate_test_case(input_data)] for the executable at [exe]. *)
Definition validate_test_case (proc : nat -> text -> text -> ProcOutcome)
    (exe : text) (input_data : text) : M ValidationResult :=
  (p <- call (EvRunValidator exe input_data) (fun k => proc k exe input_data) ;;
   ret (verdict_of p))%world.

(** [validate_test_cases_batch(test_cases)] *)
Fixpoint validate_test_cases_batch (proc : nat -> text -> text -> ProcOutcome)
    (exe : text) (test_cases : list text) : M (list ValidationResult) :=
  match test_cases with
  | [] => ret []
  | test_case :: rest =>
      (r <- validate_test_case proc exe test_case ;;
       rs <- validate_test_cases_batch proc exe rest ;;
       ret (r :: rs))%world
  end.

End ValidatorExecutorService.

(** ** [code_extraction_service.py] *)
Module CodeExtractionService.

(** [s.split(pat, 1)] when [pat] occurs: what precedes and what follows
    its first occurrence. *)
Fixpoint split_first (pat s : text) : option (text * text) :=
  match strip_prefix pat s with
  | Some rest => Some ([], rest)
  | None =>
      match s with
      | [] => None
      | c :: s' =>
          match split_first pat s' with
          | Some (before, after) => Some (c :: before, after)
          | None => None
          end
      end
  end.

(** [_extract_code_strict]: the group of
    [<<CODE>>\s*(.*?)\s*<<ENDCODE>>] (dot matching newlines), stripped;
    the empty string when the pattern is not found. *)
Definition _extract_code_strict (response : text) : text :=
  match split_first (T "<<CODE>>") response with
  | Some (_, rest) =>
      match split_first (T "<<ENDCODE>>") rest with
      | Some (body, _) => strip body
      | None => []
      end
  | None => []
  end.

(** [extract_cpp_code]: the strict format first.  The later attempts (the
    fenced blocks and the heuristic scan) are a parameter; [None] is the
    [ValueError] of a response without code. *)
Definition extract_cpp_code (later_attempts : text -> option text)
    (response : text) : option text :=
  match _extract_code_strict response with
  | [] => later_attempts response
  | code => Some code
  end.

(** A match of the commands-block pattern at the head of [s]: the opening
    of a C comment, optional whitespace, [COMMANDS:], and the shortest
    text up to the closing of the comment, which is the group. *)
Definition commands_block_at (s : text) : option text :=
  match strip_prefix (T "/*") s with
  | Some rest =>
      match strip_prefix (T "COMMANDS:") (dropwhile isspace rest) with
      | Some body =>
          match split_first (T "*/") body with
          | Some (group, _) => Some group
          | None => None
          end
      | None => None
      end
  | None => None
  end.

Fixpoint search_commands_block (s : text) : option text :=
  match commands_block_at s with
  | Some group => Some group
  | None => match s with
            | [] => None
            | _ :: s' => search_commands_block s'
            end
  end.

(** The stripped lines of [block] that start with [./gen]. *)
Definition gen_lines (block : text) : list text :=
  filter (fun line => startswith (T "./gen") line = true)
         (map strip (split_chr NL block)).

(** [extract_commands(code)] *)
Definition extract_commands (code : text) : list text :=
  let commands :=
    match search_commands_block code with
    | Some group => gen_lines (strip group)
    | None => []
    end in
  match commands with
  | [] => gen_lines code
  | _ => commands
  end.

(** [validate_code_completeness] for a generator, the flag only. *)
Definition validate_code_completeness_generator (code : text) : bool :=
  contains (T "#include") code
  && (contains (T "int main") code || contains (T "main(") code)
  && (contains [LBRACE] code && contains [RBRACE] code)
  && contains (T "registerGen") code.

Definition FENCE : text := T "```".

(** [s.split(pat)[0]]: what precedes the first occurrence of [pat], or
    all of [s]. *)
Definition up_to (pat s : text) : text :=
  match split_first pat s with
  | Some (before, _) => before
  | None => s
  end.

(** [_extract_code_markdown(response, language)]; the empty [language]
    stands for the call without one. *)
Definition _extract_code_markdown (response language : text) : text :=
  let marker := FENCE ++ language in
  match split_first marker response with
  | None => []
  | Some (_, rest) =>
      let code_part := strip (up_to FENCE (up_to marker rest)) in
      let code_part :=
        match split_chr NL code_part with
        | first :: others =>
            let head := strip first in
            if text_eqb head (T "cpp") || text_eqb head (T "c++")
               || text_eqb head (T "c") || text_eqb head []
               || (negb (text_eqb language []) && text_eqb head language)
            then strip (join [NL] others)
            else code_part
        | [] => code_part
        end in
      if length (split_chr NL code_part) <? 3 then [] else code_part
  end.

End CodeExtractionService.

(** ** [generator_agent_service.py] *)
Module GeneratorAgentService.

(** [re.findall] for a pattern whose match at a position is unique:
    [at_head s] gives the group and the number of characters matched. *)
Fixpoint findall (at_head : text -> option (text * nat)) (skip : nat)
    (s : text) : list text :=
  match s with
  | [] => []
  | _ :: s' =>
      match skip with
      | S k => findall at_head k s'
      | O =>
          match at_head s with
          | Some (group, matched) => group :: findall at_head (matched - 1) s'
          | None => findall at_head 0 s'
          end
      end
  end.

Definition not_chr (c x : ascii) : bool := negb (chr_eqb x c).

(** A match of [REGEX_OPT_PARAMS] at the head of [s]: the word [opt], an
    angle-bracketed type, an opening parenthesis and a quoted name, with
    optional whitespace between them; the group is the name. *)
Definition opt_at (s : text) : option (text * nat) :=
  match strip_prefix (T "opt") s with
  | None => None
  | Some r1 =>
  match strip_prefix (T "<") (dropwhile isspace r1) with
  | None => None
  | Some r2 =>
  match takewhile (not_chr (ascii_of_nat 62)) r2 with
  | [] => None
  | _ =>
  match strip_prefix (T ">") (dropwhile (not_chr (ascii_of_nat 62)) r2) with
  | None => None
  | Some r3 =>
  match strip_prefix (T "(") (dropwhile isspace r3) with
  | None => None
  | Some r4 =>
  match strip_prefix [DQUOTE] (dropwhile isspace r4) with
  | None => None
  | Some r5 =>
  match takewhile (not_chr DQUOTE) r5 with
  | [] => None
  | name =>
  match strip_prefix [DQUOTE] (dropwhile (not_chr DQUOTE) r5) with
  | None => None
  | Some r6 => Some (name, length s - length r6)
  end end end end end end end end.

(** [_extract_opt_params(code)] *)
Definition _extract_opt_params (code : text) : gset text :=
  list_to_set (findall opt_at 0 code).

Definition is_ident_start (c : ascii) : bool :=
  let n := nat_of_ascii c in
  ((97 <=? n) && (n <=? 122)) || ((65 <=? n) && (n <=? 90)) || (n =? 95).
Definition is_ident_char (c : ascii) : bool :=
  is_ident_start c || ValidatorExecutorService.is_digit c.

(** A match of [REGEX_PARAM_PATTERN] at the head of [s]: a dash, then a
    letter or underscore, then letters, digits and underscores; the group
    is what follows the dash. *)
Definition param_at (s : text) : option (text * nat) :=
  match s with
  | dash :: c :: rest =>
      if chr_eqb dash (ascii_of_nat 45) && is_ident_start c
      then let name := c :: takewhile is_ident_char rest in
           Some (name, S (length name))
      else None
  | _ => None
  end.

(** The flags a command mentions: [set(REGEX_PARAM_PATTERN.findall(cmd))]. *)
Definition cmd_params (cmd : text) : gset text :=
  list_to_set (findall param_at 0 cmd).

Definition fallback_value (param : text) (i : nat) : Z :=
  let p := lower param in
  if text_eqb p (T "t") || text_eqb p (T "testcases") || text_eqb p (T "tests")
  then Z.max 1 (Z.min 5 (Z.of_nat i mod 5 + 1))
  else if contains (T "min") p then (if i <? 10 then 1 else 10)
  else if contains (T "max") p then
    (if i <? 5 then 10 else if i <? 10 then 100
     else if i <? 15 then 1000 else 10000)
  else if contains (T "sum") p then (if i <? 10 then 100 else 200000)
  else Z.of_nat i mod 20 + 1.

(** [_generate_fallback_commands(opt_params)] *)
Definition _generate_fallback_commands (opt_params : gset text) : list text :=
  let sorted_params := sorted opt_params in
  map (fun i =>
         join (T " ")
           (T "./gen" ::
            map (fun param =>
                   T "-" ++ param ++ T " " ++ str_of_Z (fallback_value param i))
                sorted_params))
      (seq 0 20).

(** [_validate_commands(code, commands)] *)
Definition _validate_commands (code : text) (commands : list text) : list text :=
  let opt_params := _extract_opt_params code in
  let valid_commands :=
    filter (fun cmd => cmd_params cmd ∖ opt_params = ∅) commands in
  match valid_commands with
  | [] => if decide (opt_params = ∅) then valid_commands
          else _generate_fallback_commands opt_params
  | _ => valid_commands
  end.

(** [generate_generator_program], from the reply of the model ([None]
    when the request fails).  [_fix_partial_code] always raises: each of
    its paths calls [_extract_code_without_markdown] or [_is_code_complete],
    which the class does not define. *)
Definition generate_generator_program (later_attempts : text -> option text)
    (response : option text) : option (text * list text) :=
  match response with
  | None => None
  | Some response =>
      match CodeExtractionService.extract_cpp_code later_attempts response with
      | None => None
      | Some generator_code =>
          if CodeExtractionService.validate_code_completeness_generator generator_code
          then
            let generator_commands :=
              CodeExtractionService.extract_commands generator_code in
            let generator_commands :=
              match generator_commands with
              | [] => _generate_fallback_commands (_extract_opt_params generator_code)
              | _ => generator_commands
              end in
            Some (generator_code, generator_commands)
          else None
      end
  end.

(** [revise_generator_program], from the reply of the model.  With code
    found it goes on to [_extract_commands_from_code], without it to
    [_extract_code_without_markdown]; the class defines neither, so every
    path ends in an exception. *)
Definition revise_generator_program (response : option text)
  : option (text * list text) :=
  match response with
  | None => None
  | Some response =>
      match CodeExtractionService._extract_code_strict response with
      | [] => None
      | _ => None
      end
  end.

(** [_balance_braces(code, context)]; [context] only reaches the log. *)
Definition _balance_braces (code : text) (context : text) : text :=
  balance_braces code.

End GeneratorAgentService.

(** ** [validator_agent_service.py] *)
Module ValidatorAgentService.

(** [_balance_braces(code)] *)
Definition _balance_braces (code : text) : text := balance_braces code.

(** [_fix_incomplete_returns], on the lines of the code. *)
Fixpoint fix_return_lines (lines : list text) : list text :=
  match lines with
  | [] => []
  | line :: rest =>
      let stripped := strip line in
      (if (text_eqb stripped (T "return")
           || (startswith (T "return") stripped
               && negb (endswith (T ";") stripped)))
          && match rest with
             | next :: _ => startswith [RBRACE] (strip next)
             | [] => false
             end
       then repeat (ascii_of_nat 32) (length line - length (lstrip line))
            ++ T "return 0;"
       else line)
      :: fix_return_lines rest
  end.

(** [_fix_incomplete_returns(code)] *)
Definition _fix_incomplete_returns (code : text) : text :=
  join [NL] (fix_return_lines (split_chr NL code)).

(** What [_analyze_input_format] records of one sample, the lines
    themselves standing for their [repr]. *)
Record SampleFormat := {
  ends_with_newline : bool;
  num_lines : nat;
  line_formats : list text
}.

(** [_analyze_input_format(sample_inputs)], sample by sample. *)
Definition _analyze_input_format (sample_inputs : list text)
  : list SampleFormat :=
  map (fun input_str =>
         {| ends_with_newline := endswith [NL] input_str;
            num_lines := length (split_chr NL input_str);
            line_formats := split_chr NL input_str |})
      sample_inputs.

(** The reading strategy [_get_format_instruction] writes for a sample,
    by the branch that writes it. *)
Inductive ReadingStrategy :=
| ReadLinesThenEof (lines : nat)
| DirectEof
| ReadValuesThenEof (values : nat).

Definition reading_strategy (f : SampleFormat) : ReadingStrategy :=
  if ends_with_newline f && (1 <? num_lines f)
  then ReadLinesThenEof (num_lines f - 1)
  else if ends_with_newline f then DirectEof
  else ReadValuesThenEof (num_lines f).

End ValidatorAgentService.

(** ** [generator_validator_supervision_service.py] *)
Module Supervisor.

Import ValidatorExecutorService.

(** One worked example of the problem; a missing key reads as the empty
    string. *)
Record Example := { ex_input : text; ex_output : text }.

(** The arguments of [generate_test_cases] other than the target count. *)
Record Bundle := {
  problem_statement : text;
  oracle_code : text;
  examples : option (list Example);
  constraints : option text
}.

(** The dictionary a compile method returns. *)
Inductive CompileResult :=
| CompileOk (executable_path : text)
| CompileFailed (error : text).

(** One entry of [validation_outputs]: the detailed report on a rejected
    example, by what it is built from. *)
Record SampleReport := {
  sample_number : nat;
  sample_input : text;
  validator_error : text
}.

(** One entry of [validation_errors], by what it is built from. *)
Inductive ErrNote :=
| NoCaseGenerated
| Rejection (error_msg : text) (format_info : option (text * option text))
| InsufficientDiversity (cases : nat) (repeated : text).

(** The collaborators of the supervisor and the processes they start.
    The first argument of each field is the number of the request, so
    that an answer may differ from one request to the next; an agent
    answers [None] when its call raises.  The agents are those handed to
    the constructor: whatever they do inside (prompts, replies of the
    model, post-processing) is theirs.
    [generate_minimal_validator_code] is called by the supervisor twice;
    [validator_agent_service.py] defines no such method, so for the
    default agent the call raises [AttributeError] and the field is
    constantly [None].
    The clock is read in milliseconds.  Logging, debug files and the text
    of the error logs are left out; the error logs keep what they are
    built from. *)
Record Env := {
  time_ms : nat -> Z;
  generate_generator_program : nat -> Bundle -> option (text * list text);
  revise_generator_program :
    nat -> text -> text -> list ErrNote -> option text ->
    option (text * option (list text));
  generate_validator_program : nat -> Bundle -> option text;
  revise_validator_program :
    nat -> text -> text -> list text -> list SampleReport -> option text ->
    option (list text) -> option text;
  generate_minimal_validator_code : nat -> list text -> option text;
  compile_generator : nat -> text -> CompileResult;
  compile_validator : nat -> text -> CompileResult;
  generator_process : nat -> text -> list text -> ProcOutcome;
  validator_process : nat -> text -> text -> ProcOutcome;
  oracle_process : nat -> text -> text -> ProcOutcome
}.

Definition max_iterations : nat := 100.
Definition max_compilation_fixes : nat := 3.
(** [timeout_seconds = 600], in milliseconds as the clock is. *)
Definition timeout_ms : Z := 600 * 1000.

(** The local variables of [generate_test_cases] that live across
    iterations. *)
Record LoopState := {
  iteration : nat;
  generator_code : option text;
  validator_code : option text;
  generator_commands : list text;
  validation_errors : list ErrNote;
  compilation_errors : option text;
  sample_inputs : list text;
  validation_outputs : list SampleReport;
  generator_executable : option text;
  validator_executable : option text;
  valid_cases : list text
}.

Definition initial_state : LoopState :=
  {| iteration := 0; generator_code := None; validator_code := None;
     generator_commands := []; validation_errors := [];
     compilation_errors := None; sample_inputs := [];
     validation_outputs := []; generator_executable := None;
     validator_executable := None; valid_cases := [] |}.

Definition set_iteration (v : nat) (s : LoopState) : LoopState :=
  {| iteration := v; generator_code := generator_code s;
     validator_code := validator_code s;
     generator_commands := generator_commands s;
     validation_errors := validation_errors s;
     compilation_errors := compilation_errors s;
     sample_inputs := sample_inputs s;
     validation_outputs := validation_outputs s;
     generator_executable := generator_executable s;
     validator_executable := validator_executable s;
     valid_cases := valid_cases s |}.
Definition set_generator_code (v : option text) (s : LoopState) : LoopState :=
  {| iteration := iteration s; generator_code := v;
     validator_code := validator_code s;
     generator_commands := generator_commands s;
     validation_errors := validation_errors s;
     compilation_errors := compilation_errors s;
     sample_inputs := sample_inputs s;
     validation_outputs := validation_outputs s;
     generator_executable := generator_executable s;
     validator_executable := validator_executable s;
     valid_cases := valid_cases s |}.
Definition set_validator_code (v : option text) (s : LoopState) : LoopState :=
  {| iteration := iteration s; generator_code := generator_code s;
     validator_code := v;
     generator_commands := generator_commands s;
     validation_errors := validation_errors s;
     compilation_errors := compilation_errors s;
     sample_inputs := sample_inputs s;
     validation_outputs := validation_outputs s;
     generator_executable := generator_executable s;
     validator_executable := validator_executable s;
     valid_cases := valid_cases s |}.
Definition set_generator_commands (v : list text) (s : LoopState) : LoopState :=
  {| iteration := iteration s; generator_code := generator_code s;
     validator_code := validator_code s;
     generator_commands := v;
     validation_errors := validation_errors s;
     compilation_errors := compilation_errors s;
     sample_inputs := sample_inputs s;
     validation_outputs := validation_outputs s;
     generator_executable := generator_executable s;
     validator_executable := validator_executable s;
     valid_cases := valid_cases s |}.
Definition set_validation_errors (v : list ErrNote) (s : LoopState) : LoopState :=
  {| iteration := iteration s; generator_code := generator_code s;
     validator_code := validator_code s;
     generator_commands := generator_commands s;
     validation_errors := v;
     compilation_errors := compilation_errors s;
     sample_inputs := sample_inputs s;
     validation_outputs := validation_outputs s;
     generator_executable := generator_executable s;
     validator_executable := validator_executable s;
     valid_cases := valid_cases s |}.
Definition set_compilation_errors (v : option text) (s : LoopState) : LoopState :=
  {| iteration := iteration s; generator_code := generator_code s;
     validator_code := validator_code s;
     generator_commands := generator_commands s;
     validation_errors := validation_errors s;
     compilation_errors := v;
     sample_inputs := sample_inputs s;
     validation_outputs := validation_outputs s;
     generator_executable := generator_executable s;
     validator_executable := validator_executable s;
     valid_cases := valid_cases s |}.
Definition set_sample_inputs (v : list text) (s : LoopState) : LoopState :=
  {| iteration := iteration s; generator_code := generator_code s;
     validator_code := validator_code s;
     generator_commands := generator_commands s;
     validation_errors := validation_errors s;
     compilation_errors := compilation_errors s;
     sample_inputs := v;
     validation_outputs := validation_outputs s;
     generator_executable := generator_executable s;
     validator_executable := validator_executable s;
     valid_cases := valid_cases s |}.
Definition set_validation_outputs (v : list SampleReport) (s : LoopState) : LoopState :=
  {| iteration := iteration s; generator_code := generator_code s;
     validator_code := validator_code s;
     generator_commands := generator_commands s;
     validation_errors := validation_errors s;
     compilation_errors := compilation_errors s;
     sample_inputs := sample_inputs s;
     validation_outputs := v;
     generator_executable := generator_executable s;
     validator_executable := validator_executable s;
     valid_cases := valid_cases s |}.
Definition set_generator_executable (v : option text) (s : LoopState) : LoopState :=
  {| iteration := iteration s; generator_code := generator_code s;
     validator_code := validator_code s;
     generator_commands := generator_commands s;
     validation_errors := validation_errors s;
     compilation_errors := compilation_errors s;
     sample_inputs := sample_inputs s;
     validation_outputs := validation_outputs s;
     generator_executable := v;
     validator_executable := validator_executable s;
     valid_cases := valid_cases s |}.
Definition set_validator_executable (v : option text) (s : LoopState) : LoopState :=
  {| iteration := iteration s; generator_code := generator_code s;
     validator_code := validator_code s;
     generator_commands := generator_commands s;
     validation_errors := validation_errors s;
     compilation_errors := compilation_errors s;
     sample_inputs := sample_inputs s;
     validation_outputs := validation_outputs s;
     generator_executable := generator_executable s;
     validator_executable := v;
     valid_cases := valid_cases s |}.
Definition set_valid_cases (v : list text) (s : LoopState) : LoopState :=
  {| iteration := iteration s; generator_code := generator_code s;
     validator_code := validator_code s;
     generator_commands := generator_commands s;
     validation_errors := validation_errors s;
     compilation_errors := compilation_errors s;
     sample_inputs := sample_inputs s;
     validation_outputs := validation_outputs s;
     generator_executable := generator_executable s;
     validator_executable := validator_executable s;
     valid_cases := v |}.

(** How a stretch of the loop body ends: it goes on with a value, or it
    leaves the iteration by [continue] or the loop by [break]. *)
Inductive Flow (A : Type) :=
| Go (a : A)
| Continue (st : LoopState)
| Break (st : LoopState).
Arguments Go {A} a.
Arguments Continue {A} st.
Arguments Break {A} st.

Definition L (A : Type) : Type := M (Flow A).
Definition go {A} (a : A) : L A := ret (Go a).
Definition continue_ {A} (st : LoopState) : L A := ret (Continue st).
Definition break_ {A} (st : LoopState) : L A := ret (Break st).
Definition lift {A} (c : M A) : L A := bind c (fun a => ret (Go a)).
Definition lbind {A B} (c : L A) (k : A -> L B) : L B :=
  bind c (fun f =>
    match f with
    | Go a => k a
    | Continue st => ret (Continue st)
    | Break st => ret (Break st)
    end).

Declare Scope flow_scope.
Delimit Scope flow_scope with flow.
Notation "x <~ c ;; k" := (lbind c (fun x => k))
  (at level 100, c at next level, right associativity) : flow_scope.

(** A test case of the returned suite. *)
Record TestCase := { input : text; output : text }.

(** The dictionary [generate_test_cases] returns. *)
Record Result := {
  test_cases : list TestCase;
  total_generated : nat;
  result_generator_code : option text;
  result_validator_code : option text;
  result_generator_commands : list text;
  iterations : nat
}.

Inductive Outcome :=
| Returned (r : Result)
| Raised_ValueError.

Definition is_nil {A} (l : list A) : bool :=
  match l with [] => true | _ => false end.

Definition unknown_error : text := T "Erro desconhecido".

(** [f"Line {error_line}: {error_msg}"] when [error_line] is truthy. *)
Definition with_line (error_line : option nat) (error_msg : text) : text :=
  match error_line with
  | Some (S n) => T "Line " ++ str_of_nat (S n) ++ T ": " ++ error_msg
  | _ => error_msg
  end.

(** The keywords of [_extract_compilation_error_info]. *)
Definition error_keywords : list text :=
  [ T "error:"; T "warning:"; T ".cpp:"; T "in function"; T "required from";
    T "no member named"; T "has no member"; T "expected"; T "undefined" ].

Definition omitted_marker : text := T "... (mais erros omitidos)".

(** The lines [_extract_compilation_error_info] keeps, before they are
    joined. *)
Definition important_lines (error_message : text) : list text :=
  let kept :=
    List.filter
      (fun line =>
         negb (is_nil line)
         && existsb (fun keyword => contains keyword (lower line)) error_keywords)
      (map strip (split_chr NL error_message)) in
  if 20 <? length kept then take 20 kept ++ [omitted_marker] else kept.

(** [_extract_compilation_error_info(error_message)] *)
Definition _extract_compilation_error_info (error_message : text) : text :=
  join [NL] (important_lines error_message).

Section WithEnv.

Variable env : Env.
Variable b : Bundle.
Variable target_count : Z.

Local Open Scope world_scope.

(** The loop of [_compile_with_auto_fix] with [n] attempts left;
    [compile_result] is unbound until the first compilation. *)
Fixpoint auto_fix_loop (compile : text -> M CompileResult)
    (revise : text -> text -> M (option text)) (n : nat)
    (compile_result : option CompileResult) (current_code : text)
  : M (option CompileResult * text) :=
  match n with
  | O => ret (compile_result, current_code)
  | S n' =>
      r <- compile current_code ;;
      match r with
      | CompileOk _ => ret (Some r, current_code)
      | CompileFailed compilation_error =>
          revised <- revise current_code compilation_error ;;
          match revised with
          | Some code' => auto_fix_loop compile revise n' (Some r) code'
          | None => ret (Some r, current_code)
          end
      end
  end.

(** [_compile_with_auto_fix]; [None] for the result stands for the
    unbound [compile_result], which cannot be returned while
    [max_compilation_fixes] is positive. *)
Definition _compile_with_auto_fix (compile : text -> M CompileResult)
    (revise : text -> text -> M (option text)) (code : text)
  : M (option CompileResult * text) :=
  auto_fix_loop compile revise max_compilation_fixes None code.

Definition do_compile_generator (code : text) : M CompileResult :=
  call (EvCompileGenerator code) (fun k => compile_generator env k code).
Definition do_compile_validator (code : text) : M CompileResult :=
  call (EvCompileValidator code) (fun k => compile_validator env k code).

(** [expected_outputs] as both validator revisions receive it. *)
Definition expected_outputs : option (list text) :=
  match examples b with
  | Some ((_ :: _) as exs) =>
      Some (map ex_output
              (List.filter (fun ex => negb (is_nil (ex_input ex))) exs))
  | _ => None
  end.

(** Steps 1 and 2: generate or revise the generator, then compile it. *)
Definition step_generator (st : LoopState) : L LoopState :=
  (st <~ match generator_code st with
         | None =>
             r <- call EvGenerateGenerator
                    (fun k => generate_generator_program env k b) ;;
             match r with
             | None => continue_ st
             | Some (code, commands) =>
                 go (set_generator_commands commands
                       (set_generator_code (Some code) st))
             end
         | Some code =>
             r <- call (EvReviseGenerator code)
                    (fun k => revise_generator_program env k
                                (problem_statement b) code
                                (validation_errors st) (compilation_errors st)) ;;
             match r with
             | None => continue_ st
             | Some (code', commands) =>
                 let st := set_generator_code (Some code') st in
                 match commands with
                 | Some commands => go (set_generator_commands commands st)
                 | None => go st
                 end
             end
         end ;;
   match generator_code st with
   | None => continue_ st
   | Some code =>
       r <- _compile_with_auto_fix do_compile_generator
              (fun current_code compilation_error =>
                 rv <- call (EvReviseGenerator current_code)
                         (fun k => revise_generator_program env k
                                     (problem_statement b) current_code
                                     (validation_errors st)
                                     (Some compilation_error)) ;;
                 ret (option_map fst rv))
              code ;;
       let '(compile_result, code) := r in
       let st := set_generator_code (Some code) st in
       match compile_result with
       | None => continue_ st
       | Some (CompileFailed error) =>
           continue_ (set_validation_errors []
                        (set_compilation_errors (Some error) st))
       | Some (CompileOk executable_path) =>
           go (set_compilation_errors None
                 (set_generator_executable (Some executable_path) st))
       end
   end)%flow.

(** The branch taken when the validator does not compile after all
    attempts. *)
Definition minimal_after_compile_failure (error : text) (st : LoopState)
  : L LoopState :=
  if (1 <=? iteration st) && negb (is_nil (sample_inputs st)) then
    m <- call (EvMinimalValidator (sample_inputs st))
           (fun k => generate_minimal_validator_code env k (sample_inputs st)) ;;
    match m with
    | None =>
        continue_ (set_validation_errors []
                     (set_compilation_errors (Some error) st))
    | Some code =>
        let st := set_validator_code (Some code) st in
        r <- do_compile_validator code ;;
        match r with
        | CompileOk executable_path =>
            go (set_compilation_errors None
                  (set_validator_executable (Some executable_path) st))
        | CompileFailed error' =>
            continue_ (set_validation_errors []
                         (set_compilation_errors (Some error') st))
        end
    end
  else
    continue_ (set_validation_errors []
                 (set_compilation_errors (Some error) st)).

(** Steps 3 and 4: generate or revise the validator, then compile it. *)
Definition step_validator (st : LoopState) : L LoopState :=
  (st <~ match validator_code st with
         | None =>
             r <- call EvGenerateValidator
                    (fun k => generate_validator_program env k b) ;;
             match r with
             | None => continue_ st
             | Some code => go (set_validator_code (Some code) st)
             end
         | Some code =>
             r <- call (EvReviseValidator code)
                    (fun k => revise_validator_program env k
                                (problem_statement b) code (sample_inputs st)
                                (validation_outputs st) (compilation_errors st)
                                expected_outputs) ;;
             match r with
             | None => continue_ st
             | Some code' => go (set_validator_code (Some code') st)
             end
         end ;;
   match validator_code st with
   | None => continue_ st
   | Some code =>
       r <- _compile_with_auto_fix do_compile_validator
              (fun current_code compilation_error =>
                 call (EvReviseValidator current_code)
                   (fun k => revise_validator_program env k
                               (problem_statement b) current_code
                               (sample_inputs st) (validation_outputs st)
                               (Some compilation_error) expected_outputs))
              code ;;
       let '(compile_result, code) := r in
       let st := set_validator_code (Some code) st in
       match compile_result with
       | None => continue_ st
       | Some (CompileFailed error) => minimal_after_compile_failure error st
       | Some (CompileOk executable_path) =>
           go (set_compilation_errors None
                 (set_validator_executable (Some executable_path) st))
       end
   end)%flow.

Definition run_validator_batch (exe : option text) (inputs : list text)
  : M (list ValidationResult) :=
  validate_test_cases_batch (validator_process env) (default [] exe) inputs.

Definition failed (validations : list ValidationResult)
  : list ValidationResult :=
  List.filter (fun v => negb (valid v)) validations.

(** The detailed reports on the rejected examples, numbered from 1. *)
Fixpoint sample_reports (i : nat) (samples : list text)
    (validations : list ValidationResult) : list SampleReport :=
  match samples, validations with
  | sample :: samples', validation :: validations' =>
      (if valid validation then []
       else [{| sample_number := S i;
                sample_input := sample;
                validator_error :=
                  with_line (error_line validation)
                    (default unknown_error (error_message validation)) |}])
      ++ sample_reports (S i) samples' validations'
  | _, _ => []
  end.

(** Step 5: the validator is tried on the worked examples. *)
Definition step_samples (st : LoopState) : L LoopState :=
  match examples b with
  | Some ((_ :: _) as exs) =>
      let samples :=
        map ex_input (List.filter (fun ex => negb (is_nil (ex_input ex))) exs) in
      let st := set_sample_inputs samples st in
      if is_nil samples then go st
      else
        sample_validations <- run_validator_batch (validator_executable st) samples ;;
        r <- (if negb (is_nil (failed sample_validations)) && (3 <=? iteration st)
              then
                m <- call (EvMinimalValidator samples)
                       (fun k => generate_minimal_validator_code env k samples) ;;
                match m with
                | None => ret (st, sample_validations)
                | Some code =>
                    let st := set_validator_code (Some code) st in
                    c <- do_compile_validator code ;;
                    match c with
                    | CompileOk executable_path =>
                        let st :=
                          set_validator_executable (Some executable_path) st in
                        again <- run_validator_batch (validator_executable st) samples ;;
                        ret (st, again)
                    | CompileFailed _ => ret (st, sample_validations)
                    end
                end
              else ret (st, sample_validations)) ;;
        let '(st, sample_validations) := r in
        if negb (is_nil (failed sample_validations)) then
          continue_ (set_validation_outputs
                       (sample_reports 0 samples sample_validations) st)
        else go st
  | _ => go st
  end.

(** Step 6: the generator is run on its commands. *)
Definition step_generate (st : LoopState) : L (list text) :=
  generation_results <-
    GeneratorExecutorService.generate_test_cases_batch (generator_process env)
      (default [] (generator_executable st)) (generator_commands st)
      (Some (target_count * 2)%Z) ;;
  let generated_inputs :=
    omap (fun r =>
            if GeneratorExecutorService.success r then
              match GeneratorExecutorService.input_data r with
              | Some ((_ :: _) as x) => Some x
              | _ => None
              end
            else None)
         generation_results in
  if is_nil generated_inputs
  then continue_ (set_validation_errors [NoCaseGenerated] st)
  else go generated_inputs.

(** What the loop over the validation results updates. *)
Record Filtered := {
  new_valid_cases : list text;
  invalid_cases : list text;
  errors : list ErrNote;
  accumulated : list text
}.

Definition first_example_input : option text :=
  match examples b with
  | Some (ex :: _) =>
      match ex_input ex with
      | [] => None
      | x => Some x
      end
  | _ => None
  end.

(** The loop over [validation_results] of step 7, with its one-shot
    retry on a normalized input. *)
Fixpoint filter_candidates (exe : option text)
    (items : list (text * ValidationResult)) (acc : Filtered) : M Filtered :=
  match items with
  | [] => ret acc
  | (original_input, result) :: rest =>
      if valid result then
        filter_candidates exe rest
          {| new_valid_cases := new_valid_cases acc ++ [original_input];
             invalid_cases := invalid_cases acc;
             errors := errors acc;
             accumulated := accumulated acc |}
      else
        let invalid := invalid_cases acc ++ [original_input] in
        let error_msg :=
          with_line (error_line result)
            (match error_message result with
             | Some ((_ :: _) as m) => m
             | _ => unknown_error
             end) in
        if contains (T "EOLN") error_msg || contains (T "Expected") error_msg
        then
          let normalized_input :=
            if negb (endswith [NL] original_input)
            then original_input ++ [NL]
            else rstrip_chr NL original_input in
          let rejected :=
            {| new_valid_cases := new_valid_cases acc;
               invalid_cases := invalid;
               errors := errors acc
                         ++ [Rejection error_msg
                               (Some (original_input, first_example_input))];
               accumulated := accumulated acc |} in
          match normalized_input with
          | [] => filter_candidates exe rest rejected
          | _ =>
              revalidation <-
                validate_test_case (validator_process env) (default [] exe)
                  normalized_input ;;
              if valid revalidation then
                filter_candidates exe rest
                  {| new_valid_cases := new_valid_cases acc;
                     invalid_cases := invalid;
                     errors := errors acc;
                     accumulated := accumulated acc ++ [normalized_input] |}
              else filter_candidates exe rest rejected
          end
        else
          filter_candidates exe rest
            {| new_valid_cases := new_valid_cases acc;
               invalid_cases := invalid;
               errors := errors acc ++ [Rejection error_msg None];
               accumulated := accumulated acc |}
  end.

(** The oracle is run on each input in turn; a failed run and an empty
    output leave no test case. *)
Fixpoint oracle_pass (inputs : list text) : M (list TestCase) :=
  match inputs with
  | [] => ret []
  | input_data :: rest =>
      result <- CodeExecutor.execute (oracle_process env) (oracle_code b) input_data ;;
      tcs <- oracle_pass rest ;;
      ret (match CodeExecutor.success result, CodeExecutor.output result with
           | true, Some ((_ :: _) as out) =>
               {| input := input_data; output := out |} :: tcs
           | _, _ => tcs
           end)
  end.

(** [set(tc["output"].strip() for tc in test_cases)] *)
Definition unique_outputs (tcs : list TestCase) : gset text :=
  list_to_set (map (fun tc => strip (output tc)) tcs).

(** The oracle run and the diversity check inside the loop body. *)
Definition step_diversity (st : LoopState) : L LoopState :=
  if (target_count <=? Z.of_nat (length (valid_cases st)))%Z then
    tcs <- oracle_pass (slice_to target_count (valid_cases st)) ;;
    match tcs with
    | [] => go st
    | _ =>
        let unique := unique_outputs tcs in
        if size unique =? 1 then
          continue_
            (set_valid_cases []
               (set_validation_errors
                  [InsufficientDiversity (length tcs)
                     (match elements unique with
                      | x :: _ => take 100 (strip x)
                      | [] => []
                      end)]
                  st))
        else break_ st
    end
  else go st.

(** Step 7 and the decisions after it; the diversity check comes last,
    after both [continue]s. *)
Definition step_filter (generated_inputs : list text) (st : LoopState)
  : L LoopState :=
  validation_results <-
    run_validator_batch (validator_executable st) generated_inputs ;;
  f <- filter_candidates (validator_executable st)
         (zip generated_inputs validation_results)
         {| new_valid_cases := []; invalid_cases := []; errors := [];
            accumulated := valid_cases st |} ;;
  let st :=
    set_valid_cases (accumulated f ++ new_valid_cases f)
      (set_validation_errors (errors f) st) in
  if is_nil (invalid_cases f) then continue_ (set_validation_errors [] st)
  else if negb (is_nil (new_valid_cases f))
  then continue_ (set_validation_errors [] st)
  else step_diversity st.

(** The body of the [while] loop below the iteration cap. *)
Definition body (st : LoopState) : L LoopState :=
  (st <~ step_generator st ;;
   st <~ step_validator st ;;
   st <~ step_samples st ;;
   generated_inputs <~ step_generate st ;;
   step_filter generated_inputs st)%flow.

(** The [while True] loop; [None] when [fuel] passes do not reach a
    [break]. *)
Fixpoint loop (start_time : Z) (fuel : nat) (st : LoopState)
  : M (option LoopState) :=
  match fuel with
  | O => ret None
  | S fuel' =>
      now <- call EvTime (time_ms env) ;;
      if (timeout_ms <=? now - start_time)%Z then ret (Some st)
      else if (target_count <=? Z.of_nat (length (valid_cases st)))%Z
      then ret (Some st)
      else
        let st := set_iteration (S (iteration st)) st in
        if max_iterations <? iteration st then ret (Some st)
        else
          f <- body st ;;
          match f with
          | Break st' => ret (Some st')
          | Continue st' | Go st' => loop start_time fuel' st'
          end
  end.

(** [generate_test_cases(problem_statement, oracle_code, examples,
    constraints, target_count)] *)
Definition generate_test_cases : M (option Outcome) :=
  start_time <- call EvTime (time_ms env) ;;
  _ <- call EvInferFormat (fun _ => tt) ;;
  r <- loop start_time (S max_iterations) initial_state ;;
  match r with
  | None => ret None
  | Some st =>
      match valid_cases st with
      | [] => ret (Some Raised_ValueError)
      | _ =>
          tcs <- oracle_pass (slice_to target_count (valid_cases st)) ;;
          ret (Some (Returned
                       {| test_cases := tcs;
                          total_generated := length tcs;
                          result_generator_code := generator_code st;
                          result_validator_code := validator_code st;
                          result_generator_commands := generator_commands st;
                          iterations := iteration st |}))
      end
  end.

End WithEnv.

End Supervisor.

(* ================================================================== *)
(** * Vocabulary of the properties *)

Definition count_chr (c : ascii) (s : text) : nat := count_occ ascii_dec s c.
Global Arguments count_chr : simpl never.

(** Balanced in the counting sense: as many closers as openers, and no
    prefix with more closers than openers. *)
Definition prefix_ok (s : text) : Prop :=
  forall p, p `prefix_of` s -> count_chr RBRACE p <= count_chr LBRACE p.
Definition brace_balanced (s : text) : Prop :=
  count_chr LBRACE s = count_chr RBRACE s /\ prefix_ok s.

(** The invariant of the scanning loop: what has been kept so far never
    closes more than it opened, and [open_count] is the surplus. *)
Definition scan_inv (st : BraceScan) : Prop :=
  prefix_ok (balanced_chars st) /\
  count_chr LBRACE (balanced_chars st)
  = count_chr RBRACE (balanced_chars st) + open_count st.

(** A one-pass check of [prefix_ok], starting [n] braces deep. *)
Fixpoint depth_ok (n : nat) (s : text) : bool :=
  match s with
  | [] => true
  | c :: s' =>
      if chr_eqb c LBRACE then depth_ok (S n) s'
      else if chr_eqb c RBRACE then
        match n with
        | O => false
        | S k => depth_ok k s'
        end
      else depth_ok n s'
  end.

(** What holds of the result of a computation started in [w]. *)
Definition post {A} (c : M A) (w : World) (Q : A -> World -> Prop) : Prop :=
  Q (fst (c w)) (snd (c w)).

(** The same state predicate on every way a stretch of the body ends. *)
Definition flow_all (P : Supervisor.LoopState -> Prop)
    (f : Supervisor.Flow Supervisor.LoopState) : Prop :=
  match f with
  | Supervisor.Go st | Supervisor.Continue st | Supervisor.Break st => P st
  end.

(** A stretch that yields a value other than the state. *)
Definition flow_with {A} (P : Supervisor.LoopState -> Prop) (G : A -> Prop)
    (f : Supervisor.Flow A) : Prop :=
  match f with
  | Supervisor.Go a => G a
  | Supervisor.Continue st | Supervisor.Break st => P st
  end.

(** The iteration counter and the accumulator are those of [st0]. *)
Definition same_core (st0 st : Supervisor.LoopState) : Prop :=
  Supervisor.iteration st = Supervisor.iteration st0 /\
  Supervisor.valid_cases st = Supervisor.valid_cases st0.

(** A candidate as the Generator Runner hands it out. *)
Definition runner_candidate (x : text) : Prop :=
  exists stdout, strip stdout <> [] /\ x = rstrip_chr NL stdout ++ [NL].

(** A candidate that a run of the generator of the environment gave: the
    run exited with status 0, its stdout is not blank, and the candidate
    is that stdout with its trailing newlines replaced by one. *)
Definition generated (env : Supervisor.Env) (x : text) : Prop :=
  exists k exe args stdout stderr,
    Supervisor.generator_process env k exe args = Exited 0 stdout stderr /\
    strip stdout <> [] /\ x = rstrip_chr NL stdout ++ [NL].

(** Some validator run of the environment accepts [x]. *)
Definition accepted (env : Supervisor.Env) (x : text) : Prop :=
  exists k exe,
    ValidatorExecutorService.valid
      (ValidatorExecutorService.verdict_of
         (Supervisor.validator_process env k exe x)) = true.

(** Some validator run of the environment rejects [x]. *)
Definition rejected (env : Supervisor.Env) (x : text) : Prop :=
  exists k exe,
    ValidatorExecutorService.valid
      (ValidatorExecutorService.verdict_of
         (Supervisor.validator_process env k exe x)) = false.

(** An accumulated input: a candidate that a generator run of the
    environment gave and that a validator run accepted as it is; or such
    a candidate that a validator run rejected, with its trailing newlines
    taken off by the normalization retry, which a validator run then
    accepted. *)
Definition sound_case (env : Supervisor.Env) (x : text) : Prop :=
  (generated env x /\ accepted env x) \/
  (exists c, generated env c /\ rejected env c /\
             x = rstrip_chr NL c /\ accepted env x).

(** The invariant of the supervision loop. *)
Definition loop_inv (env : Supervisor.Env) (st : Supervisor.LoopState) : Prop :=
  Forall (sound_case env) (Supervisor.valid_cases st).

(** A run of the Generator Runner that succeeded carries a candidate. *)
Definition good_run (r : GeneratorExecutorService.GenRun) : Prop :=
  GeneratorExecutorService.success r = true ->
  exists x, GeneratorExecutorService.input_data r = Some x /\ runner_candidate x.

(** A run of the Generator Runner on the generator of the environment
    that succeeded carries a candidate that the generator gave. *)
Definition generated_run (env : Supervisor.Env)
    (r : GeneratorExecutorService.GenRun) : Prop :=
  GeneratorExecutorService.success r = true ->
  exists x, GeneratorExecutorService.input_data r = Some x /\ generated env x.

(** [r] is the verdict of some run of the validator at [exe] on [x]. *)
Definition verdict_for (env : Supervisor.Env) (exe x : text)
    (r : ValidatorExecutorService.ValidationResult) : Prop :=
  exists k,
    r = ValidatorExecutorService.verdict_of
          (Supervisor.validator_process env k exe x).

(** What holds of the loop state after a stretch of an iteration that
    began in [st0]. *)
Definition kept (env : Supervisor.Env) (st0 st : Supervisor.LoopState) : Prop :=
  Supervisor.iteration st = Supervisor.iteration st0 /\ loop_inv env st.

(** A test case as an oracle run of the environment yields it: the run
    exits with status 0 and the output is its stdout, stripped. *)
Definition oracle_pair (env : Supervisor.Env) (b : Supervisor.Bundle)
    (tc : Supervisor.TestCase) : Prop :=
  exists k stdout stderr,
    Supervisor.oracle_process env k (Supervisor.oracle_code b)
      (Supervisor.input tc) = Exited 0 stdout stderr /\
    Supervisor.output tc = strip stdout.

(** The world in which the loop of [generate_test_cases] starts, and the
    clock reading it starts from, when the call is made in [w]. *)
Definition loop_world (w : World) : World := EvInferFormat :: EvTime :: w.
Definition loop_start (env : Supervisor.Env) (w : World) : Z :=
  Supervisor.time_ms env (length w).

(** The state the loop of [generate_test_cases] ends in, when it ends. *)
Definition final_state (env : Supervisor.Env) (b : Supervisor.Bundle)
    (target_count : Z) (w : World) : option Supervisor.LoopState :=
  fst (Supervisor.loop env b target_count (loop_start env w)
         (S Supervisor.max_iterations) Supervisor.initial_state (loop_world w)).

(** Exactly one trailing newline; no trailing newline. *)
Definition one_trailing_newline (x : text) : Prop :=
  exists body, x = body ++ [NL] /\ endswith [NL] body = false.
Definition no_trailing_newline (x : text) : Prop :=
  endswith [NL] x = false.

(** The requests of a trace that reach an LLM agent. *)
Definition is_agent_request (ev : Event) : bool :=
  match ev with
  | EvGenerateGenerator | EvReviseGenerator _
  | EvGenerateValidator | EvReviseValidator _
  | EvMinimalValidator _ => true
  | _ => false
  end.

(** A [return] without a value or without its semicolon, and a line that
    closes a block, as [_fix_incomplete_returns] tells them. *)
Definition incomplete_return (line : text) : bool :=
  let stripped := strip line in
  text_eqb stripped (T "return")
  || (startswith (T "return") stripped && negb (endswith (T ";") stripped)).
Definition closes_block (line : text) : bool :=
  startswith [RBRACE] (strip line).
(** The line that replaces an incomplete [return]. *)
Definition completed_return (line : text) : text :=
  repeat (ascii_of_nat 32) (length line - length (lstrip line)) ++ T "return 0;".

(** A line of a compilation log mentions one of the keywords, in either
    case. *)
Definition mentions_keyword (line : text) : bool :=
  existsb (fun keyword => contains keyword (lower line)) Supervisor.error_keywords.

(** [s] without its closing braces. *)
Definition erase_closers (s : text) : text :=
  List.filter (fun c => negb (chr_eqb c RBRACE)) s.

(** The requests for an oracle run on each of [inputs], the latest first. *)
Definition oracle_runs (code : text) (inputs : list text) : list Event :=
  rev (map (EvRunOracle code) inputs).

(** A digest as [hexdigest] gives it: hexadecimal digits, eight at least. *)
Definition is_hex_digest (digest : text) : Prop :=
  8 <= length digest /\
  Forall (fun c => GeneratorExecutorService.hex_digit c <> None) digest.

(** The compile-and-fix loop on a compiler and a reviser that make one
    request each, as the supervisor hands them over for both programs. *)
Definition auto_fix_run (ev_compile ev_revise : text -> Event)
    (compiler : nat -> text -> Supervisor.CompileResult)
    (reviser : nat -> text -> text -> option text) (code : text)
  : M (option Supervisor.CompileResult * text) :=
  Supervisor._compile_with_auto_fix
    (fun current_code =>
       call (ev_compile current_code) (fun k => compiler k current_code))
    (fun current_code compilation_error =>
       call (ev_revise current_code)
         (fun k => reviser k current_code compilation_error))
    code.

(** What a run of the compile-and-fix loop that made the requests [evs]
    after [w] may return: the success of the last request, a compilation
    of the returned code; or the failure of the last compilation, with
    the code that failed when its revision failed, or with its revision,
    never compiled, when the attempts are used up. *)
Definition auto_fix_outcome (ev_compile ev_revise : text -> Event)
    (compiler : nat -> text -> Supervisor.CompileResult)
    (reviser : nat -> text -> text -> option text) (attempts : nat)
    (w evs : World) (r : Supervisor.CompileResult) (code' : text) : Prop :=
  match r with
  | Supervisor.CompileOk executable_path =>
      exists evs',
        evs = ev_compile code' :: evs' /\
        compiler (length (evs' ++ w)) code'
        = Supervisor.CompileOk executable_path
  | Supervisor.CompileFailed error =>
      exists current_code evs',
        evs = ev_revise current_code :: ev_compile current_code :: evs' /\
        compiler (length (evs' ++ w)) current_code
        = Supervisor.CompileFailed error /\
        ((reviser (S (length (evs' ++ w))) current_code error = None
          /\ code' = current_code)
         \/ (reviser (S (length (evs' ++ w))) current_code error = Some code'
             /\ length evs = 2 * attempts))
  end.

(** [w'] continues [w] with requests that all satisfy [P]. *)
Definition only (P : Event -> Prop) (w w' : World) : Prop :=
  exists evs, w' = evs ++ w /\ Forall P evs.

(** The non-empty inputs of the worked examples of the bundle: the
    [sample_inputs] of step 5. *)
Definition example_inputs (b : Supervisor.Bundle) : list text :=
  match Supervisor.examples b with
  | Some ((_ :: _) as exs) =>
      map Supervisor.ex_input
        (List.filter (fun ex => negb (Supervisor.is_nil (Supervisor.ex_input ex)))
           exs)
  | _ => []
  end.

(** An executable path that a compilation of the environment reported. *)
Definition built_generator (env : Supervisor.Env) (exe : text) : Prop :=
  exists k code, Supervisor.compile_generator env k code = Supervisor.CompileOk exe.
Definition built_validator (env : Supervisor.Env) (exe : text) : Prop :=
  exists k code, Supervisor.compile_validator env k code = Supervisor.CompileOk exe.

(** What the supervisor may ask of the outside in a call on the bundle
    [b]: the minimal validator for the example inputs only, when there
    are some; a run of an executable that was built; the oracle of the
    bundle on an input that came from the generator and that a validator
    accepted. *)
Definition guarded_request (env : Supervisor.Env) (b : Supervisor.Bundle)
    (ev : Event) : Prop :=
  match ev with
  | EvMinimalValidator samples => samples = example_inputs b /\ samples <> []
  | EvRunGenerator exe _ => built_generator env exe
  | EvRunValidator exe _ => built_validator env exe
  | EvRunOracle code x => code = Supervisor.oracle_code b /\ sound_case env x
  | _ => True
  end.

(** The state of the loop as far as the requests depend on it. *)
Definition samples_known (b : Supervisor.Bundle) (st : Supervisor.LoopState)
  : Prop :=
  Supervisor.sample_inputs st = [] \/
  Supervisor.sample_inputs st = example_inputs b.
Definition generator_ready (env : Supervisor.Env) (st : Supervisor.LoopState)
  : Prop :=
  exists exe, Supervisor.generator_executable st = Some exe
              /\ built_generator env exe.
Definition validator_ready (env : Supervisor.Env) (st : Supervisor.LoopState)
  : Prop :=
  exists exe, Supervisor.validator_executable st = Some exe
              /\ built_validator env exe.

Definition normalized_input (original_input : text) : text :=
  if negb (endswith [NL] original_input) then original_input ++ [NL]
  else rstrip_chr NL original_input.



(** ** Scenarios *)

Module Scenarios.

Import Supervisor.

(** A generator that prints the value of its last argument on a line. *)
Definition echo_last_arg (args : list text) : ProcOutcome :=
  Exited 0 (default [] (last args) ++ [NL]) [].

(** Collaborators that always succeed: a generator with two commands, a
    validator that accepts everything, a clock that stands still.  The
    revisions of the generator fail, as those of [GeneratorAgentService]
    do; there is no minimal-validator builder, as in
    [ValidatorAgentService]. *)
Definition base_env (oracle : text -> ProcOutcome) : Env :=
  {| time_ms := fun _ => 0%Z;
     generate_generator_program := fun _ _ =>
       Some (T "gen.cpp", [T "./gen -n 1"; T "./gen -n 2"]);
     revise_generator_program := fun _ _ _ _ _ => None;
     generate_validator_program := fun _ _ => Some (T "val.cpp");
     revise_validator_program := fun _ _ _ _ _ _ _ => None;
     generate_minimal_validator_code := fun _ _ => None;
     compile_generator := fun _ _ => CompileOk (T "/tmp/gen");
     compile_validator := fun _ _ => CompileOk (T "/tmp/val");
     generator_process := fun _ _ args => echo_last_arg args;
     validator_process := fun _ _ _ => Exited 0 [] [];
     oracle_process := fun _ _ x => oracle x |}.

Definition no_examples (statement oracle : text) : Bundle :=
  {| problem_statement := statement; oracle_code := oracle;
     examples := None; constraints := None |}.

(** The diversity trap: the oracle answers YES whatever the input. *)
Definition trap_env : Env :=
  base_env (fun _ => Exited 0 (T "YES" ++ [NL]) []).
Definition trap_bundle : Bundle :=
  no_examples (T "does n>0?") (T "print('YES')").

(** A validator written for inputs without a final newline: it rejects
    every input that ends with one, as [readEof] of testlib reports it. *)
Definition strict_eof_validator (x : text) : ProcOutcome :=
  if endswith [NL] x
  then Exited 3 [] (T "FAIL Expected EOF (stdin, line 2)")
  else Exited 0 [] [].
Definition strict_eof_env : Env :=
  {| time_ms := fun _ => 0%Z;
     generate_generator_program := generate_generator_program trap_env;
     revise_generator_program := revise_generator_program trap_env;
     generate_validator_program := generate_validator_program trap_env;
     revise_validator_program := revise_validator_program trap_env;
     generate_minimal_validator_code := generate_minimal_validator_code trap_env;
     compile_generator := compile_generator trap_env;
     compile_validator := compile_validator trap_env;
     generator_process := generator_process trap_env;
     validator_process := fun _ _ x => strict_eof_validator x;
     oracle_process := fun _ _ x => Exited 0 x [] |}.
Definition echo_bundle : Bundle :=
  no_examples (T "print n") (T "print(input())").

(** An oracle that prints its answer right-aligned. *)
Definition padded_stdout : text := T "  5" ++ [NL].
Definition padded_env : Env := base_env (fun _ => Exited 0 padded_stdout []).
Definition padded_bundle : Bundle :=
  no_examples (T "print 5 in a field of width 3") (T "print('%3d' % 5)").

(** An oracle that prints nothing but a newline on the input 1. *)
Definition quiet_oracle (x : text) : ProcOutcome :=
  if text_eqb x (T "1" ++ [NL]) then Exited 0 [NL] []
  else Exited 0 (T "ok" ++ [NL]) [].
Definition quiet_env : Env := base_env quiet_oracle.
Definition quiet_bundle : Bundle :=
  no_examples (T "print ok unless n = 1") (T "...").

(** The wall-clock budget is spent before the first iteration. *)
Definition late_env : Env :=
  {| time_ms := fun k => (Z.of_nat k * 1000000)%Z;
     generate_generator_program := generate_generator_program trap_env;
     revise_generator_program := revise_generator_program trap_env;
     generate_validator_program := generate_validator_program trap_env;
     revise_validator_program := revise_validator_program trap_env;
     generate_minimal_validator_code := generate_minimal_validator_code trap_env;
     compile_generator := compile_generator trap_env;
     compile_validator := compile_validator trap_env;
     generator_process := generator_process trap_env;
     validator_process := validator_process trap_env;
     oracle_process := oracle_process trap_env |}.

(** Every validator executable crashes on every input (access violation,
    status 3221225785); both agents answer every revision. *)
Definition crash_status : Z := 3221225785.
Definition crashing_env (minimal : option text) : Env :=
  {| time_ms := fun _ => 0%Z;
     generate_generator_program := generate_generator_program trap_env;
     revise_generator_program := fun _ _ code _ _ => Some (code, None);
     generate_validator_program := generate_validator_program trap_env;
     revise_validator_program := fun _ _ _ _ _ _ _ => Some (T "val-revised.cpp");
     generate_minimal_validator_code := fun _ _ => minimal;
     compile_generator := compile_generator trap_env;
     compile_validator := compile_validator trap_env;
     generator_process := generator_process trap_env;
     validator_process := fun _ _ _ => Exited crash_status [] [];
     oracle_process := fun _ _ x => Exited 0 x [] |}.
Definition sum_bundle : Bundle :=
  {| problem_statement := T "print a+b";
     oracle_code := T "print(sum(map(int, input().split())))";
     examples := Some [{| ex_input := T "2 3" ++ [NL]; ex_output := T "5" |}];
     constraints := None |}.

(** How often a trace asks for the minimal validator, compiles the code
    [code] as a validator, and runs the generator. *)
Definition asks_minimal (ev : Event) : bool :=
  match ev with EvMinimalValidator _ => true | _ => false end.
Definition compiles_validator (code : text) (ev : Event) : bool :=
  match ev with EvCompileValidator c => text_eqb c code | _ => false end.
Definition runs_generator (ev : Event) : bool :=
  match ev with EvRunGenerator _ _ => true | _ => false end.

(** A generator executable that prints its arguments, whenever it is
    run. *)
Definition stable_generator (k : nat) (exe : text) (args : list text)
  : ProcOutcome :=
  Exited 0 (join (T " ") args ++ [NL]) [].

(** The MD5 digest of the command [./gen -n 5], as [hashlib.md5] gives
    it, and the seed [calculate_seed] makes of it: its first eight
    hexadecimal digits. *)
Definition md5_of_gen_n_5 : text := T "741aefab7bd35d3a6d9045343975e146".
Definition seed_of_gen_n_5 : Z := 1947922347.

(** A reply of the model in the strict format: a generator that declares
    the option [n] and lists a command with the undeclared flag [m]. *)
Definition quoted (s : text) : text := [DQUOTE] ++ s ++ [DQUOTE].
Definition reply_with_undeclared_flag : text :=
  join [NL]
    [ T "<<CODE>>";
      T "#include " ++ quoted (T "testlib.h");
      T "/* COMMANDS:";
      T "./gen -n 5";
      T "./gen -n 5 -m 3";
      T "*/";
      T "int main(int argc, char* argv[]) {";
      T "  registerGen(argc, argv, 1);";
      T "  int n = opt<int>(" ++ quoted (T "n") ++ T ");";
      T "  println(rnd.next(1, n));";
      T "}";
      T "<<ENDCODE>>" ].

(** What the two scenarios with a returned suite are expected to return. *)
Definition strict_eof_suite : Result :=
  {| test_cases := [ {| input := T "1"; output := T "1" |};
                     {| input := T "2"; output := T "2" |} ];
     total_generated := 2;
     result_generator_code := Some (T "gen.cpp");
     result_validator_code := Some (T "val.cpp");
     result_generator_commands := [T "./gen -n 1"; T "./gen -n 2"];
     iterations := 1 |}.
Definition padded_suite : Result :=
  {| test_cases := [ {| input := T "1" ++ [NL]; output := T "5" |} ];
     total_generated := 1;
     result_generator_code := Some (T "gen.cpp");
     result_validator_code := Some (T "val.cpp");
     result_generator_commands := [T "./gen -n 1"; T "./gen -n 2"];
     iterations := 1 |}.
Definition quiet_suite : Result :=
  {| test_cases := [ {| input := T "2" ++ [NL]; output := T "ok" |} ];
     total_generated := 1;
     result_generator_code := Some (T "gen.cpp");
     result_validator_code := Some (T "val.cpp");
     result_generator_commands := [T "./gen -n 1"; T "./gen -n 2"];
     iterations := 1 |}.
Definition trap_suite : Result :=
  {| test_cases := [ {| input := T "1" ++ [NL]; output := T "YES" |};
                     {| input := T "2" ++ [NL]; output := T "YES" |} ];
     total_generated := 2;
     result_generator_code := Some (T "gen.cpp");
     result_validator_code := Some (T "val.cpp");
     result_generator_commands := [T "./gen -n 1"; T "./gen -n 2"];
     iterations := 1 |}.

(** The diversity trap behind the validator that wants no final newline:
    every candidate is accepted through the retry only. *)
Definition retry_trap_env : Env :=
  {| time_ms := fun _ => 0%Z;
     generate_generator_program := generate_generator_program trap_env;
     revise_generator_program := revise_generator_program trap_env;
     generate_validator_program := generate_validator_program trap_env;
     revise_validator_program := revise_validator_program trap_env;
     generate_minimal_validator_code := generate_minimal_validator_code trap_env;
     compile_generator := compile_generator trap_env;
     compile_validator := compile_validator trap_env;
     generator_process := generator_process trap_env;
     validator_process := fun _ _ x => strict_eof_validator x;
     oracle_process := oracle_process trap_env |}.

Definition revises_generator (ev : Event) : bool :=
  match ev with EvReviseGenerator _ => true | _ => false end.
Definition runs_oracle (ev : Event) : bool :=
  match ev with EvRunOracle _ _ => true | _ => false end.

(** The crashing validators with the revisions of [GeneratorAgentService],
    which all fail. *)
Definition crashing_source_env : Env :=
  {| time_ms := fun _ => 0%Z;
     generate_generator_program := generate_generator_program trap_env;
     revise_generator_program := revise_generator_program trap_env;
     generate_validator_program := generate_validator_program trap_env;
     revise_validator_program := revise_validator_program (crashing_env None);
     generate_minimal_validator_code := fun _ _ => None;
     compile_generator := compile_generator trap_env;
     compile_validator := compile_validator trap_env;
     generator_process := generator_process trap_env;
     validator_process := validator_process (crashing_env None);
     oracle_process := oracle_process (crashing_env None) |}.

End Scenarios.


(* ================================================================== *)
(** * Properties *)

Lemma count_chr_app c (a b : text) :
  count_chr c (a ++ b) = count_chr c a + count_chr c b.
Proof. apply count_occ_app. Qed.

Lemma count_chr_repeat_same c n : count_chr c (repeat c n) = n.
Proof.
  induction n as [|n IH]; simpl; [reflexivity|].
  unfold count_chr in *. simpl. destruct (ascii_dec c c); congruence.
Qed.

Lemma count_chr_repeat_other c d n : c <> d -> count_chr c (repeat d n) = 0.
Proof.
  intros Hne. induction n as [|n IH]; simpl; [reflexivity|].
  unfold count_chr in *. simpl. destruct (ascii_dec d c); congruence.
Qed.

Lemma chr_eqb_eq a b : chr_eqb a b = true <-> a = b.
Proof. apply Ascii.eqb_eq. Qed.

Lemma chr_eqb_neq a b : chr_eqb a b = false <-> a <> b.
Proof. apply Ascii.eqb_neq. Qed.

Lemma count_chr_single c d :
  count_chr c [d] = if chr_eqb d c then 1 else 0.
Proof.
  unfold count_chr. simpl. destruct (ascii_dec d c) as [->|Hne].
  - now rewrite (proj2 (chr_eqb_eq c c) eq_refl).
  - now rewrite (proj2 (chr_eqb_neq d c) Hne).
Qed.

Lemma prefix_snoc_inv {A} (p l : list A) (x : A) :
  p `prefix_of` (l ++ [x]) -> p `prefix_of` l \/ p = l ++ [x].
Proof.
  intros [k Hk]. destruct (decide (k = [])) as [->|Hne].
  - right. now rewrite app_nil_r in Hk.
  - left. destruct (exists_last Hne) as (k' & y & ->).
    rewrite app_assoc in Hk. apply app_inj_tail in Hk as [-> _].
    now exists k'.
Qed.

Lemma prefix_app_inv {A} (p a b : list A) :
  p `prefix_of` (a ++ b) ->
  p `prefix_of` a \/ exists q, p = a ++ q /\ q `prefix_of` b.
Proof.
  revert p. induction a as [|x a IH]; intros p Hp.
  - right. exists p. split; [reflexivity | exact Hp].
  - destruct p as [|y p].
    + left. apply prefix_nil.
    + simpl in Hp. destruct Hp as [k Hk]. injection Hk as <- Hk.
      destruct (IH p) as [Hl | (q & -> & Hq)]; [now exists k | |].
      * left. now apply prefix_cons.
      * right. exists q. split; [reflexivity | exact Hq].
Qed.

Lemma count_chr_prefix c (p s : text) :
  p `prefix_of` s -> count_chr c p <= count_chr c s.
Proof. intros [k ->]. rewrite count_chr_app. lia. Qed.

Lemma braces_differ : LBRACE <> RBRACE.
Proof. discriminate. Qed.

Lemma prefix_ok_snoc (s : text) (ch : ascii) :
  prefix_ok s ->
  count_chr RBRACE (s ++ [ch]) <= count_chr LBRACE (s ++ [ch]) ->
  prefix_ok (s ++ [ch]).
Proof.
  intros Hs Hall p Hp. apply prefix_snoc_inv in Hp as [Hp | ->]; auto.
Qed.

Lemma brace_step_inv st ch : scan_inv st -> scan_inv (brace_step st ch).
Proof.
  intros [Hpre Hcnt]. unfold brace_step.
  destruct (chr_eqb ch LBRACE) eqn:El.
  - apply chr_eqb_eq in El as ->. split; simpl.
    + apply prefix_ok_snoc; [exact Hpre|].
      rewrite !count_chr_app, !count_chr_single. simpl. lia.
    + rewrite !count_chr_app, !count_chr_single. simpl. lia.
  - destruct (chr_eqb ch RBRACE) eqn:Er.
    + apply chr_eqb_eq in Er as ->.
      destruct (open_count st) as [|k] eqn:Eo; split; simpl; auto; try lia.
      * apply prefix_ok_snoc; [exact Hpre|].
        rewrite !count_chr_app, !count_chr_single. simpl. lia.
      * rewrite !count_chr_app, !count_chr_single. simpl. lia.
    + split; simpl.
      * apply prefix_ok_snoc; [exact Hpre|].
        rewrite !count_chr_app, !count_chr_single, El, Er. lia.
      * rewrite !count_chr_app, !count_chr_single, El, Er. lia.
Qed.

Lemma brace_fold_inv code : forall st,
  scan_inv st -> scan_inv (fold_left brace_step code st).
Proof.
  induction code as [|ch code IH]; intros st Hst; simpl; [exact Hst|].
  apply IH, brace_step_inv, Hst.
Qed.

Lemma brace_scan_inv code : scan_inv (brace_scan code).
Proof.
  apply brace_fold_inv. split; simpl; [|reflexivity].
  intros p Hp. apply prefix_nil_inv in Hp as ->. reflexivity.
Qed.

Lemma brace_finish_balanced st : scan_inv st -> brace_balanced (brace_finish st).
Proof.
  intros [Hpre Hcnt]. unfold brace_finish.
  destruct (0 <? open_count st) eqn:Eo.
  - assert (Hnl_l : count_chr LBRACE [NL] = 0) by reflexivity.
    assert (Hnl_r : count_chr RBRACE [NL] = 0) by reflexivity.
    split.
    + change (NL :: repeat RBRACE (open_count st))
        with ([NL] ++ repeat RBRACE (open_count st)).
      rewrite !count_chr_app, Hnl_l, Hnl_r, count_chr_repeat_same,
        (count_chr_repeat_other LBRACE RBRACE) by apply braces_differ.
      lia.
    + intros p Hp. apply prefix_app_inv in Hp as [Hp | (q & -> & Hq)]; auto.
      rewrite !count_chr_app.
      pose proof (count_chr_prefix RBRACE _ _ Hq) as Hle.
      change (NL :: repeat RBRACE (open_count st))
        with ([NL] ++ repeat RBRACE (open_count st)) in Hle.
      rewrite count_chr_app, Hnl_r, count_chr_repeat_same in Hle. lia.
  - apply Nat.ltb_ge in Eo. split; [lia | exact Hpre].
Qed.

(** On a text that never closes more than [open_count] allows, the loop
    keeps every character. *)
Lemma count_chr_nil c : count_chr c [] = 0.
Proof. reflexivity. Qed.

Lemma count_chr_cons c ch (p : text) :
  count_chr c (ch :: p) = (if chr_eqb ch c then 1 else 0) + count_chr c p.
Proof.
  change (ch :: p) with ([ch] ++ p).
  now rewrite count_chr_app, count_chr_single.
Qed.

Lemma brace_fold_keeps code : forall st,
  (forall p, p `prefix_of` code ->
     count_chr RBRACE p <= open_count st + count_chr LBRACE p) ->
  balanced_chars (fold_left brace_step code st) = balanced_chars st ++ code /\
  open_count (fold_left brace_step code st) + count_chr RBRACE code
  = open_count st + count_chr LBRACE code /\
  removed (fold_left brace_step code st) = removed st.
Proof.
  induction code as [|ch code IH]; intros st Hok; cbn [fold_left].
  - rewrite app_nil_r, !count_chr_nil. repeat split; lia.
  - assert (Hhead := Hok [ch] (prefix_cons ch [] code (prefix_nil code))).
    assert (Htail : forall p, p `prefix_of` code ->
              count_chr RBRACE (ch :: p) <= open_count st + count_chr LBRACE (ch :: p))
      by (intros p Hp; apply Hok; now apply prefix_cons).
    rewrite !count_chr_cons, !count_chr_nil in Hhead.
    rewrite !(count_chr_cons _ ch code).
    destruct (chr_eqb ch LBRACE) eqn:El.
    + assert (E : brace_step st ch
                  = {| balanced_chars := balanced_chars st ++ [ch];
                       open_count := S (open_count st);
                       removed := removed st |})
        by (unfold brace_step; now rewrite El).
      rewrite E. clear E.
      assert (Er : chr_eqb ch RBRACE = false)
        by (apply chr_eqb_eq in El; now subst ch).
      rewrite Er in *.
      destruct (IH {| balanced_chars := balanced_chars st ++ [ch];
                      open_count := S (open_count st);
                      removed := removed st |}) as (Hb & Ho & Hr).
      { intros p Hp. specialize (Htail p Hp).
        rewrite !count_chr_cons, El, Er in Htail. simpl in *. lia. }
      simpl in Hb, Ho, Hr.
      rewrite Hb, Hr, <- app_assoc. repeat split. simpl in *. lia.
    + destruct (chr_eqb ch RBRACE) eqn:Er.
      * destruct (open_count st) as [|k] eqn:Eo; [lia|].
        assert (E : brace_step st ch
                    = {| balanced_chars := balanced_chars st ++ [ch];
                         open_count := k;
                         removed := removed st |})
          by (unfold brace_step; now rewrite El, Er, Eo).
        rewrite E. clear E.
        destruct (IH {| balanced_chars := balanced_chars st ++ [ch];
                        open_count := k;
                        removed := removed st |}) as (Hb & Ho & Hr).
        { intros p Hp. specialize (Htail p Hp).
          rewrite !count_chr_cons, El, Er in Htail. simpl in *. lia. }
        simpl in Hb, Ho, Hr.
        rewrite Hb, Hr, <- app_assoc. repeat split. simpl in *. lia.
      * assert (E : brace_step st ch
                    = {| balanced_chars := balanced_chars st ++ [ch];
                         open_count := open_count st;
                         removed := removed st |})
          by (unfold brace_step; now rewrite El, Er).
        rewrite E. clear E.
        destruct (IH {| balanced_chars := balanced_chars st ++ [ch];
                        open_count := open_count st;
                        removed := removed st |}) as (Hb & Ho & Hr).
        { intros p Hp. specialize (Htail p Hp).
          rewrite !count_chr_cons, El, Er in Htail. simpl in *. lia. }
        simpl in Hb, Ho, Hr.
        rewrite Hb, Hr, <- app_assoc. repeat split. simpl in *. lia.
Qed.

Lemma balance_braces_balanced code : brace_balanced (balance_braces code).
Proof. apply brace_finish_balanced, brace_scan_inv. Qed.

Lemma balance_braces_fixed code :
  brace_balanced code -> balance_braces code = code.
Proof.
  intros [Hcnt Hpre]. unfold balance_braces, brace_scan.
  destruct (brace_fold_keeps code
              {| balanced_chars := []; open_count := 0; removed := 0 |})
    as (Hb & Ho & _).
  { intros p Hp. simpl. apply Hpre, Hp. }
  unfold brace_finish. simpl in *.
  assert (Hz : open_count (fold_left brace_step code
                {| balanced_chars := []; open_count := 0; removed := 0 |}) = 0) by lia.
  rewrite Hz. simpl. exact Hb.
Qed.

Lemma depth_ok_sound s : forall n,
  depth_ok n s = true ->
  forall p, p `prefix_of` s -> count_chr RBRACE p <= n + count_chr LBRACE p.
Proof.
  induction s as [|c s IH]; intros n Hd p Hp.
  - apply prefix_nil_inv in Hp as ->. rewrite !count_chr_nil. lia.
  - destruct p as [|c' p]; [rewrite !count_chr_nil; lia|].
    destruct Hp as [k Hk]. injection Hk as Hc Hk. subst c'.
    assert (Hp : p `prefix_of` s) by now exists k.
    rewrite !count_chr_cons. simpl in Hd.
    destruct (chr_eqb c LBRACE) eqn:El.
    + assert (Er : chr_eqb c RBRACE = false)
        by (apply chr_eqb_eq in El; now subst c).
      rewrite Er. specialize (IH _ Hd p Hp). lia.
    + destruct (chr_eqb c RBRACE) eqn:Er.
      * destruct n as [|k']; [discriminate|]. specialize (IH _ Hd p Hp). lia.
      * specialize (IH _ Hd p Hp). lia.
Qed.

(** C10. For every input, the brace-balancing pass of both agents returns
    a text with as many opening as closing braces in which no prefix has
    more closing than opening braces; the pass is idempotent; and a text
    that is already balanced in this sense comes back unchanged. *)
Theorem balance_braces_normal_form :
  forall code context,
    GeneratorAgentService._balance_braces code context
    = ValidatorAgentService._balance_braces code /\
    count_chr LBRACE (ValidatorAgentService._balance_braces code)
    = count_chr RBRACE (ValidatorAgentService._balance_braces code) /\
    (forall p, p `prefix_of` ValidatorAgentService._balance_braces code ->
               count_chr RBRACE p <= count_chr LBRACE p) /\
    ValidatorAgentService._balance_braces
      (ValidatorAgentService._balance_braces code)
    = ValidatorAgentService._balance_braces code /\
    (brace_balanced code -> ValidatorAgentService._balance_braces code = code).
Proof.
  intros code context.
  unfold GeneratorAgentService._balance_braces,
    ValidatorAgentService._balance_braces.
  pose proof (balance_braces_balanced code) as Hbal.
  split; [reflexivity|]. split; [apply Hbal|]. split; [apply Hbal|].
  split; [now apply balance_braces_fixed | apply balance_braces_fixed].
Qed.

Lemma balance_braces_normal_form_witness :
  brace_balanced (T "int main() { if (x) { y(); } }") /\
  ValidatorAgentService._balance_braces (T "int main() { if (x) { y(); } }")
  = T "int main() { if (x) { y(); } }".
Proof.
  assert (H : brace_balanced (T "int main() { if (x) { y(); } }")).
  { split; [reflexivity|].
    intros p Hp.
    apply (depth_ok_sound (T "int main() { if (x) { y(); } }") 0 eq_refl p Hp). }
  split; [exact H|].
  apply (balance_braces_normal_form (T "int main() { if (x) { y(); } }") []), H.
Defined.

(** ** Reasoning about computations in the world *)

Lemma post_ret {A} (a : A) w (Q : A -> World -> Prop) :
  Q a w -> post (ret a) w Q.
Proof. intros H. exact H. Qed.

Lemma post_bind {A B} (c : M A) (k : A -> M B) w (Q : B -> World -> Prop) :
  post c w (fun a w' => post (k a) w' Q) -> post (bind c k) w Q.
Proof. unfold post, bind. destruct (c w) as [a w']. simpl. auto. Qed.

Lemma post_call {A} ev (answer : nat -> A) w (Q : A -> World -> Prop) :
  Q (answer (length w)) (ev :: w) -> post (call ev answer) w Q.
Proof. intros H. exact H. Qed.

Lemma post_any {A} (c : M A) w (Q : A -> World -> Prop) :
  (forall a w', Q a w') -> post c w Q.
Proof. intros H. apply H. Qed.

Lemma post_mono {A} (c : M A) w (Q Q' : A -> World -> Prop) :
  post c w Q -> (forall a w', Q a w' -> Q' a w') -> post c w Q'.
Proof. unfold post. auto. Qed.

Lemma post_lbind {A B} (c : Supervisor.L A) (k : A -> Supervisor.L B) w
    (Q : Supervisor.Flow B -> World -> Prop) :
  post c w (fun f w' =>
              match f with
              | Supervisor.Go a => post (k a) w' Q
              | Supervisor.Continue st => Q (Supervisor.Continue st) w'
              | Supervisor.Break st => Q (Supervisor.Break st) w'
              end) ->
  post (Supervisor.lbind c k) w Q.
Proof.
  intros H. unfold Supervisor.lbind. apply post_bind.
  eapply post_mono; [exact H|]. intros [a|st|st] w' Hf; exact Hf.
Qed.

Lemma post_lift_go {A} (a : A) w (Q : Supervisor.Flow A -> World -> Prop) :
  Q (Supervisor.Go a) w -> post (Supervisor.go a) w Q.
Proof. intros H. exact H. Qed.

Lemma post_continue {A} st w (Q : Supervisor.Flow A -> World -> Prop) :
  Q (Supervisor.Continue st) w -> post (Supervisor.continue_ st) w Q.
Proof. intros H. exact H. Qed.

Lemma post_break {A} st w (Q : Supervisor.Flow A -> World -> Prop) :
  Q (Supervisor.Break st) w -> post (Supervisor.break_ st) w Q.
Proof. intros H. exact H. Qed.

(** Case analysis on what a computation branches on. *)
Ltac wp_case :=
  match goal with
  | |- post (match ?x with _ => _ end) _ _ => destruct x eqn:?
  | |- post (if ?x then _ else _) _ _ => destruct x eqn:?
  | |- match ?x with _ => _ end => destruct x eqn:?
  end.

(** Projections of the loop state through its setters. *)
Ltac st_simpl :=
  cbn [Supervisor.iteration Supervisor.generator_code
       Supervisor.validator_code Supervisor.generator_commands
       Supervisor.validation_errors Supervisor.compilation_errors
       Supervisor.sample_inputs Supervisor.validation_outputs
       Supervisor.generator_executable Supervisor.validator_executable
       Supervisor.valid_cases
       Supervisor.set_iteration Supervisor.set_generator_code
       Supervisor.set_validator_code Supervisor.set_generator_commands
       Supervisor.set_validation_errors Supervisor.set_compilation_errors
       Supervisor.set_sample_inputs Supervisor.set_validation_outputs
       Supervisor.set_generator_executable
       Supervisor.set_validator_executable Supervisor.set_valid_cases] in *.

(** Symbolic execution of a stretch of the loop body: the state is
    followed through; what a batch or the compile-and-fix loop returns is
    arbitrary. *)
Ltac wp_opaque :=
  match goal with
  | |- post (Supervisor._compile_with_auto_fix _ _ _) _ _ => idtac
  | |- post (Supervisor.run_validator_batch _ _ _) _ _ => idtac
  | |- post (GeneratorExecutorService.generate_test_cases_batch _ _ _ _) _ _ => idtac
  | |- post (ValidatorExecutorService.validate_test_case _ _ _) _ _ => idtac
  | |- post (Supervisor.oracle_pass _ _ _) _ _ => idtac
  | |- post (Supervisor.filter_candidates _ _ _ _ _) _ _ => idtac
  end;
  apply post_any; intros.

Ltac wp_run :=
  repeat first
    [ progress st_simpl
    | progress (lazy beta iota)
    | wp_case
    | apply post_ret
    | apply post_lift_go
    | apply post_continue
    | apply post_break
    | wp_opaque
    | apply post_lbind
    | apply post_bind
    | apply post_call ].

Ltac core_tac :=
  unfold flow_all, flow_with, same_core in *; st_simpl;
  try (intuition congruence).

Lemma same_core_refl st : same_core st st.
Proof. split; reflexivity. Qed.

Section Frames.

Variable env : Supervisor.Env.
Variable b : Supervisor.Bundle.
Variable target_count : Z.

Lemma step_generator_frame st0 st w :
  same_core st0 st ->
  post (Supervisor.step_generator env b st) w
       (fun f _ => flow_all (same_core st0) f).
Proof.
  intros H. unfold Supervisor.step_generator.
  wp_run; core_tac.
Qed.

Lemma minimal_after_compile_failure_frame error st0 st w :
  same_core st0 st ->
  post (Supervisor.minimal_after_compile_failure env error st) w
       (fun f _ => flow_all (same_core st0) f).
Proof.
  intros H. unfold Supervisor.minimal_after_compile_failure.
  wp_run; core_tac.
Qed.

Lemma step_validator_frame st0 st w :
  same_core st0 st ->
  post (Supervisor.step_validator env b st) w
       (fun f _ => flow_all (same_core st0) f).
Proof.
  intros H. unfold Supervisor.step_validator.
  wp_run; try (apply minimal_after_compile_failure_frame); core_tac.
Qed.

Lemma step_samples_frame st0 st w :
  same_core st0 st ->
  post (Supervisor.step_samples env b st) w
       (fun f _ => flow_all (same_core st0) f).
Proof.
  intros H. unfold Supervisor.step_samples.
  wp_run; core_tac.
Qed.

End Frames.

(** ** The Generator Runner *)

Lemma candidate_of_good p : good_run (GeneratorExecutorService.candidate_of p).
Proof.
  unfold good_run, GeneratorExecutorService.candidate_of.
  destruct p as [rc out err| |m]; simpl; try discriminate.
  destruct (rc =? 0)%Z; [|simpl; discriminate].
  destruct out as [|c out]; [simpl; discriminate|].
  destruct (strip (c :: out)) eqn:Hs; simpl; [discriminate|].
  intros _. eexists. split; [reflexivity|].
  exists (c :: out). split; [now rewrite Hs | reflexivity].
Qed.

Lemma generated_candidate env x : generated env x -> runner_candidate x.
Proof. intros (k & exe & args & out & err & _ & Hne & ->). now exists out. Qed.

Lemma sound_case_accepted env x : sound_case env x -> accepted env x.
Proof. intros [[_ H] | (c & _ & _ & _ & H)]; exact H. Qed.

Lemma candidate_of_generated env k exe args :
  generated_run env
    (GeneratorExecutorService.candidate_of
       (Supervisor.generator_process env k exe args)).
Proof.
  unfold generated_run.
  destruct (Supervisor.generator_process env k exe args)
    as [rc out err| |m] eqn:Hp;
    cbn [GeneratorExecutorService.candidate_of]; try discriminate.
  destruct (Z.eqb_spec rc 0) as [->|Hrc]; [|discriminate].
  destruct out as [|c out]; [discriminate|].
  destruct (strip (c :: out)) eqn:Hs; [discriminate|].
  intros _. eexists. split; [reflexivity|].
  exists k, exe, args, (c :: out), err.
  split; [exact Hp|]. split; [now rewrite Hs | reflexivity].
Qed.

Lemma generate_test_case_good env exe command w :
  post (GeneratorExecutorService.generate_test_case
          (Supervisor.generator_process env) exe command) w
       (fun r _ => generated_run env r).
Proof.
  unfold GeneratorExecutorService.generate_test_case.
  destruct (GeneratorExecutorService.command_args command).
  - apply post_bind, post_call, post_ret, candidate_of_generated.
  - apply post_ret. unfold generated_run. simpl. discriminate.
Qed.

Lemma batch_loop_good env exe target commands :
  forall results w,
    Forall (generated_run env) results ->
    post (GeneratorExecutorService.batch_loop
            (Supervisor.generator_process env) exe target results commands) w
         (fun rs _ => Forall (generated_run env) rs).
Proof.
  induction commands as [|command commands IH]; intros results w Hres; simpl.
  - apply post_ret, Hres.
  - destruct (target <=? Z.of_nat (length results))%Z.
    + apply post_ret, Hres.
    + apply post_bind.
      eapply post_mono; [apply generate_test_case_good|].
      intros r w' Hr. apply IH.
      apply Forall_app. split; [exact Hres|]. constructor; [exact Hr|constructor].
Qed.

Lemma generate_test_cases_batch_good env exe commands max_cases w :
  post (GeneratorExecutorService.generate_test_cases_batch
          (Supervisor.generator_process env) exe commands max_cases) w
       (fun rs _ => Forall (generated_run env) rs).
Proof.
  unfold GeneratorExecutorService.generate_test_cases_batch.
  apply batch_loop_good. constructor.
Qed.

Lemma generated_inputs_candidates env
    (rs : list GeneratorExecutorService.GenRun) :
  Forall (generated_run env) rs ->
  Forall (generated env)
    (omap (fun r =>
             if GeneratorExecutorService.success r then
               match GeneratorExecutorService.input_data r with
               | Some ((_ :: _) as x) => Some x
               | _ => None
               end
             else None) rs).
Proof.
  induction 1 as [|r rs Hr Hrs IH]; simpl; [constructor|].
  destruct (GeneratorExecutorService.success r) eqn:Hs; [|exact IH].
  destruct (Hr Hs) as (x & Hx & Hc). rewrite Hx.
  destruct x as [|c x]; [exact IH|]. constructor; [exact Hc | exact IH].
Qed.

Section StepGenerate.

Variable env : Supervisor.Env.
Variable b : Supervisor.Bundle.
Variable target_count : Z.

Lemma step_generate_post st0 st w :
  same_core st0 st ->
  post (Supervisor.step_generate env target_count st) w
       (fun f _ => flow_with (same_core st0) (Forall (generated env)) f).
Proof.
  intros H. unfold Supervisor.step_generate.
  apply post_bind.
  eapply post_mono; [apply generate_test_cases_batch_good|].
  intros rs w' Hrs. lazy beta.
  pose proof (generated_inputs_candidates env rs Hrs) as Hc.
  wp_run; core_tac.
Qed.

End StepGenerate.

(** ** Trailing newlines *)

Lemma dropwhile_head {A} (p : A -> bool) (l : list A) :
  match dropwhile p l with
  | [] => True
  | y :: _ => p y = false
  end.
Proof.
  induction l as [|x l IH]; simpl; [exact I|].
  destruct (p x) eqn:Hp; [exact IH | exact Hp].
Qed.

Lemma endswith_snoc c (l : text) : endswith [c] (l ++ [c]) = true.
Proof.
  unfold endswith. rewrite rev_app_distr. simpl.
  now rewrite (proj2 (chr_eqb_eq c c) eq_refl).
Qed.

Lemma rstrip_chr_no_trailing c (s : text) :
  endswith [c] (rstrip_chr c s) = false.
Proof.
  unfold endswith, rstrip_chr. rewrite rev_involutive.
  pose proof (dropwhile_head (chr_eqb c) (rev s)) as H.
  destruct (dropwhile (chr_eqb c) (rev s)) as [|y l]; simpl; [reflexivity|].
  now rewrite H.
Qed.

Lemma rstrip_chr_snoc c (s : text) :
  endswith [c] s = false -> rstrip_chr c (s ++ [c]) = s.
Proof.
  unfold endswith, rstrip_chr. rewrite rev_app_distr. cbn [rev app dropwhile].
  rewrite (proj2 (chr_eqb_eq c c) eq_refl).
  rewrite <- (rev_involutive s) at 3.
  destruct (rev s) as [|y l]; [reflexivity|].
  cbn [startswith dropwhile]. rewrite andb_true_r. now intros ->.
Qed.

(** A candidate of the generator is its own text without the trailing
    newline, followed by that newline. *)
Lemma generated_snoc env x : generated env x -> x = rstrip_chr NL x ++ [NL].
Proof.
  intros (k & exe & args & out & err & _ & _ & ->).
  now rewrite rstrip_chr_snoc by apply rstrip_chr_no_trailing.
Qed.

(** ** The Validator Runner *)

Lemma validate_test_case_verdict env exe x w :
  post (ValidatorExecutorService.validate_test_case
          (Supervisor.validator_process env) exe x) w
       (fun r _ => verdict_for env exe x r).
Proof.
  unfold ValidatorExecutorService.validate_test_case.
  apply post_bind, post_call, post_ret. now exists (length w).
Qed.

Lemma validate_batch_verdicts env exe xs : forall w,
  post (ValidatorExecutorService.validate_test_cases_batch
          (Supervisor.validator_process env) exe xs) w
       (fun rs _ => Forall2 (verdict_for env exe) xs rs).
Proof.
  induction xs as [|x xs IH]; intros w; simpl.
  - apply post_ret. constructor.
  - apply post_bind.
    eapply post_mono; [apply validate_test_case_verdict|].
    intros r w1 Hr. apply post_bind.
    eapply post_mono; [apply IH|].
    intros rs w2 Hrs. apply post_ret. now constructor.
Qed.

Lemma Forall2_zip_pairs {A B} (R : A -> B -> Prop) (P : A -> Prop) xs rs :
  Forall P xs -> Forall2 R xs rs ->
  Forall (fun xr => P (fst xr) /\ R (fst xr) (snd xr)) (zip xs rs).
Proof.
  intros HP HR. revert HP.
  induction HR as [|x r xs rs Hxr HR IH]; intros HP; simpl; [constructor|].
  inversion HP; subst. constructor; [split; assumption | now apply IH].
Qed.

Section StepFilter.

Variable env : Supervisor.Env.
Variable b : Supervisor.Bundle.
Variable target_count : Z.

Lemma verdict_accepts exe x r :
  verdict_for env exe x r ->
  ValidatorExecutorService.valid r = true ->
  accepted env x.
Proof. intros [k ->] Hv. now exists k, exe. Qed.

Lemma filter_candidates_sound exe items : forall acc w,
  Forall (fun xr => generated env (fst xr)
                    /\ verdict_for env (default [] exe) (fst xr) (snd xr)) items ->
  Forall (sound_case env) (Supervisor.accumulated acc) ->
  Forall (sound_case env) (Supervisor.new_valid_cases acc) ->
  post (Supervisor.filter_candidates env b exe items acc) w
       (fun f _ => Forall (sound_case env) (Supervisor.accumulated f)
                   /\ Forall (sound_case env) (Supervisor.new_valid_cases f)).
Proof.
  induction items as [|[x r] items IH]; intros acc w Hitems Hacc Hnew.
  - simpl. apply post_ret. split; assumption.
  - inversion Hitems as [|? ? [Hcand Hver] Hrest]; subst. simpl in Hcand, Hver.
    cbn [Supervisor.filter_candidates].
    destruct (ValidatorExecutorService.valid r) eqn:Hvalid.
    + apply IH; cbn; auto.
      apply Forall_app. split; [exact Hnew|].
      constructor; [|constructor].
      left. split; [exact Hcand | eapply verdict_accepts; eauto].
    + assert (Hrej : rejected env x)
        by (destruct Hver as [k ->]; now exists k, (default [] exe)).
      destruct (contains (T "EOLN") _ || contains (T "Expected") _).
      * assert (Hend : endswith [NL] x = true)
          by (destruct Hcand as (? & ? & ? & out & ? & _ & _ & ->);
              apply endswith_snoc).
        rewrite Hend. cbn [negb].
        destruct (rstrip_chr NL x) as [|c n] eqn:Hn.
        -- apply IH; cbn; auto.
        -- apply post_bind.
           eapply post_mono; [apply validate_test_case_verdict|].
           intros r' w' Hr'. lazy beta in Hr' |- *.
           destruct (ValidatorExecutorService.valid r') eqn:Hvalid'.
           ++ apply IH; cbn; auto.
              apply Forall_app. split; [exact Hacc|].
              constructor; [|constructor].
              right. exists x. rewrite <- Hn.
              split; [exact Hcand|]. split; [exact Hrej|].
              split; [reflexivity|]. rewrite Hn.
              eapply verdict_accepts; eauto.
           ++ apply IH; cbn; auto.
      * apply IH; cbn; auto.
Qed.

Lemma step_diversity_kept st0 st w :
  kept env st0 st ->
  post (Supervisor.step_diversity env b target_count st) w
       (fun f _ => flow_all (kept env st0) f).
Proof.
  intros [Hit Hinv]. unfold Supervisor.step_diversity.
  wp_run; unfold flow_all, kept, loop_inv; st_simpl;
    (split; [assumption | first [assumption | constructor]]).
Qed.

Lemma step_filter_kept generated_inputs st0 st w :
  Forall (generated env) generated_inputs ->
  kept env st0 st ->
  post (Supervisor.step_filter env b target_count generated_inputs st) w
       (fun f _ => flow_all (kept env st0) f).
Proof.
  intros Hgen [Hit Hinv]. unfold Supervisor.step_filter.
  apply post_bind.
  eapply post_mono; [apply validate_batch_verdicts|].
  intros rs w1 Hrs. lazy beta. apply post_bind.
  eapply post_mono.
  { apply filter_candidates_sound.
    - apply (Forall2_zip_pairs _ _ _ _ Hgen Hrs).
    - exact Hinv.
    - constructor. }
  intros f w2 [Hacc Hnew]. lazy beta.
  assert (Hall : Forall (sound_case env)
                   (Supervisor.accumulated f ++ Supervisor.new_valid_cases f))
    by (apply Forall_app; split; assumption).
  wp_run;
    try (apply step_diversity_kept);
    unfold flow_all, kept, loop_inv; st_simpl;
    (split; [assumption | first [assumption | constructor]]).
Qed.

End StepFilter.

(** ** The loop *)

Section Loop.

Variable env : Supervisor.Env.
Variable b : Supervisor.Bundle.
Variable target_count : Z.

Lemma kept_refl st : loop_inv env st -> kept env st st.
Proof. intros H. split; [reflexivity | exact H]. Qed.

Lemma kept_same_core st0 st st' :
  kept env st0 st -> same_core st st' -> kept env st0 st'.
Proof.
  intros [Hit Hinv] [Hit' Hvc]. split; [congruence|].
  unfold loop_inv in *. now rewrite Hvc.
Qed.

Lemma flow_kept_same_core st0 st f :
  kept env st0 st -> flow_all (same_core st) f -> flow_all (kept env st0) f.
Proof. intros Hk. destruct f; simpl; apply kept_same_core, Hk. Qed.

Lemma body_kept st0 st w :
  kept env st0 st ->
  post (Supervisor.body env b target_count st) w
       (fun f _ => flow_all (kept env st0) f).
Proof.
  intros Hk. unfold Supervisor.body.
  apply post_lbind.
  eapply post_mono; [apply (step_generator_frame env b st st), same_core_refl|].
  intros f1 w1 H1. lazy beta in H1.
  pose proof (flow_kept_same_core st0 st f1 Hk H1) as Hk1.
  destruct f1 as [st1|st1|st1]; try exact Hk1. simpl in Hk1.
  apply post_lbind.
  eapply post_mono; [apply (step_validator_frame env b st1 st1), same_core_refl|].
  intros f2 w2 H2. lazy beta in H2.
  pose proof (flow_kept_same_core st0 st1 f2 Hk1 H2) as Hk2.
  destruct f2 as [st2|st2|st2]; try exact Hk2. simpl in Hk2.
  apply post_lbind.
  eapply post_mono; [apply (step_samples_frame env b st2 st2), same_core_refl|].
  intros f3 w3 H3. lazy beta in H3.
  pose proof (flow_kept_same_core st0 st2 f3 Hk2 H3) as Hk3.
  destruct f3 as [st3|st3|st3]; try exact Hk3. simpl in Hk3.
  apply post_lbind.
  eapply post_mono;
    [apply (step_generate_post env target_count st3 st3), same_core_refl|].
  intros f4 w4 H4. lazy beta in H4.
  destruct f4 as [xs|st4|st4]; simpl in H4.
  - apply step_filter_kept; assumption.
  - apply (kept_same_core st0 st3 st4 Hk3 H4).
  - apply (kept_same_core st0 st3 st4 Hk3 H4).
Qed.

Lemma loop_inv_set_iteration i st :
  loop_inv env st -> loop_inv env (Supervisor.set_iteration i st).
Proof. intros H. exact H. Qed.

(** The loop ends within the passes it is given, and what it has
    accumulated then is sound. *)
Lemma loop_post start_time fuel : forall st w,
  loop_inv env st ->
  Supervisor.iteration st <= Supervisor.max_iterations ->
  Supervisor.max_iterations + 1 <= Supervisor.iteration st + fuel ->
  post (Supervisor.loop env b target_count start_time fuel st) w
       (fun r _ => exists st', r = Some st' /\ loop_inv env st').
Proof.
  induction fuel as [|fuel IH]; intros st w Hinv Hle Hfuel.
  - lia.
  - cbn [Supervisor.loop].
    apply post_bind, post_call.
    destruct (Supervisor.timeout_ms <=? _)%Z; [apply post_ret; eauto|].
    destruct (target_count <=? _)%Z; [apply post_ret; eauto|].
    destruct (Supervisor.max_iterations <? _) eqn:Hcap;
      [apply post_ret; eauto|].
    apply Nat.ltb_ge in Hcap. st_simpl.
    apply post_bind.
    eapply post_mono.
    { apply (body_kept (Supervisor.set_iteration (S (Supervisor.iteration st)) st)).
      apply kept_refl, loop_inv_set_iteration, Hinv. }
    intros f w' Hf. lazy beta in Hf.
    destruct f as [st'|st'|st']; simpl in Hf; destruct Hf as [Hit Hinv'];
      st_simpl.
    + apply IH; [exact Hinv' | lia | lia].
    + apply IH; [exact Hinv' | lia | lia].
    + apply post_ret. eauto.
Qed.

Lemma oracle_pass_pairs inputs : forall w,
  post (Supervisor.oracle_pass env b inputs) w
       (fun tcs _ =>
          Forall (fun tc => In (Supervisor.input tc) inputs
                            /\ oracle_pair env b tc
                            /\ Supervisor.output tc <> []) tcs).
Proof.
  induction inputs as [|x inputs IH]; intros w; cbn [Supervisor.oracle_pass].
  - apply post_ret. constructor.
  - unfold CodeExecutor.execute at 1.
    apply post_bind, post_bind, post_call, post_ret. lazy beta.
    apply post_bind.
    eapply post_mono; [apply IH|].
    intros tcs w' Htcs. lazy beta in Htcs. apply post_ret.
    assert (Htl : Forall (fun tc => In (Supervisor.input tc) (x :: inputs)
                            /\ oracle_pair env b tc
                            /\ Supervisor.output tc <> []) tcs).
    { eapply Forall_impl; [exact Htcs|]. intros tc (Hin & Hp & Hne).
      split; [right; exact Hin | split; assumption]. }
    destruct (Supervisor.oracle_process env (length w) (Supervisor.oracle_code b) x)
      as [rc out err| |m] eqn:Hproc; simpl; try exact Htl.
    destruct (CodeExecutor.max_output_size <? _)%Z; simpl; try exact Htl.
    destruct (rc =? 0)%Z eqn:Hrc; simpl; try exact Htl.
    apply Z.eqb_eq in Hrc. subst rc.
    destruct (strip out) as [|c o] eqn:Hs; try exact Htl.
    constructor; [|exact Htl]. simpl.
    split; [now left|]. split; [|discriminate].
    exists (length w), out, err. simpl. now rewrite Hs.
Qed.

(** [generate_test_cases] always ends, by a return or by its
    [ValueError]; what it returns is built from sound accumulated inputs
    and successful oracle runs. *)
Lemma generate_test_cases_post w :
  post (Supervisor.generate_test_cases env b target_count) w
       (fun r _ =>
          exists o, r = Some o /\
            match o with
            | Supervisor.Raised_ValueError => True
            | Supervisor.Returned res =>
                Forall (fun tc => sound_case env (Supervisor.input tc)
                                  /\ oracle_pair env b tc
                                  /\ Supervisor.output tc <> [])
                       (Supervisor.test_cases res)
            end).
Proof.
  unfold Supervisor.generate_test_cases.
  apply post_bind, post_call, post_bind, post_call, post_bind.
  eapply post_mono.
  { apply loop_post.
    - constructor.
    - unfold Supervisor.max_iterations, Supervisor.initial_state. cbn. lia.
    - unfold Supervisor.max_iterations, Supervisor.initial_state. cbn. lia. }
  intros r w' (st & -> & Hinv). lazy beta iota.
  destruct (Supervisor.valid_cases st) as [|x xs] eqn:Hvc.
  - apply post_ret. eexists. split; [reflexivity | exact I].
  - apply post_bind.
    eapply post_mono; [apply oracle_pass_pairs|].
    intros tcs w'' Htcs. lazy beta in Htcs. apply post_ret.
    eexists. split; [reflexivity|]. simpl.
    eapply Forall_impl; [exact Htcs|]. intros tc (Hin & Hp & Hne).
    split; [|split; assumption].
    unfold loop_inv in Hinv. rewrite Hvc in Hinv.
    rewrite Forall_forall in Hinv. apply Hinv.
    apply list_elem_of_In.
    unfold slice_to in Hin.
    destruct (0 <=? target_count)%Z;
      apply list_elem_of_In in Hin; apply list_elem_of_In;
      eapply (subseteq_take _ _ _ Hin).
Qed.

End Loop.

(** ** The entry point *)

Section EntryPoint.

Variable env : Supervisor.Env.
Variable b : Supervisor.Bundle.
Variable target_count : Z.

Lemma loop_unfold start_time fuel st :
  Supervisor.loop env b target_count start_time (S fuel) st
  = bind (call EvTime (Supervisor.time_ms env))
      (fun now =>
         if (Supervisor.timeout_ms <=? now - start_time)%Z then ret (Some st)
         else if (target_count <=? Z.of_nat (length (Supervisor.valid_cases st)))%Z
         then ret (Some st)
         else
           if Supervisor.max_iterations
              <? Supervisor.iteration
                   (Supervisor.set_iteration (S (Supervisor.iteration st)) st)
           then ret (Some (Supervisor.set_iteration (S (Supervisor.iteration st)) st))
           else
             bind (Supervisor.body env b target_count
                     (Supervisor.set_iteration (S (Supervisor.iteration st)) st))
               (fun f =>
                  match f with
                  | Supervisor.Break st' => ret (Some st')
                  | Supervisor.Continue st' | Supervisor.Go st' =>
                      Supervisor.loop env b target_count start_time fuel st'
                  end)).
Proof. reflexivity. Qed.

Lemma generate_test_cases_unfold w :
  Supervisor.generate_test_cases env b target_count w
  = let '(r, w1) :=
      Supervisor.loop env b target_count (loop_start env w)
        (S Supervisor.max_iterations) Supervisor.initial_state (loop_world w) in
    match r with
    | None => (None, w1)
    | Some st =>
        match Supervisor.valid_cases st with
        | [] => (Some Supervisor.Raised_ValueError, w1)
        | _ :: _ =>
            let '(tcs, w2) :=
              Supervisor.oracle_pass env b
                (slice_to target_count (Supervisor.valid_cases st)) w1 in
            (Some (Supervisor.Returned
                     {| Supervisor.test_cases := tcs;
                        Supervisor.total_generated := length tcs;
                        Supervisor.result_generator_code := Supervisor.generator_code st;
                        Supervisor.result_validator_code := Supervisor.validator_code st;
                        Supervisor.result_generator_commands :=
                          Supervisor.generator_commands st;
                        Supervisor.iterations := Supervisor.iteration st |}), w2)
        end
    end.
Proof.
  unfold Supervisor.generate_test_cases, bind, call, ret, loop_start, loop_world.
  destruct (Supervisor.loop _ _ _ _ _ _ _) as [[st|] w1]; [|reflexivity].
  destruct (Supervisor.valid_cases st); [reflexivity|].
  destruct (Supervisor.oracle_pass _ _ _ _); reflexivity.
Qed.

Lemma final_state_sound w :
  exists st, final_state env b target_count w = Some st /\ loop_inv env st.
Proof.
  unfold final_state.
  apply (loop_post env b target_count (loop_start env w)
           (S Supervisor.max_iterations) Supervisor.initial_state (loop_world w)).
  - constructor.
  - unfold Supervisor.max_iterations, Supervisor.initial_state. cbn. lia.
  - unfold Supervisor.max_iterations, Supervisor.initial_state. cbn. lia.
Qed.

Lemma returned_cases w res :
  fst (Supervisor.generate_test_cases env b target_count w)
  = Some (Supervisor.Returned res) ->
  Forall (fun tc => sound_case env (Supervisor.input tc)
                    /\ oracle_pair env b tc
                    /\ Supervisor.output tc <> [])
         (Supervisor.test_cases res).
Proof.
  intros H.
  pose proof (generate_test_cases_post env b target_count w) as Hp.
  unfold post in Hp. destruct Hp as (o & Ho & Hres).
  rewrite Ho in H. injection H as ->. exact Hres.
Qed.

End EntryPoint.

Lemma runner_candidate_one_newline x :
  runner_candidate x -> one_trailing_newline x.
Proof.
  intros (out & _ & ->). exists (rstrip_chr NL out).
  split; [reflexivity | apply rstrip_chr_no_trailing].
Qed.

(** C3 (as amended). Every invocation ends its loop within the iteration
    cap; when the loop ends with no accumulated valid candidate, whether
    the budget elapsed or not, [generate_test_cases] raises its
    [ValueError] and returns no suite; otherwise it returns one. *)
Theorem no_candidates_raises :
  forall env b target_count w,
    exists st,
      final_state env b target_count w = Some st /\
      (Supervisor.valid_cases st = [] ->
       fst (Supervisor.generate_test_cases env b target_count w)
       = Some Supervisor.Raised_ValueError) /\
      (Supervisor.valid_cases st <> [] ->
       exists res,
         fst (Supervisor.generate_test_cases env b target_count w)
         = Some (Supervisor.Returned res)).
Proof.
  intros env b target_count w.
  destruct (final_state_sound env b target_count w) as (st & Hst & _).
  exists st. split; [exact Hst|].
  rewrite generate_test_cases_unfold.
  unfold final_state in Hst.
  destruct (Supervisor.loop _ _ _ _ _ _ _) as [r w1]. simpl in Hst. subst r.
  split.
  - intros ->. reflexivity.
  - intros Hne. destruct (Supervisor.valid_cases st); [congruence|].
    destruct (Supervisor.oracle_pass _ _ _ _) as [tcs w2]. eexists. reflexivity.
Qed.

(** X23. When no validator run of the environment ever accepts an input,
    no candidate is accumulated and the call ends in the [ValueError]. *)
Lemma rejecting_validator_raises env b target_count w :
  (forall k exe x,
     ValidatorExecutorService.valid
       (ValidatorExecutorService.verdict_of
          (Supervisor.validator_process env k exe x)) = false) ->
  fst (Supervisor.generate_test_cases env b target_count w)
  = Some Supervisor.Raised_ValueError.
Proof.
  intros Hrej.
  destruct (final_state_sound env b target_count w) as (st & Hst & Hinv).
  assert (Hnil : Supervisor.valid_cases st = []).
  { unfold loop_inv in Hinv.
    destruct (Supervisor.valid_cases st) as [|x xs]; [reflexivity|].
    inversion Hinv as [|? ? Hsound _]; subst.
    destruct (sound_case_accepted env x Hsound) as (k & exe & Hacc).
    rewrite Hrej in Hacc. discriminate. }
  rewrite generate_test_cases_unfold.
  unfold final_state in Hst.
  destruct (Supervisor.loop _ _ _ _ _ _ _) as [r w1]. simpl in Hst. subst r.
  now rewrite Hnil.
Qed.

(** C7 (as amended). With a target count of zero, [generate_test_cases]
    asks for the clock, for the format inference and for the clock again,
    calls no generator or validator agent, and raises its [ValueError]; it
    returns no suite. *)
Theorem zero_target_raises_without_agents :
  forall env b,
    (forall w,
       Supervisor.generate_test_cases env b 0 w
       = (Some Supervisor.Raised_ValueError,
          EvTime :: EvInferFormat :: EvTime :: w)) /\
    List.filter is_agent_request
      (snd (Supervisor.generate_test_cases env b 0 [])) = [].
Proof.
  intros env b.
  assert (H : forall w,
             Supervisor.generate_test_cases env b 0 w
             = (Some Supervisor.Raised_ValueError,
                EvTime :: EvInferFormat :: EvTime :: w)).
  { intros w. rewrite generate_test_cases_unfold.
    rewrite loop_unfold. unfold bind, call, ret, loop_world.
    destruct (Supervisor.timeout_ms <=? _)%Z; reflexivity. }
  split; [exact H|]. rewrite H. reflexivity.
Qed.

(** C4 (as amended). Every candidate of the Generator Runner ends with
    exactly one trailing newline.  Every input of a returned suite is such
    a candidate, given by a run of the generator: unchanged, and so with
    its one trailing newline, when a validator run accepted it directly;
    or with its trailing newline removed when a validator run rejected it
    and the normalization retry was accepted; in the second case it ends
    with no newline. *)
Theorem returned_inputs_trailing_newline :
  forall env b target_count w res,
    fst (Supervisor.generate_test_cases env b target_count w)
    = Some (Supervisor.Returned res) ->
    (forall p r,
       r = GeneratorExecutorService.candidate_of p ->
       GeneratorExecutorService.success r = true ->
       exists x, GeneratorExecutorService.input_data r = Some x
                 /\ one_trailing_newline x) /\
    Forall (fun tc =>
              (generated env (Supervisor.input tc)
               /\ accepted env (Supervisor.input tc)
               /\ one_trailing_newline (Supervisor.input tc))
              \/ (exists c,
                    generated env c /\ one_trailing_newline c
                    /\ rejected env c
                    /\ c = Supervisor.input tc ++ [NL]
                    /\ accepted env (Supervisor.input tc)
                    /\ no_trailing_newline (Supervisor.input tc)))
           (Supervisor.test_cases res).
Proof.
  intros env b target_count w res H. split.
  - intros p r -> Hs.
    destruct (candidate_of_good p Hs) as (x & Hx & Hc).
    exists x. split; [exact Hx | now apply runner_candidate_one_newline].
  - eapply Forall_impl; [apply (returned_cases env b target_count w res H)|].
    intros tc ([[Hg Ha] | (c & Hg & Hr & Hx & Ha)] & _).
    + left. split; [exact Hg|]. split; [exact Ha|].
      eapply runner_candidate_one_newline, generated_candidate, Hg.
    + right. exists c. split; [exact Hg|].
      split; [eapply runner_candidate_one_newline, generated_candidate, Hg|].
      split; [exact Hr|].
      split; [rewrite Hx; apply (generated_snoc env), Hg|].
      split; [exact Ha|]. rewrite Hx. apply rstrip_chr_no_trailing.
Qed.

(** C5 (as amended). Every test case of a returned suite pairs its input
    with the stdout of an oracle run on that input that exited with status
    0, stripped of whitespace at both ends ([str.strip]); the output is
    never empty. *)
Theorem returned_outputs_are_stripped_oracle_stdout :
  forall env b target_count w res,
    fst (Supervisor.generate_test_cases env b target_count w)
    = Some (Supervisor.Returned res) ->
    Forall (fun tc =>
              (exists k stdout stderr,
                 Supervisor.oracle_process env k (Supervisor.oracle_code b)
                   (Supervisor.input tc) = Exited 0 stdout stderr /\
                 Supervisor.output tc = rstrip (lstrip stdout))
              /\ Supervisor.output tc <> [])
           (Supervisor.test_cases res).
Proof.
  intros env b target_count w res H.
  eapply Forall_impl; [apply (returned_cases env b target_count w res H)|].
  intros tc (_ & Hp & Hne). split; [exact Hp | exact Hne].
Qed.

(** ** The claims on concrete runs *)

(** C3, counterexample.  The wall-clock budget is spent before the first
    iteration and nothing has been accumulated: the call raises, it does
    not return an empty suite. *)
Lemma late_run_raises :
  (exists st, final_state Scenarios.late_env Scenarios.trap_bundle 5 [] = Some st
              /\ Supervisor.valid_cases st = []
              /\ Supervisor.iteration st = 0) /\
  ~ (exists res,
       fst (Supervisor.generate_test_cases
              Scenarios.late_env Scenarios.trap_bundle 5 [])
       = Some (Supervisor.Returned res)).
Proof.
  split.
  - eexists. split; [vm_compute; reflexivity|]. split; reflexivity.
  - intros (res & H). vm_compute in H. discriminate.
Qed.

(** C7, counterexample.  With a target count of zero the call raises; no
    empty suite is returned. *)
Lemma zero_target_run_raises :
  ~ (exists res,
       fst (Supervisor.generate_test_cases
              Scenarios.trap_env Scenarios.trap_bundle 0 [])
       = Some (Supervisor.Returned res)).
Proof. intros (res & H). vm_compute in H. discriminate. Qed.

(** C4, counterexample.  The validator wants no final newline; both
    candidates are accepted through the normalization retry and returned
    without a trailing newline. *)
Lemma retry_returns_input_without_newline :
  fst (Supervisor.generate_test_cases
         Scenarios.strict_eof_env Scenarios.echo_bundle 2 [])
  = Some (Supervisor.Returned Scenarios.strict_eof_suite) /\
  exists tc, In tc (Supervisor.test_cases Scenarios.strict_eof_suite)
             /\ endswith [NL] (Supervisor.input tc) = false.
Proof.
  split; [vm_compute; reflexivity|].
  eexists. split; [left; reflexivity | reflexivity].
Qed.

Lemma returned_inputs_trailing_newline_witness :
  fst (Supervisor.generate_test_cases
         Scenarios.strict_eof_env Scenarios.echo_bundle 2 [])
  = Some (Supervisor.Returned Scenarios.strict_eof_suite) /\
  Forall (fun tc =>
            (generated Scenarios.strict_eof_env (Supervisor.input tc)
             /\ accepted Scenarios.strict_eof_env (Supervisor.input tc)
             /\ one_trailing_newline (Supervisor.input tc))
            \/ (exists c,
                  generated Scenarios.strict_eof_env c
                  /\ one_trailing_newline c
                  /\ rejected Scenarios.strict_eof_env c
                  /\ c = Supervisor.input tc ++ [NL]
                  /\ accepted Scenarios.strict_eof_env (Supervisor.input tc)
                  /\ no_trailing_newline (Supervisor.input tc)))
         (Supervisor.test_cases Scenarios.strict_eof_suite).
Proof.
  assert (H : fst (Supervisor.generate_test_cases
                     Scenarios.strict_eof_env Scenarios.echo_bundle 2 [])
              = Some (Supervisor.Returned Scenarios.strict_eof_suite))
    by (vm_compute; reflexivity).
  split; [exact H|].
  exact (proj2 (returned_inputs_trailing_newline
                  Scenarios.strict_eof_env Scenarios.echo_bundle 2 []
                  Scenarios.strict_eof_suite H)).
Defined.

(** C5, counterexample.  The oracle prints its answer after two blanks;
    the returned output has lost them, so it is not the stdout with only
    its trailing whitespace stripped. *)
Lemma leading_whitespace_is_stripped :
  fst (Supervisor.generate_test_cases
         Scenarios.padded_env Scenarios.padded_bundle 1 [])
  = Some (Supervisor.Returned Scenarios.padded_suite) /\
  exists tc, In tc (Supervisor.test_cases Scenarios.padded_suite) /\
    (forall k, Supervisor.oracle_process Scenarios.padded_env k
                 (Supervisor.oracle_code Scenarios.padded_bundle)
                 (Supervisor.input tc)
               = Exited 0 Scenarios.padded_stdout []) /\
    rstrip Scenarios.padded_stdout = T "  5" /\
    Supervisor.output tc <> rstrip Scenarios.padded_stdout.
Proof.
  split; [vm_compute; reflexivity|].
  eexists. split; [left; reflexivity|].
  split; [intros k; reflexivity|]. split; [reflexivity|].
  vm_compute. discriminate.
Qed.

Lemma returned_outputs_are_stripped_oracle_stdout_witness :
  fst (Supervisor.generate_test_cases
         Scenarios.padded_env Scenarios.padded_bundle 1 [])
  = Some (Supervisor.Returned Scenarios.padded_suite) /\
  Forall (fun tc =>
            (exists k stdout stderr,
               Supervisor.oracle_process Scenarios.padded_env k
                 (Supervisor.oracle_code Scenarios.padded_bundle)
                 (Supervisor.input tc) = Exited 0 stdout stderr /\
               Supervisor.output tc = rstrip (lstrip stdout))
            /\ Supervisor.output tc <> [])
         (Supervisor.test_cases Scenarios.padded_suite).
Proof.
  assert (H : fst (Supervisor.generate_test_cases
                     Scenarios.padded_env Scenarios.padded_bundle 1 [])
              = Some (Supervisor.Returned Scenarios.padded_suite))
    by (vm_compute; reflexivity).
  split; [exact H|].
  exact (returned_outputs_are_stripped_oracle_stdout
           Scenarios.padded_env Scenarios.padded_bundle 1 []
           Scenarios.padded_suite H).
Defined.

(** C9. In the oracle pass, a run that exits with status 0 and whose
    stdout is empty once stripped leaves no pair: the pass goes on with
    the inputs that follow, without an error.  So an input on which every
    oracle run is of that kind never reaches a returned suite, and a suite
    can be shorter than the accumulated candidates it was built from
    although every oracle run succeeded, as in the run given. *)
Theorem empty_oracle_output_dropped :
  (forall env b x inputs w stdout stderr,
     Supervisor.oracle_process env (length w) (Supervisor.oracle_code b) x
     = Exited 0 stdout stderr ->
     strip stdout = [] ->
     Supervisor.oracle_pass env b (x :: inputs) w
     = Supervisor.oracle_pass env b inputs
         (EvRunOracle (Supervisor.oracle_code b) x :: w)) /\
  (forall env b target_count w res x,
     fst (Supervisor.generate_test_cases env b target_count w)
     = Some (Supervisor.Returned res) ->
     (forall k, exists stdout stderr,
        Supervisor.oracle_process env k (Supervisor.oracle_code b) x
        = Exited 0 stdout stderr /\ strip stdout = []) ->
     Forall (fun tc => Supervisor.input tc <> x) (Supervisor.test_cases res)) /\
  (exists env b target_count st res,
     final_state env b target_count [] = Some st /\
     fst (Supervisor.generate_test_cases env b target_count [])
     = Some (Supervisor.Returned res) /\
     (forall k code x, exists stdout stderr,
        Supervisor.oracle_process env k code x = Exited 0 stdout stderr /\
        CodeExecutor.success (CodeExecutor._run_subprocess
                                (Supervisor.oracle_process env k code x)) = true) /\
     length (Supervisor.test_cases res)
     < length (slice_to target_count (Supervisor.valid_cases st))).
Proof.
  split; [|split].
  - intros env b x inputs w stdout stderr Hproc Hstrip.
    cbn [Supervisor.oracle_pass].
    unfold CodeExecutor.execute, bind, call, ret.
    rewrite Hproc.
    destruct (Supervisor.oracle_pass env b inputs _) as [tcs w'].
    unfold CodeExecutor._run_subprocess.
    destruct (CodeExecutor.max_output_size <? _)%Z; [reflexivity|].
    cbn. now rewrite Hstrip.
  - intros env b target_count w res x H Hblank.
    eapply Forall_impl; [apply (returned_cases env b target_count w res H)|].
    intros tc (_ & (k & out & err & Hproc & Hout) & Hne) Heq.
    destruct (Hblank k) as (out' & err' & Hproc' & Hstrip).
    rewrite Heq, Hproc' in Hproc. injection Hproc as -> ->.
    rewrite Hstrip in Hout. contradiction.
  - exists Scenarios.quiet_env, Scenarios.quiet_bundle, 2%Z.
    eexists. exists Scenarios.quiet_suite.
    split; [vm_compute; reflexivity|].
    split; [vm_compute; reflexivity|].
    split; [|vm_compute; lia].
    intros k code x. unfold Scenarios.quiet_env, Scenarios.base_env. simpl.
    unfold Scenarios.quiet_oracle.
    destruct (text_eqb x _); do 2 eexists; split; reflexivity.
Qed.

Lemma empty_oracle_output_dropped_witness :
  (forall k, exists stdout stderr,
     Supervisor.oracle_process Scenarios.quiet_env k
       (Supervisor.oracle_code Scenarios.quiet_bundle) (T "1" ++ [NL])
     = Exited 0 stdout stderr /\ strip stdout = []) /\
  Forall (fun tc => Supervisor.input tc <> T "1" ++ [NL])
         (Supervisor.test_cases Scenarios.quiet_suite).
Proof.
  assert (Hb : forall k, exists stdout stderr,
             Supervisor.oracle_process Scenarios.quiet_env k
               (Supervisor.oracle_code Scenarios.quiet_bundle) (T "1" ++ [NL])
             = Exited 0 stdout stderr /\ strip stdout = [])
    by (intros k; exists [NL], []; split; reflexivity).
  split; [exact Hb|].
  assert (H : fst (Supervisor.generate_test_cases
                     Scenarios.quiet_env Scenarios.quiet_bundle 2 [])
              = Some (Supervisor.Returned Scenarios.quiet_suite))
    by (vm_compute; reflexivity).
  exact (proj1 (proj2 empty_oracle_output_dropped)
           Scenarios.quiet_env Scenarios.quiet_bundle 2%Z []
           Scenarios.quiet_suite (T "1" ++ [NL]) H Hb).
Defined.

Lemma no_candidates_raises_witness :
  fst (Supervisor.generate_test_cases
         Scenarios.late_env Scenarios.trap_bundle 5 [])
  = Some Supervisor.Raised_ValueError.
Proof.
  destruct (no_candidates_raises Scenarios.late_env Scenarios.trap_bundle 5 [])
    as (st & Hst & Hnil & _).
  apply Hnil. vm_compute in Hst. injection Hst as <-. reflexivity.
Defined.

(** C1, the failing run.  The oracle answers YES whatever the input; both
    candidates of the first iteration are valid, the target of two is
    reached, the loop ends at its next pass and the suite is returned with
    two entries and one distinct output.  The generator is never revised. *)
Theorem trap_returns_uniform_suite :
  fst (Supervisor.generate_test_cases
         Scenarios.trap_env Scenarios.trap_bundle 2 [])
  = Some (Supervisor.Returned Scenarios.trap_suite) /\
  length (Supervisor.test_cases Scenarios.trap_suite) = 2 /\
  size (Supervisor.unique_outputs
          (Supervisor.test_cases Scenarios.trap_suite)) = 1 /\
  List.filter Scenarios.revises_generator
    (snd (Supervisor.generate_test_cases
            Scenarios.trap_env Scenarios.trap_bundle 2 [])) = [].
Proof. repeat split; vm_compute; reflexivity. Qed.

(** The diversity check of the loop body, where the loop reaches it: one
    distinct stripped output empties the accumulator, leaves the
    insufficient-diversity log and continues with the next iteration, which
    revises the generator; more than one ends the loop. *)
Lemma diversity_check_when_reached env b target_count st w tcs w' :
  (target_count <=? Z.of_nat (length (Supervisor.valid_cases st)))%Z = true ->
  Supervisor.oracle_pass env b
    (slice_to target_count (Supervisor.valid_cases st)) w = (tcs, w') ->
  tcs <> [] ->
  (size (Supervisor.unique_outputs tcs) = 1 ->
   exists st',
     Supervisor.step_diversity env b target_count st w
     = (Supervisor.Continue st', w') /\
     Supervisor.valid_cases st' = [] /\
     exists repeated,
       Supervisor.validation_errors st'
       = [Supervisor.InsufficientDiversity (length tcs) repeated]) /\
  (size (Supervisor.unique_outputs tcs) <> 1 ->
   Supervisor.step_diversity env b target_count st w
   = (Supervisor.Break st, w')).
Proof.
  intros Hreach Hpass Hne.
  unfold Supervisor.step_diversity, bind, ret,
    Supervisor.continue_, Supervisor.break_.
  rewrite Hreach, Hpass.
  destruct tcs as [|tc tcs]; [congruence|].
  split.
  - intros ->. simpl. eexists. split; [reflexivity|].
    split; [reflexivity|]. eexists. reflexivity.
  - intros Hsize. apply Nat.eqb_neq in Hsize. now rewrite Hsize.
Qed.

(** The diversity check of the loop body does fire when it is reached:
    with every candidate accepted through the retry only, the two
    identical outputs empty the accumulator, the oracle having run twice,
    and the call ends in the [ValueError]. *)
Lemma retry_trap_is_rejected :
  fst (Supervisor.generate_test_cases
         Scenarios.retry_trap_env Scenarios.trap_bundle 2 [])
  = Some Supervisor.Raised_ValueError /\
  length (List.filter Scenarios.runs_oracle
            (snd (Supervisor.generate_test_cases
                    Scenarios.retry_trap_env Scenarios.trap_bundle 2 []))) = 2.
Proof. split; vm_compute; reflexivity. Qed.

(** C2, the failing run.  The validator crashes on the worked example in
    every iteration.  Without a minimal-validator builder, as in
    [ValidatorAgentService], the supervisor asks for it in each of the 98
    iterations from the third on and goes on revising; with a builder
    whose validator crashes like every other, it compiles the minimal
    validator 98 times and goes on revising it.  Either way the generator
    is never run and the call ends in the [ValueError]. *)
Theorem crashing_validator_never_proceeds :
  (fst (Supervisor.generate_test_cases
          (Scenarios.crashing_env None) Scenarios.sum_bundle 1 [])
   = Some Supervisor.Raised_ValueError /\
   length (List.filter Scenarios.asks_minimal
             (snd (Supervisor.generate_test_cases
                     (Scenarios.crashing_env None) Scenarios.sum_bundle 1 []))) = 98 /\
   List.filter Scenarios.runs_generator
     (snd (Supervisor.generate_test_cases
             (Scenarios.crashing_env None) Scenarios.sum_bundle 1 [])) = []) /\
  (fst (Supervisor.generate_test_cases
          (Scenarios.crashing_env (Some (T "minimal.cpp"))) Scenarios.sum_bundle 1 [])
   = Some Supervisor.Raised_ValueError /\
   length (List.filter (Scenarios.compiles_validator (T "minimal.cpp"))
             (snd (Supervisor.generate_test_cases
                     (Scenarios.crashing_env (Some (T "minimal.cpp")))
                     Scenarios.sum_bundle 1 []))) = 98 /\
   List.filter Scenarios.runs_generator
     (snd (Supervisor.generate_test_cases
             (Scenarios.crashing_env (Some (T "minimal.cpp")))
             Scenarios.sum_bundle 1 [])) = []).
Proof. repeat split; vm_compute; reflexivity. Qed.

(** C6, the failing reply.  The generator declares the option [n] alone
    and lists a command with the flag [m]; [generate_generator_program]
    returns both commands, although [_validate_commands], which it never
    calls, would keep the first only.  A revision never returns. *)
Theorem undeclared_flag_is_returned :
  forall later_attempts,
    exists code commands,
      GeneratorAgentService.generate_generator_program later_attempts
        (Some Scenarios.reply_with_undeclared_flag) = Some (code, commands) /\
      commands = [T "./gen -n 5"; T "./gen -n 5 -m 3"] /\
      elements (GeneratorAgentService._extract_opt_params code) = [T "n"] /\
      elements (GeneratorAgentService.cmd_params (T "./gen -n 5 -m 3")
                ∖ GeneratorAgentService._extract_opt_params code) = [T "m"] /\
      GeneratorAgentService._validate_commands code commands = [T "./gen -n 5"] /\
      forall response, GeneratorAgentService.revise_generator_program response = None.
Proof.
  intros later_attempts. do 2 eexists.
  split; [vm_compute; reflexivity|].
  split; [reflexivity|].
  split; [vm_compute; reflexivity|].
  split; [vm_compute; reflexivity|].
  split; [vm_compute; reflexivity|].
  intros [response|]; [|reflexivity].
  unfold GeneratorAgentService.revise_generator_program.
  destruct (CodeExtractionService._extract_code_strict response); reflexivity.
Qed.

(** With generator revisions that fail, as all those of
    [GeneratorAgentService] do, no iteration after the first reaches the
    validator: the minimal validator is not even asked for. *)
Lemma failed_revisions_never_ask_for_minimal :
  fst (Supervisor.generate_test_cases
         Scenarios.crashing_source_env Scenarios.sum_bundle 1 [])
  = Some Supervisor.Raised_ValueError /\
  List.filter Scenarios.asks_minimal
    (snd (Supervisor.generate_test_cases
            Scenarios.crashing_source_env Scenarios.sum_bundle 1 [])) = [] /\
  length (List.filter Scenarios.revises_generator
            (snd (Supervisor.generate_test_cases
                    Scenarios.crashing_source_env Scenarios.sum_bundle 1 []))) = 99.
Proof. repeat split; vm_compute; reflexivity. Qed.

(** What [_validate_commands] keeps of the commands it is given mentions
    declared options only. *)
Lemma kept_commands_mention_declared_options code commands cmd :
  In cmd (filter (fun cmd => GeneratorAgentService.cmd_params cmd
                             ∖ GeneratorAgentService._extract_opt_params code = ∅)
                 commands) ->
  GeneratorAgentService.cmd_params cmd
  ⊆ GeneratorAgentService._extract_opt_params code.
Proof.
  intros Hin. apply list_elem_of_In, list_elem_of_filter in Hin as [Hempty _].
  intros x Hx.
  destruct (decide (x ∈ GeneratorAgentService._extract_opt_params code)) as [|Hn];
    [assumption|].
  assert (Hd : x ∈ GeneratorAgentService.cmd_params cmd
                   ∖ GeneratorAgentService._extract_opt_params code)
    by (apply elem_of_difference; split; assumption).
  rewrite Hempty in Hd. now apply not_elem_of_empty in Hd.
Qed.

(** [calculate_seed] reads at most eight hexadecimal digits: its value,
    when it has one, is below 2^32. *)
Lemma hex_value_bound s : forall acc z,
  (0 <= acc)%Z ->
  GeneratorExecutorService.hex_value acc s = Some z ->
  (0 <= z < (acc + 1) * 16 ^ Z.of_nat (length s))%Z.
Proof.
  induction s as [|c s IH]; intros acc z Hacc H.
  - injection H as <-. cbn. lia.
  - cbn [GeneratorExecutorService.hex_value] in H.
    destruct (GeneratorExecutorService.hex_digit c) as [d|] eqn:Hd; [|discriminate].
    assert (Hdr : (0 <= d < 16)%Z).
    { unfold GeneratorExecutorService.hex_digit in Hd.
      repeat match type of Hd with
             | (if ?c then _ else _) = _ => destruct c eqn:?
             end; try discriminate; injection Hd as <-;
        repeat match goal with
               | H : (_ && _) = true |- _ => apply andb_prop in H as [? ?]
               | H : (_ <=? _) = true |- _ => apply Nat.leb_le in H
               end; lia. }
    apply IH in H; [|lia].
    replace (Z.of_nat (length (c :: s))) with (1 + Z.of_nat (length s))%Z
      by (cbn [length]; lia).
    rewrite Z.pow_add_r by lia.
    change (16 ^ 1)%Z with 16%Z. nia.
Qed.

Lemma calculate_seed_range md5_hexdigest command z :
  GeneratorExecutorService.calculate_seed md5_hexdigest command = Some z ->
  (0 <= z < 2 ^ 32)%Z.
Proof.
  unfold GeneratorExecutorService.calculate_seed. intros H.
  assert (Hlen : length (take 8 (md5_hexdigest command)) <= 8)
    by (rewrite length_take; lia).
  destruct (take 8 (md5_hexdigest command)) as [|c s] eqn:Ht; [discriminate|].
  apply hex_value_bound in H; [|lia].
  assert (Hpow : (16 ^ Z.of_nat (length (c :: s)) <= 16 ^ 8)%Z)
    by (apply Z.pow_le_mono_r; lia).
  change (2 ^ 32)%Z with (16 ^ 8)%Z. lia.
Qed.

(** Two runs of the Generator Runner on commands with the same arguments
    return the same result whenever the executable behaves the same in
    both. *)
Lemma runner_repeats_with_the_executable :
  forall proc exe c1 c2 w1 w2,
    GeneratorExecutorService.command_args c1
    = GeneratorExecutorService.command_args c2 ->
    (forall args, proc (length w1) exe args = proc (length w2) exe args) ->
    fst (GeneratorExecutorService.generate_test_case proc exe c1 w1)
    = fst (GeneratorExecutorService.generate_test_case proc exe c2 w2) /\
    (forall args,
       GeneratorExecutorService.command_args c1 = Some args ->
       snd (GeneratorExecutorService.generate_test_case proc exe c1 w1)
       = EvRunGenerator exe args :: w1).
Proof.
  intros proc exe c1 c2 w1 w2 Hargs Hproc.
  unfold GeneratorExecutorService.generate_test_case.
  rewrite <- Hargs.
  destruct (GeneratorExecutorService.command_args c1) as [args|].
  - unfold bind, call, ret. simpl. rewrite Hproc.
    split; [reflexivity|]. intros args' [= <-]. reflexivity.
  - split; [reflexivity|]. intros args' [=].
Qed.

Lemma runner_repeats_with_the_executable_witness :
  fst (GeneratorExecutorService.generate_test_case
         Scenarios.stable_generator (T "/tmp/gen") (T "./gen -n 5") [])
  = fst (GeneratorExecutorService.generate_test_case
           Scenarios.stable_generator (T "/tmp/gen") (T "gen  -n 5")
           [EvRunGenerator (T "/tmp/gen") [T "-n"; T "5"]]).
Proof.
  apply (runner_repeats_with_the_executable
           Scenarios.stable_generator (T "/tmp/gen")
           (T "./gen -n 5") (T "gen  -n 5")
           [] [EvRunGenerator (T "/tmp/gen") [T "-n"; T "5"]]).
  - vm_compute. reflexivity.
  - intros args. reflexivity.
Defined.

(* ================================================================== *)
(** * Further properties of the services *)

(** ** Stripping *)

Lemma dropwhile_fixed {A} (p : A -> bool) (l : list A) :
  match l with [] => True | x :: _ => p x = false end ->
  dropwhile p l = l.
Proof. destruct l as [|x l]; simpl; [reflexivity|]. now intros ->. Qed.

Lemma dropwhile_idem {A} (p : A -> bool) (l : list A) :
  dropwhile p (dropwhile p l) = dropwhile p l.
Proof. apply dropwhile_fixed, dropwhile_head. Qed.

Lemma dropwhile_split {A} (p : A -> bool) (l : list A) :
  exists pre, l = pre ++ dropwhile p l /\ forallb p pre = true.
Proof.
  induction l as [|x l (pre & Hl & Hp)]; simpl; [now exists []|].
  destruct (p x) eqn:Hx.
  - exists (x :: pre). split; [simpl; congruence | simpl; now rewrite Hx].
  - now exists [].
Qed.

Lemma strip_edges s :
  match strip s with
  | [] => True
  | c :: _ => isspace c = false
  end /\
  match rev (strip s) with
  | [] => True
  | c :: _ => isspace c = false
  end.
Proof.
  unfold strip, rstrip, lstrip. rewrite rev_involutive.
  set (a := dropwhile isspace s).
  split; [|apply dropwhile_head].
  destruct (dropwhile_split isspace (rev a)) as (pre & Ha & Hpre).
  set (b := dropwhile isspace (rev a)) in *.
  assert (Ha' : a = rev b ++ rev pre).
  { rewrite <- (rev_involutive a), Ha, rev_app_distr. reflexivity. }
  pose proof (dropwhile_head isspace s) as Hh. fold a in Hh.
  destruct (rev b) as [|c r] eqn:Hr; [exact I|].
  rewrite Ha' in Hh. exact Hh.
Qed.

Lemma strip_idempotent s : strip (strip s) = strip s.
Proof.
  destruct (strip_edges s) as [Hh Ht].
  unfold strip at 1. unfold rstrip, lstrip.
  rewrite (dropwhile_fixed isspace (strip s) Hh).
  rewrite (dropwhile_fixed isspace (rev (strip s)) Ht).
  apply rev_involutive.
Qed.

(** ** Prefixes, occurrences and splitting *)

Lemma strip_prefix_spec p : forall s r,
  strip_prefix p s = Some r <-> s = p ++ r.
Proof.
  induction p as [|x p IH]; intros s r; simpl.
  - split; [now intros [= ->] | now intros ->].
  - destruct s as [|y s]; [split; discriminate|].
    destruct (chr_eqb x y) eqn:E.
    + apply chr_eqb_eq in E as ->. rewrite IH.
      split; [now intros -> | now intros [= ->]].
    + apply chr_eqb_neq in E. split; [discriminate | intros [= -> _]; congruence].
Qed.

Lemma startswith_spec p : forall s,
  startswith p s = true <-> exists r, s = p ++ r.
Proof.
  induction p as [|x p IH]; intros s; simpl.
  - split; [eauto | reflexivity].
  - destruct s as [|y s]; [split; [discriminate | now intros (r & [=])]|].
    rewrite andb_true_iff, chr_eqb_eq, IH. split.
    + intros (-> & r & ->). eauto.
    + intros (r & [= -> ->]). eauto.
Qed.

Lemma contains_spec sub : forall s,
  contains sub s = true <-> exists a b, s = a ++ sub ++ b.
Proof.
  induction s as [|c s IH]; cbn [contains].
  - rewrite orb_false_r, startswith_spec. split.
    + intros (r & H). now exists [], r.
    + intros (a & b & H). destruct a; [eauto|discriminate].
  - rewrite orb_true_iff, startswith_spec, IH. split.
    + intros [(r & H) | (a & b & ->)]; [now exists [], r | now exists (c :: a), b].
    + intros (a & b & H). destruct a as [|x a]; [left; eauto|].
      right. injection H as -> ->. eauto.
Qed.

Lemma contains_infix sub a s b :
  contains sub (a ++ s ++ b) = false -> contains sub s = false.
Proof.
  intros H. destruct (contains sub s) eqn:E; [|reflexivity].
  apply contains_spec in E as (x & y & ->).
  assert (contains sub (a ++ (x ++ sub ++ y) ++ b) = true); [|congruence].
  apply contains_spec. exists (a ++ x), (y ++ b).
  now rewrite <- !app_assoc.
Qed.

Lemma split_first_app pat : forall s a b,
  CodeExtractionService.split_first pat s = Some (a, b) -> s = a ++ pat ++ b.
Proof.
  induction s as [|c s IH]; intros a b; cbn [CodeExtractionService.split_first].
  - destruct (strip_prefix pat []) eqn:E; [|discriminate].
    intros [= <- <-]. now apply strip_prefix_spec in E.
  - destruct (strip_prefix pat (c :: s)) eqn:E.
    + intros [= <- <-]. now apply strip_prefix_spec in E.
    + destruct (CodeExtractionService.split_first pat s) as [[x y]|] eqn:E';
        [|discriminate].
      intros [= <- <-]. now rewrite (IH _ _ eq_refl).
Qed.

Lemma split_first_before pat : pat <> [] -> forall s a b,
  CodeExtractionService.split_first pat s = Some (a, b) -> contains pat a = false.
Proof.
  intros Hpat.
  assert (Hnil : contains pat [] = false) by (destruct pat; [congruence | reflexivity]).
  induction s as [|c s IH]; intros a b; cbn [CodeExtractionService.split_first].
  - destruct (strip_prefix pat []) eqn:E; [|discriminate].
    now intros [= <- <-].
  - destruct (strip_prefix pat (c :: s)) eqn:E; [now intros [= <- <-]|].
    destruct (CodeExtractionService.split_first pat s) as [[x y]|] eqn:E';
      [|discriminate].
    intros [= <- <-]. cbn [contains]. rewrite (IH _ _ eq_refl), orb_false_r.
    destruct (startswith pat (c :: x)) eqn:Es; [|reflexivity].
    apply startswith_spec in Es as (r & Hr).
    apply split_first_app in E'.
    assert (Some (r ++ pat ++ y) = None); [|discriminate].
    rewrite <- E. symmetry. apply strip_prefix_spec.
    rewrite E', app_comm_cons, Hr. now rewrite <- app_assoc.
Qed.

Lemma split_first_none pat : forall s,
  CodeExtractionService.split_first pat s = None -> contains pat s = false.
Proof.
  induction s as [|c s IH]; cbn [CodeExtractionService.split_first contains].
  - destruct (strip_prefix pat []) eqn:E; [discriminate|]. intros _.
    rewrite orb_false_r. destruct (startswith pat []) eqn:Es; [|reflexivity].
    apply startswith_spec in Es as (r & Hr).
    apply strip_prefix_spec in Hr. congruence.
  - destruct (strip_prefix pat (c :: s)) eqn:E; [discriminate|].
    destruct (CodeExtractionService.split_first pat s) as [[x y]|] eqn:E';
      [discriminate|].
    intros _. rewrite (IH eq_refl), orb_false_r.
    destruct (startswith pat (c :: s)) eqn:Es; [|reflexivity].
    apply startswith_spec in Es as (r & Hr).
    apply strip_prefix_spec in Hr. congruence.
Qed.

Lemma strip_infix s : exists a b, s = a ++ strip s ++ b.
Proof.
  unfold strip, rstrip, lstrip.
  destruct (dropwhile_split isspace s) as (a & Ha & _).
  destruct (dropwhile_split isspace (rev (dropwhile isspace s))) as (b & Hb & _).
  exists a, (rev b). rewrite Ha at 1. f_equal.
  rewrite <- (rev_involutive (dropwhile isspace s)), Hb at 1.
  now rewrite rev_app_distr.
Qed.

Lemma contains_strip sub s : contains sub s = false -> contains sub (strip s) = false.
Proof.
  intros H. destruct (strip_infix s) as (a & b & E).
  rewrite E in H. now apply contains_infix in H.
Qed.

(** ** Lines *)

Lemma split_chr_nonempty c s : split_chr c s <> [].
Proof.
  destruct s as [|x s]; simpl; [discriminate|].
  destruct (chr_eqb x c); [discriminate|]. destruct (split_chr c s); discriminate.
Qed.

Lemma join_cons sep p q qs : join sep (p :: q :: qs) = p ++ sep ++ join sep (q :: qs).
Proof. reflexivity. Qed.

Lemma join_split_chr c s : join [c] (split_chr c s) = s.
Proof.
  induction s as [|x s IH]; [reflexivity|]. cbn [split_chr].
  pose proof (split_chr_nonempty c s) as Hne.
  destruct (chr_eqb x c) eqn:E.
  - apply chr_eqb_eq in E as ->.
    destruct (split_chr c s) as [|w ws]; [congruence|].
    rewrite join_cons, IH. reflexivity.
  - destruct (split_chr c s) as [|w ws]; [congruence|].
    destruct ws as [|w' ws]; [simpl in *; congruence|].
    rewrite join_cons. rewrite join_cons in IH. rewrite <- IH. reflexivity.
Qed.

Lemma split_chr_free c s : Forall (fun p => ~ In c p) (split_chr c s).
Proof.
  induction s as [|x s IH]; simpl; [constructor; [tauto | constructor]|].
  destruct (chr_eqb x c) eqn:E; [constructor; [tauto | exact IH]|].
  apply chr_eqb_neq in E.
  destruct (split_chr c s) as [|w ws]; [constructor; [|constructor]|].
  - simpl. intros [|[]]. congruence.
  - inversion IH; subst. constructor; [|assumption].
    simpl. intros [|]; [congruence | tauto].
Qed.

Lemma split_chr_single c p : ~ In c p -> split_chr c p = [p].
Proof.
  induction p as [|x p IH]; intros H; [reflexivity|]. simpl.
  destruct (chr_eqb x c) eqn:E; [apply chr_eqb_eq in E; subst; simpl in H; tauto|].
  rewrite IH by (simpl in H; tauto). reflexivity.
Qed.

Lemma split_chr_app c p rest :
  ~ In c p -> split_chr c (p ++ c :: rest) = p :: split_chr c rest.
Proof.
  induction p as [|x p IH]; intros H; simpl.
  - assert (E : chr_eqb c c = true) by now apply chr_eqb_eq. now rewrite E.
  - destruct (chr_eqb x c) eqn:E; [apply chr_eqb_eq in E; subst; simpl in H; tauto|].
    rewrite IH by (simpl in H; tauto). reflexivity.
Qed.

Lemma split_chr_join c parts :
  parts <> [] -> Forall (fun p => ~ In c p) parts ->
  split_chr c (join [c] parts) = parts.
Proof.
  induction parts as [|p ps IH]; [congruence|]. intros _ H.
  inversion H as [|? ? Hp Hps]; subst.
  destruct ps as [|q qs]; [now apply split_chr_single|].
  rewrite join_cons. simpl ([c] ++ _).
  rewrite split_chr_app by assumption. f_equal. now apply IH.
Qed.

Lemma split_chr_length c s : length (split_chr c s) = S (count_chr c s).
Proof.
  induction s as [|x s IH]; [reflexivity|].
  rewrite count_chr_cons. cbn [split_chr].
  destruct (chr_eqb x c) eqn:E; [simpl; now rewrite IH|].
  pose proof (split_chr_nonempty c s).
  destruct (split_chr c s); [congruence|]. simpl in *. lia.
Qed.

(** ** Code extraction *)

Lemma contains_absent_split pat s :
  contains pat s = false -> CodeExtractionService.split_first pat s = None.
Proof.
  intros H. destruct (CodeExtractionService.split_first pat s) as [[a b]|] eqn:E;
    [|reflexivity].
  apply split_first_app in E.
  assert (contains pat s = true) by (apply contains_spec; eauto). congruence.
Qed.

Lemma strip_free c s : ~ In c s -> ~ In c (strip s).
Proof.
  intros H Hin. destruct (strip_infix s) as (a & b & E).
  apply H. rewrite E, !in_app_iff. tauto.
Qed.

Lemma gen_lines_shape block :
  Forall (fun cmd => startswith (T "./gen") cmd = true
                     /\ strip cmd = cmd /\ ~ In NL cmd)
         (CodeExtractionService.gen_lines block).
Proof.
  apply Forall_forall. intros cmd Hin.
  unfold CodeExtractionService.gen_lines in Hin.
  apply list_elem_of_filter in Hin as [Hs Hin].
  apply list_elem_of_In, in_map_iff in Hin as (line & <- & Hline).
  split; [exact Hs|]. split; [apply strip_idempotent|].
  apply strip_free.
  pose proof (split_chr_free NL block) as Hf.
  rewrite List.Forall_forall in Hf. now apply Hf.
Qed.

(** X1. The code [_extract_code_strict] returns has no whitespace at
    either end and does not contain the closing marker; when it is not
    empty, it is the stripped text between the first opening marker of the
    response and the first closing marker after it. *)
Theorem strict_code_between_markers :
  forall response,
    let code := CodeExtractionService._extract_code_strict response in
    strip code = code /\
    contains (T "<<ENDCODE>>") code = false /\
    (code <> [] ->
     exists before body after,
       response = before ++ T "<<CODE>>" ++ body ++ T "<<ENDCODE>>" ++ after /\
       contains (T "<<CODE>>") before = false /\
       contains (T "<<ENDCODE>>") body = false /\
       code = strip body).
Proof.
  intros response. unfold CodeExtractionService._extract_code_strict.
  destruct (CodeExtractionService.split_first (T "<<CODE>>") response)
    as [[before rest]|] eqn:E1;
    [|cbv zeta; repeat split; congruence].
  destruct (CodeExtractionService.split_first (T "<<ENDCODE>>") rest)
    as [[body after]|] eqn:E2;
    [|cbv zeta; repeat split; congruence].
  cbv zeta.
  assert (Hb : contains (T "<<ENDCODE>>") body = false)
    by (eapply split_first_before; [discriminate | exact E2]).
  split; [apply strip_idempotent|].
  split; [now apply contains_strip|].
  intros _. exists before, body, after.
  apply split_first_app in E2 as ->.
  split; [now apply split_first_app in E1|].
  split; [eapply split_first_before; [discriminate | exact E1]|].
  split; [exact Hb | reflexivity].
Qed.

Lemma strict_code_between_markers_witness :
  CodeExtractionService._extract_code_strict
    (T "ok <<CODE>> int x; <<ENDCODE>> bye") = T "int x;" /\
  exists before body after,
    T "ok <<CODE>> int x; <<ENDCODE>> bye"
    = before ++ T "<<CODE>>" ++ body ++ T "<<ENDCODE>>" ++ after /\
    contains (T "<<CODE>>") before = false /\
    contains (T "<<ENDCODE>>") body = false /\
    CodeExtractionService._extract_code_strict
      (T "ok <<CODE>> int x; <<ENDCODE>> bye") = strip body.
Proof.
  split; [vm_compute; reflexivity|].
  apply (strict_code_between_markers (T "ok <<CODE>> int x; <<ENDCODE>> bye")).
  vm_compute. discriminate.
Defined.

(** X2. Every command [extract_commands] returns starts with [./gen],
    has no whitespace at either end and holds no newline. *)
Theorem extracted_commands_are_gen_lines :
  forall code,
    Forall (fun cmd => startswith (T "./gen") cmd = true
                       /\ strip cmd = cmd /\ ~ In NL cmd)
           (CodeExtractionService.extract_commands code).
Proof.
  intros code. unfold CodeExtractionService.extract_commands.
  destruct (CodeExtractionService.search_commands_block code) as [group|].
  - destruct (CodeExtractionService.gen_lines (strip group)) eqn:E;
      [apply gen_lines_shape | rewrite <- E; apply gen_lines_shape].
  - apply gen_lines_shape.
Qed.

Lemma join_tail_infix c first others :
  exists a, join [c] (first :: others) = a ++ join [c] others.
Proof.
  destruct others as [|q qs]; [exists first; simpl; now rewrite app_nil_r|].
  exists (first ++ [c]). rewrite join_cons. now rewrite <- app_assoc.
Qed.

(** X3. The code [_extract_code_markdown] returns is empty or has at least
    three lines; it has no whitespace at either end and holds no fence.
    Without the opening marker in the response it is empty. *)
Theorem markdown_code_shape :
  forall response language,
    let code := CodeExtractionService._extract_code_markdown response language in
    (code = [] \/ 3 <= length (split_chr NL code)) /\
    strip code = code /\
    contains CodeExtractionService.FENCE code = false /\
    (contains (CodeExtractionService.FENCE ++ language) response = false ->
     code = []).
Proof.
  intros response language. cbv zeta.
  unfold CodeExtractionService._extract_code_markdown.
  destruct (CodeExtractionService.split_first
              (CodeExtractionService.FENCE ++ language) response)
    as [[before rest]|] eqn:E1.
  2:{ repeat split; auto. }
  set (part := strip (CodeExtractionService.up_to CodeExtractionService.FENCE
                        (CodeExtractionService.up_to
                           (CodeExtractionService.FENCE ++ language) rest))).
  assert (Hpart : contains CodeExtractionService.FENCE part = false).
  { apply contains_strip. unfold CodeExtractionService.up_to at 1.
    destruct (CodeExtractionService.split_first CodeExtractionService.FENCE _)
      as [[x y]|] eqn:E2.
    - eapply split_first_before; [discriminate | exact E2].
    - now apply split_first_none. }
  assert (Hstrip : strip part = part) by apply strip_idempotent.
  set (code := match split_chr NL part with
               | [] => part
               | first :: others => _
               end).
  assert (Hcode : strip code = code
                  /\ contains CodeExtractionService.FENCE code = false).
  { subst code. pose proof (join_split_chr NL part) as Hj.
    destruct (split_chr NL part) as [|first others]; [now split|].
    match goal with |- context [if ?c then _ else _] => destruct c end;
      [|now split].
    split; [apply strip_idempotent|].
    apply contains_strip.
    destruct (join_tail_infix NL first others) as (a & Ha).
    rewrite Ha in Hj. rewrite <- Hj in Hpart.
    apply (contains_infix _ a _ []). now rewrite app_nil_r. }
  destruct Hcode as [Hc1 Hc2].
  destruct (length (split_chr NL code) <? 3) eqn:El.
  - repeat split; auto.
  - apply Nat.ltb_ge in El. repeat split; auto.
    intros Habs. apply contains_absent_split in Habs. congruence.
Qed.

(** ** Incomplete returns *)

Lemma lstrip_spaces n s :
  match s with [] => True | c :: _ => isspace c = false end ->
  lstrip (repeat (ascii_of_nat 32) n ++ s) = s.
Proof.
  intros H. unfold lstrip. induction n as [|n IH]; simpl.
  - now apply dropwhile_fixed.
  - exact IH.
Qed.

Lemma strip_completed_return line : strip (completed_return line) = T "return 0;".
Proof.
  unfold strip, completed_return. rewrite lstrip_spaces; reflexivity.
Qed.

Lemma completed_return_done line : incomplete_return (completed_return line) = false.
Proof. unfold incomplete_return. now rewrite strip_completed_return. Qed.

Lemma completed_return_open line : closes_block (completed_return line) = false.
Proof. unfold closes_block. now rewrite strip_completed_return. Qed.

Lemma completed_return_free line : ~ In NL (completed_return line).
Proof.
  unfold completed_return. rewrite in_app_iff. intros [H|H].
  - apply repeat_spec in H. discriminate.
  - vm_compute in H. repeat destruct H as [H|H]; try discriminate; exact H.
Qed.

Lemma text_eqb_eq a : forall b, text_eqb a b = true <-> a = b.
Proof.
  induction a as [|x a IH]; intros [|y b]; simpl; try (split; congruence).
  rewrite andb_true_iff, chr_eqb_eq, IH. split; [now intros [-> ->] | now intros [= -> ->]].
Qed.

Lemma incomplete_return_open line :
  incomplete_return line = true -> closes_block line = false.
Proof.
  unfold incomplete_return, closes_block. intros H.
  apply orb_true_iff in H as [H|H].
  - apply text_eqb_eq in H. now rewrite H.
  - apply andb_true_iff in H as [H _].
    apply startswith_spec in H as (r & ->). reflexivity.
Qed.

Lemma fix_return_lines_cons line rest :
  ValidatorAgentService.fix_return_lines (line :: rest)
  = (if incomplete_return line
        && match rest with next :: _ => closes_block next | [] => false end
     then completed_return line else line)
    :: ValidatorAgentService.fix_return_lines rest.
Proof. reflexivity. Qed.

Lemma fix_return_lines_head rest :
  match ValidatorAgentService.fix_return_lines rest with
  | next :: _ => closes_block next
  | [] => false
  end
  = match rest with next :: _ => closes_block next | [] => false end.
Proof.
  destruct rest as [|next rest]; [reflexivity|].
  rewrite fix_return_lines_cons.
  destruct (incomplete_return next) eqn:Hi; simpl; [|reflexivity].
  destruct (match rest with [] => false | n :: _ => closes_block n end);
    [|reflexivity].
  now rewrite completed_return_open, incomplete_return_open.
Qed.

Lemma fix_return_lines_idem lines :
  ValidatorAgentService.fix_return_lines (ValidatorAgentService.fix_return_lines lines)
  = ValidatorAgentService.fix_return_lines lines.
Proof.
  induction lines as [|line rest IH]; [reflexivity|].
  rewrite fix_return_lines_cons at 2. rewrite fix_return_lines_cons.
  rewrite fix_return_lines_cons, IH. f_equal.
  rewrite fix_return_lines_head.
  destruct (incomplete_return line
            && match rest with [] => false | n :: _ => closes_block n end) eqn:E.
  - now rewrite completed_return_done.
  - now rewrite E.
Qed.

Lemma fix_return_lines_free lines :
  Forall (fun p => ~ In NL p) lines ->
  Forall (fun p => ~ In NL p) (ValidatorAgentService.fix_return_lines lines).
Proof.
  induction 1 as [|line rest Hl _ IH]; [constructor|].
  rewrite fix_return_lines_cons. constructor; [|exact IH].
  destruct (_ && _); [apply completed_return_free | exact Hl].
Qed.

Lemma fix_return_lines_nonempty lines :
  lines <> [] -> ValidatorAgentService.fix_return_lines lines <> [].
Proof. destruct lines; [congruence | discriminate]. Qed.

Lemma fixed_lines code :
  split_chr NL (ValidatorAgentService._fix_incomplete_returns code)
  = ValidatorAgentService.fix_return_lines (split_chr NL code).
Proof.
  unfold ValidatorAgentService._fix_incomplete_returns.
  apply split_chr_join.
  - apply fix_return_lines_nonempty, split_chr_nonempty.
  - apply fix_return_lines_free, split_chr_free.
Qed.

Lemma fix_return_lines_shape lines :
  Forall2 (fun line line' =>
             line' = line
             \/ (incomplete_return line = true /\ line' = completed_return line))
          lines (ValidatorAgentService.fix_return_lines lines).
Proof.
  induction lines as [|line rest IH]; [constructor|].
  rewrite fix_return_lines_cons. constructor; [|exact IH].
  destruct (incomplete_return line); simpl; [|now left].
  destruct (match rest with [] => false | n :: _ => closes_block n end);
    [now right | now left].
Qed.

Lemma fix_return_lines_settled lines : forall i line next,
  ValidatorAgentService.fix_return_lines lines !! i = Some line ->
  ValidatorAgentService.fix_return_lines lines !! S i = Some next ->
  incomplete_return line && closes_block next = false.
Proof.
  induction lines as [|l rest IH]; intros i line next; [discriminate|].
  rewrite fix_return_lines_cons. destruct i as [|i].
  - cbn [lookup list_lookup]. intros [= <-] Hn.
    pose proof (fix_return_lines_head rest) as Hh.
    destruct (ValidatorAgentService.fix_return_lines rest) as [|n ns];
      [discriminate|].
    cbn in Hn. injection Hn as ->. rewrite <- Hh.
    destruct (incomplete_return l) eqn:Hi; simpl; [|now rewrite Hi].
    destruct (closes_block next) eqn:Hc; [|now rewrite andb_false_r].
    now rewrite completed_return_done.
  - cbn [lookup list_lookup]. apply IH.
Qed.

(** X4. [_fix_incomplete_returns] keeps the number of lines, and each
    line of its result is the line of the code at that place, or, where
    that line is an incomplete [return], the statement [return 0;] behind
    as many spaces as the line has leading whitespace characters. *)
Theorem fix_incomplete_returns_line_by_line :
  forall code,
    Forall2 (fun line line' =>
               line' = line
               \/ (incomplete_return line = true
                   /\ line' = repeat (ascii_of_nat 32)
                                (length line - length (lstrip line))
                              ++ T "return 0;"))
            (split_chr NL code)
            (split_chr NL (ValidatorAgentService._fix_incomplete_returns code)).
Proof. intros code. rewrite fixed_lines. apply fix_return_lines_shape. Qed.

(** X5. In the result of [_fix_incomplete_returns] no incomplete
    [return] is left on the line before a line that closes a block. *)
Theorem fix_incomplete_returns_settles :
  forall code i line next,
    split_chr NL (ValidatorAgentService._fix_incomplete_returns code) !! i
    = Some line ->
    split_chr NL (ValidatorAgentService._fix_incomplete_returns code) !! S i
    = Some next ->
    incomplete_return line && closes_block next = false.
Proof. intros code. rewrite fixed_lines. apply fix_return_lines_settled. Qed.

Lemma fix_incomplete_returns_settles_witness :
  incomplete_return (T "  return 0;") && closes_block (T "}") = false.
Proof.
  apply (fix_incomplete_returns_settles
           (T "int f() {" ++ [NL] ++ T "  return" ++ [NL] ++ T "}") 1);
    vm_compute; reflexivity.
Defined.

(** X6. [_fix_incomplete_returns] is idempotent: a second pass changes
    nothing. *)
Theorem fix_incomplete_returns_idempotent :
  forall code,
    ValidatorAgentService._fix_incomplete_returns
      (ValidatorAgentService._fix_incomplete_returns code)
    = ValidatorAgentService._fix_incomplete_returns code.
Proof.
  intros code. unfold ValidatorAgentService._fix_incomplete_returns at 1.
  now rewrite fixed_lines, fix_return_lines_idem.
Qed.

(** ** The summary of a compilation log *)

Lemma important_lines_shape error_message :
  length (Supervisor.important_lines error_message) <= 21 /\
  Forall (fun line => line <> [] /\ strip line = line /\ ~ In NL line
                      /\ (line = Supervisor.omitted_marker
                          \/ mentions_keyword line = true))
         (Supervisor.important_lines error_message).
Proof.
  unfold Supervisor.important_lines.
  set (kept := List.filter _ _).
  assert (Hkept : Forall (fun line => line <> [] /\ strip line = line
                                      /\ ~ In NL line
                                      /\ (line = Supervisor.omitted_marker
                                          \/ mentions_keyword line = true)) kept).
  { apply List.Forall_forall. intros line Hin.
    apply filter_In in Hin as [Hin Hc].
    apply andb_true_iff in Hc as [Hne Hk].
    apply in_map_iff in Hin as (l & <- & Hl).
    split; [now destruct (strip l)|].
    split; [apply strip_idempotent|].
    split; [|now right].
    apply strip_free. pose proof (split_chr_free NL error_message) as Hf.
    rewrite List.Forall_forall in Hf. now apply Hf. }
  destruct (20 <? length kept) eqn:E.
  - split.
    + rewrite length_app, length_take.
      change (length [Supervisor.omitted_marker]) with 1. lia.
    + apply Forall_app. split; [now apply Forall_take|].
      constructor; [|constructor].
      split; [discriminate|]. split; [reflexivity|]. split; [|now left].
      vm_compute. intros H.
      repeat destruct H as [H|H]; try discriminate; exact H.
  - apply Nat.ltb_ge in E. split; [lia | exact Hkept].
Qed.

(** X7. The summary [_extract_compilation_error_info] makes of a
    compilation log has at most 21 lines; when it is not empty, each of
    its lines is non-empty, has no whitespace at either end, and mentions
    one of the keywords or is the mark of the omitted lines. *)
Theorem compilation_summary_is_bounded :
  forall error_message,
    let summary := Supervisor._extract_compilation_error_info error_message in
    length (split_chr NL summary) <= 21 /\
    (summary <> [] ->
     Forall (fun line => line <> [] /\ strip line = line
                         /\ (line = Supervisor.omitted_marker
                             \/ mentions_keyword line = true))
            (split_chr NL summary)).
Proof.
  intros error_message. cbv zeta.
  unfold Supervisor._extract_compilation_error_info.
  destruct (important_lines_shape error_message) as [Hlen Hall].
  destruct (Supervisor.important_lines error_message) as [|l ls] eqn:E.
  - split; [simpl; lia | intros H; now contradiction H].
  - rewrite split_chr_join; [|discriminate|].
    + split; [exact Hlen|]. intros _.
      eapply Forall_impl; [exact Hall|]. simpl. tauto.
    + eapply Forall_impl; [exact Hall|]. simpl. tauto.
Qed.

Lemma compilation_summary_is_bounded_witness :
  Forall (fun line => line <> [] /\ strip line = line
                      /\ (line = Supervisor.omitted_marker
                          \/ mentions_keyword line = true))
         (split_chr NL
            (Supervisor._extract_compilation_error_info
               (T "  a.cpp:3: error: x" ++ [NL] ++ T "note"))).
Proof.
  apply (compilation_summary_is_bounded
           (T "  a.cpp:3: error: x" ++ [NL] ++ T "note")).
  vm_compute. discriminate.
Defined.

(** ** The reading strategy *)

Lemma endswith_count c (s : text) : endswith [c] s = true -> 1 <= count_chr c s.
Proof.
  unfold endswith. intros H. apply startswith_spec in H as (r & Hr).
  simpl in Hr. apply (f_equal (@rev ascii)) in Hr.
  rewrite rev_involutive in Hr. simpl in Hr. subst s.
  rewrite count_chr_app, count_chr_single.
  rewrite (proj2 (chr_eqb_eq c c) eq_refl). lia.
Qed.

(** X8. For every analysed sample [_get_format_instruction] tells the
    validator to read as many lines as the sample has newline characters
    when the sample ends with one, and one value more than that
    otherwise; its branch for a bare [readEof] is never taken. *)
Theorem reading_strategy_counts_newlines :
  forall sample_inputs,
    map ValidatorAgentService.reading_strategy
        (ValidatorAgentService._analyze_input_format sample_inputs)
    = map (fun input_str =>
             if endswith [NL] input_str
             then ValidatorAgentService.ReadLinesThenEof (count_chr NL input_str)
             else ValidatorAgentService.ReadValuesThenEof
                    (S (count_chr NL input_str)))
          sample_inputs.
Proof.
  intros sample_inputs. unfold ValidatorAgentService._analyze_input_format.
  rewrite map_map. apply map_ext. intros s.
  unfold ValidatorAgentService.reading_strategy.
  cbn [ValidatorAgentService.ends_with_newline ValidatorAgentService.num_lines].
  rewrite split_chr_length.
  destruct (endswith [NL] s) eqn:E; [|reflexivity].
  apply endswith_count in E.
  destruct (count_chr NL s) as [|n] eqn:Ec; [lia|].
  cbn [andb Nat.ltb Nat.leb]. f_equal; lia.
Qed.

(** ** Brace balancing leaves the rest of the code alone *)

Lemma erase_closers_app a b :
  erase_closers (a ++ b) = erase_closers a ++ erase_closers b.
Proof. unfold erase_closers. apply List.filter_app. Qed.

Lemma brace_step_erase st ch :
  erase_closers (balanced_chars (brace_step st ch))
  = erase_closers (balanced_chars st) ++ erase_closers [ch].
Proof.
  unfold brace_step.
  destruct (chr_eqb ch LBRACE) eqn:El; cbn [balanced_chars];
    [apply erase_closers_app|].
  destruct (chr_eqb ch RBRACE) eqn:Er; cbn [balanced_chars];
    [|apply erase_closers_app].
  destruct (open_count st); cbn [balanced_chars];
    [|apply erase_closers_app].
  unfold erase_closers at 3. cbn [List.filter]. rewrite Er.
  now rewrite app_nil_r.
Qed.

Lemma brace_fold_erase code : forall st,
  erase_closers (balanced_chars (fold_left brace_step code st))
  = erase_closers (balanced_chars st) ++ erase_closers code.
Proof.
  induction code as [|ch code IH]; intros st; cbn [fold_left].
  - now rewrite app_nil_r.
  - rewrite IH, brace_step_erase, <- app_assoc. f_equal.
    symmetry. apply (erase_closers_app [ch] code).
Qed.

Lemma erase_closers_repeat n : erase_closers (repeat RBRACE n) = [].
Proof. induction n as [|n IH]; [reflexivity | exact IH]. Qed.

(** X9. [_balance_braces] changes closing braces only: with the closing
    braces erased, its result is the code it was given, followed by one
    newline when closing braces were appended. *)
Theorem balance_braces_touches_closers_only :
  forall code,
    erase_closers (balance_braces code)
    = erase_closers code
      ++ (if 0 <? open_count (brace_scan code) then [NL] else []).
Proof.
  intros code. unfold balance_braces, brace_finish.
  pose proof (brace_fold_erase code
                {| balanced_chars := []; open_count := 0; removed := 0 |}) as H.
  fold (brace_scan code) in H. cbn [balanced_chars] in H.
  change (erase_closers []) with (@nil ascii) in H. rewrite app_nil_l in H.
  destruct (0 <? open_count (brace_scan code)).
  - rewrite erase_closers_app, H. f_equal.
    change (NL :: repeat RBRACE ?n) with ([NL] ++ repeat RBRACE n).
    rewrite erase_closers_app, erase_closers_repeat. reflexivity.
  - now rewrite app_nil_r.
Qed.

(** ** The oracle executor *)

Lemma strip_length s : length (strip s) <= length s.
Proof.
  destruct (strip_infix s) as (a & b & E).
  rewrite E at 2. rewrite !length_app. lia.
Qed.

(** X10. A result of [_run_subprocess] that reports success comes from a
    run that exited with status 0: it carries the stripped stdout, at most
    [max_output_size] characters long, and no error.  A result that
    reports failure carries no output and an error. *)
Theorem run_subprocess_result :
  forall p,
    let r := CodeExecutor._run_subprocess p in
    (CodeExecutor.success r = true ->
     exists stdout stderr,
       p = Exited 0 stdout stderr /\
       CodeExecutor.output r = Some (strip stdout) /\
       strip (strip stdout) = strip stdout /\
       (Z.of_nat (length (strip stdout)) <= CodeExecutor.max_output_size)%Z /\
       CodeExecutor.error r = None) /\
    (CodeExecutor.success r = false ->
     CodeExecutor.output r = None /\ CodeExecutor.error r <> None).
Proof.
  intros p. cbv zeta. unfold CodeExecutor._run_subprocess.
  destruct p as [rc out err| |m]; try (split; [discriminate | now split]).
  destruct (CodeExecutor.max_output_size <? Z.of_nat (length out))%Z eqn:Hsize;
    [split; [discriminate | now split]|].
  destruct (rc =? 0)%Z eqn:Hrc; cbn [negb];
    [|split; [discriminate | now split]].
  apply Z.eqb_eq in Hrc. subst rc. apply Z.ltb_ge in Hsize.
  split; [|discriminate]. intros _. exists out, err.
  split; [reflexivity|]. split; [reflexivity|].
  split; [apply strip_idempotent|]. split; [|reflexivity].
  pose proof (strip_length out). lia.
Qed.

Lemma run_subprocess_result_witness :
  exists stdout stderr,
    Exited 0 (T " 42 " ++ [NL]) [] = Exited 0 stdout stderr /\
    CodeExecutor.output (CodeExecutor._run_subprocess (Exited 0 (T " 42 " ++ [NL]) []))
    = Some (strip stdout) /\
    strip (strip stdout) = strip stdout /\
    (Z.of_nat (length (strip stdout)) <= CodeExecutor.max_output_size)%Z /\
    CodeExecutor.error (CodeExecutor._run_subprocess (Exited 0 (T " 42 " ++ [NL]) []))
    = None.
Proof.
  apply (proj1 (run_subprocess_result (Exited 0 (T " 42 " ++ [NL]) []))).
  reflexivity.
Defined.

Lemma execute_world interp code input_data w :
  snd (CodeExecutor.execute interp code input_data w)
  = EvRunOracle code input_data :: w.
Proof. reflexivity. Qed.

Lemma execute_batch_loop_length interp code continue_on_error inputs :
  forall i w,
    length (fst (CodeExecutor.execute_batch_loop interp code continue_on_error
                   i inputs w)) = length inputs.
Proof.
  induction inputs as [|x inputs IH]; intros i w; [reflexivity|].
  cbn [CodeExecutor.execute_batch_loop]. unfold bind at 1.
  destruct (CodeExecutor.execute interp code x w) as [r w1].
  destruct (negb (CodeExecutor.success r) && negb continue_on_error).
  - cbn. now rewrite length_map.
  - unfold bind, ret. specialize (IH (S i) w1).
    destruct (CodeExecutor.execute_batch_loop _ _ _ _ _ _) as [rs w2].
    cbn in *. now rewrite IH.
Qed.

Lemma execute_batch_loop_continue interp code inputs : forall i w,
  exists results,
    CodeExecutor.execute_batch_loop interp code true i inputs w
    = (map CodeExecutor.Executed results, oracle_runs code inputs ++ w)
    /\ length results = length inputs.
Proof.
  induction inputs as [|x inputs IH]; intros i w.
  - now exists [].
  - cbn [CodeExecutor.execute_batch_loop]. unfold bind at 1.
    pose proof (execute_world interp code x w) as Hw.
    destruct (CodeExecutor.execute interp code x w) as [r w1].
    cbn [snd] in Hw. subst w1.
    rewrite andb_false_r. unfold bind, ret.
    destruct (IH (S i) (EvRunOracle code x :: w)) as (rs & -> & Hlen).
    exists (r :: rs). split; [|cbn; now rewrite Hlen].
    unfold oracle_runs. cbn [map rev]. now rewrite <- app_assoc.
Qed.

(** X11. [execute_batch] returns one entry for each input, whatever
    [continue_on_error] is; when it is set, every entry is the result of
    a run, and the oracle is run once on each input, in order. *)
Theorem execute_batch_covers_every_input :
  forall interp code inputs w,
    (forall continue_on_error,
       length (fst (CodeExecutor.execute_batch interp code inputs
                      continue_on_error w)) = length inputs) /\
    exists results,
      CodeExecutor.execute_batch interp code inputs true w
      = (map CodeExecutor.Executed results, oracle_runs code inputs ++ w).
Proof.
  intros interp code inputs w. split.
  - intros c. apply execute_batch_loop_length.
  - destruct (execute_batch_loop_continue interp code inputs 0 w) as (rs & H & _).
    exists rs. exact H.
Qed.

Lemma execute_batch_loop_stops interp code inputs : forall i w,
  exists n results,
    CodeExecutor.execute_batch_loop interp code false i inputs w
    = (map CodeExecutor.Executed results
       ++ repeat (CodeExecutor.Skipped (i + n)) (length inputs - n),
       oracle_runs code (take n inputs) ++ w)
    /\ length results = n /\ n <= length inputs
    /\ Forall (fun r => CodeExecutor.success r = true) (removelast results)
    /\ (n < length inputs ->
        exists r, last results = Some r /\ CodeExecutor.success r = false).
Proof.
  induction inputs as [|x inputs IH]; intros i w.
  - exists 0, []. repeat split; try constructor; try (cbn; lia).
  - cbn [CodeExecutor.execute_batch_loop]. unfold bind at 1.
    pose proof (execute_world interp code x w) as Hw.
    destruct (CodeExecutor.execute interp code x w) as [r w1].
    cbn [snd] in Hw. subst w1. rewrite andb_true_r.
    destruct (CodeExecutor.success r) eqn:Hs; cbn [negb].
    + unfold bind, ret.
      destruct (IH (S i) (EvRunOracle code x :: w))
        as (n & rs & -> & Hlen & Hle & Hall & Hlast).
      exists (S n), (r :: rs).
      split; [|split; [cbn; lia | split; [cbn; lia | split]]].
      * cbn [map app length firstn take Nat.sub].
        replace (S i + n) with (i + S n) by lia.
        unfold oracle_runs. cbn [map rev]. now rewrite <- app_assoc.
      * destruct rs as [|r' rs]; [constructor|].
        change (removelast (r :: r' :: rs)) with (r :: removelast (r' :: rs)).
        constructor; assumption.
      * intros Hlt. cbn [length] in Hlt.
        destruct Hlast as (r' & Hr' & Hf); [lia|].
        exists r'. split; [|exact Hf].
        destruct rs as [|r0 rs]; [discriminate | exact Hr'].
    + exists 1, [r].
      split; [|split; [reflexivity | split; [cbn; lia | split]]].
      * unfold ret. cbn [map app length Nat.sub]. f_equal; try reflexivity.
        f_equal. rewrite Nat.sub_0_r, Nat.add_1_r.
        clear. induction inputs as [|y ys IHy]; [reflexivity|].
        cbn [map repeat length]. now rewrite IHy.
      * constructor.
      * intros _. exists r. split; [reflexivity | exact Hs].
Qed.

(** X12. With [continue_on_error] unset, [execute_batch] runs the oracle
    on the inputs in order up to the first run that fails and on no input
    after it: the entries of the inputs left out are failures that name
    the failed entry, and every run before the last one succeeded. *)
Theorem execute_batch_stops_at_first_failure :
  forall interp code inputs w,
    exists n results,
      CodeExecutor.execute_batch interp code inputs false w
      = (map CodeExecutor.Executed results
         ++ repeat (CodeExecutor.Skipped n) (length inputs - n),
         oracle_runs code (take n inputs) ++ w)
      /\ length results = n /\ n <= length inputs
      /\ Forall (fun r => CodeExecutor.success r = true) (removelast results)
      /\ (n < length inputs ->
          exists r, last results = Some r /\ CodeExecutor.success r = false).
Proof.
  intros interp code inputs w.
  apply (execute_batch_loop_stops interp code inputs 0 w).
Qed.

(** ** The Generator Runner: batches and blank commands *)

Lemma batch_loop_length proc exe target commands : forall results w,
  length (fst (GeneratorExecutorService.batch_loop proc exe target results
                 commands w))
  = if (target <=? Z.of_nat (length results))%Z then length results
    else Nat.min (length results + length commands) (Z.to_nat target).
Proof.
  induction commands as [|command commands IH]; intros results w;
    cbn [GeneratorExecutorService.batch_loop].
  - destruct (Z.leb_spec target (Z.of_nat (length results)));
      cbn [length fst ret]; unfold ret; cbn [fst]; lia.
  - destruct (Z.leb_spec target (Z.of_nat (length results))) as [Hle|Hgt];
      [reflexivity|].
    unfold bind at 1.
    destruct (GeneratorExecutorService.generate_test_case proc exe command w)
      as [r w1].
    rewrite IH, length_app. cbn [length].
    destruct (Z.leb_spec target (Z.of_nat (length results + 1))); lia.
Qed.

(** X13. [generate_test_cases_batch] returns one result for each of the
    leading commands and never more than [max_cases] of them; a cap of
    zero, like no cap, lets every command run, and a negative cap runs
    none. *)
Theorem batch_respects_the_cap :
  forall proc exe commands max_cases w,
    length (fst (GeneratorExecutorService.generate_test_cases_batch
                   proc exe commands max_cases w))
    = match max_cases with
      | None => length commands
      | Some n =>
          if (n =? 0)%Z then length commands
          else Nat.min (length commands) (Z.to_nat n)
      end.
Proof.
  intros proc exe commands max_cases w.
  unfold GeneratorExecutorService.generate_test_cases_batch.
  rewrite batch_loop_length. cbn [length].
  destruct max_cases as [n|].
  - destruct (Z.eqb_spec n 0) as [->|Hn].
    + destruct (Z.leb_spec (Z.of_nat (length commands)) (Z.of_nat 0)); lia.
    + destruct (Z.leb_spec n (Z.of_nat 0)); lia.
  - destruct (Z.leb_spec (Z.of_nat (length commands)) (Z.of_nat 0)); lia.
Qed.

Lemma split_ws_go_some w s : split_ws_go (Some w) s <> [].
Proof.
  revert w. induction s as [|x s IH]; intros w; cbn [split_ws_go];
    [discriminate|].
  destruct (isspace x); [discriminate | apply IH].
Qed.

Lemma split_ws_blank s : split_ws s = [] <-> forallb isspace s = true.
Proof.
  unfold split_ws. induction s as [|x s IH]; cbn [split_ws_go forallb].
  - tauto.
  - destruct (isspace x); cbn [andb]; [exact IH|].
    split; [|discriminate]. intros H. now apply split_ws_go_some in H.
Qed.

(** X14. A command that is empty or made of whitespace only starts no
    process: [generate_test_case] answers with the failure of the
    [IndexError].  Any other command starts the executable exactly once. *)
Theorem blank_command_starts_no_process :
  forall proc exe command w,
    (forallb isspace command = true ->
     GeneratorExecutorService.generate_test_case proc exe command w
     = ({| GeneratorExecutorService.success := false;
           GeneratorExecutorService.input_data := None;
           GeneratorExecutorService.error :=
             Some (GeneratorExecutorService.GeneratorException
                     (T "list index out of range")) |}, w)) /\
    (forallb isspace command = false ->
     exists args,
       snd (GeneratorExecutorService.generate_test_case proc exe command w)
       = EvRunGenerator exe args :: w).
Proof.
  intros proc exe command w.
  unfold GeneratorExecutorService.generate_test_case,
    GeneratorExecutorService.command_args.
  pose proof (split_ws_blank command) as Hb.
  destruct (split_ws command) as [|p0 rest].
  - split; [reflexivity|]. intros Hf.
    rewrite (proj1 Hb eq_refl) in Hf. discriminate.
  - split.
    + intros Ht. apply Hb in Ht. discriminate.
    + intros _. destruct (_ || _); eexists; reflexivity.
Qed.

Lemma blank_command_starts_no_process_witness :
  GeneratorExecutorService.generate_test_case
    (fun _ _ _ => Exited 0 (T "1") []) (T "/tmp/gen") (T "  ") []
  = ({| GeneratorExecutorService.success := false;
        GeneratorExecutorService.input_data := None;
        GeneratorExecutorService.error :=
          Some (GeneratorExecutorService.GeneratorException
                  (T "list index out of range")) |}, []).
Proof.
  apply (proj1 (blank_command_starts_no_process
                  (fun _ _ _ => Exited 0 (T "1") []) (T "/tmp/gen") (T "  ") [])).
  reflexivity.
Defined.

(** ** The seed *)

Lemma hex_value_total s : forall acc,
  Forall (fun c => GeneratorExecutorService.hex_digit c <> None) s ->
  exists z, GeneratorExecutorService.hex_value acc s = Some z.
Proof.
  induction s as [|c s IH]; intros acc H; [now eexists|].
  inversion H as [|? ? Hc Hs]; subst.
  cbn [GeneratorExecutorService.hex_value].
  destruct (GeneratorExecutorService.hex_digit c); [|congruence].
  now apply IH.
Qed.

(** X15. On a digest of hexadecimal digits, as [hexdigest] gives it,
    [calculate_seed] has a value, and the value is below 2^32. *)
Theorem calculate_seed_of_hex_digest :
  forall md5_hexdigest command,
    is_hex_digest (md5_hexdigest command) ->
    exists z,
      GeneratorExecutorService.calculate_seed md5_hexdigest command = Some z /\
      (0 <= z < 2 ^ 32)%Z.
Proof.
  intros md5 command [Hlen Hhex].
  assert (H : exists z, GeneratorExecutorService.calculate_seed md5 command = Some z).
  { unfold GeneratorExecutorService.calculate_seed.
    destruct (take 8 (md5 command)) as [|c s] eqn:Ht.
    - apply (f_equal (@length ascii)) in Ht. rewrite length_take in Ht.
      change (length (@nil ascii)) with 0 in Ht. lia.
    - apply hex_value_total. rewrite <- Ht. now apply Forall_take. }
  destruct H as (z & Hz). exists z. split; [exact Hz|].
  now apply (calculate_seed_range md5 command).
Qed.

Lemma calculate_seed_of_hex_digest_witness :
  exists z,
    GeneratorExecutorService.calculate_seed
      (fun _ => T "9e107d9d372bb6826bd81d3542a419d6") (T "./gen -n 1") = Some z /\
    (0 <= z < 2 ^ 32)%Z.
Proof.
  apply (calculate_seed_of_hex_digest
           (fun _ => T "9e107d9d372bb6826bd81d3542a419d6") (T "./gen -n 1")).
  split; [vm_compute; lia|].
  repeat (constructor; [discriminate|]). constructor.
Defined.

(** ** The verdict of the validator *)

Lemma digits_no_space d :
  Forall (fun c => isspace c = false) (T (NilEmpty.string_of_uint d)).
Proof.
  induction d; cbn [NilEmpty.string_of_uint T list_ascii_of_string];
    constructor; try reflexivity; assumption.
Qed.

Lemma str_of_N_no_space n :
  str_of_N n <> [] /\ Forall (fun c => isspace c = false) (str_of_N n).
Proof.
  unfold str_of_N, NilZero.string_of_uint.
  destruct (N.to_uint n) eqn:E;
    try (split; [discriminate | rewrite <- E at 1; fail]);
    try (split; [cbn; discriminate | apply digits_no_space]).
  split; [discriminate | repeat constructor].
Qed.

Lemma str_of_Z_no_space z :
  str_of_Z z <> [] /\ Forall (fun c => isspace c = false) (str_of_Z z).
Proof.
  unfold str_of_Z. destruct (z <? 0)%Z.
  - split; [discriminate|]. cbn [T list_ascii_of_string app].
    constructor; [reflexivity | apply str_of_N_no_space].
  - apply str_of_N_no_space.
Qed.

Lemma strip_fixed s :
  match s with [] => True | c :: _ => isspace c = false end ->
  match rev s with [] => True | c :: _ => isspace c = false end ->
  strip s = s.
Proof.
  intros Hhead Hlast. unfold strip, rstrip, lstrip.
  rewrite (dropwhile_fixed isspace s Hhead).
  rewrite (dropwhile_fixed isspace (rev s) Hlast). apply rev_involutive.
Qed.

Lemma strip_exit_code_message c prefix z :
  isspace c = false ->
  strip (c :: prefix ++ str_of_Z z) = c :: prefix ++ str_of_Z z.
Proof.
  intros Hc. destruct (str_of_Z_no_space z) as [Hne Hz].
  apply strip_fixed; [exact Hc|].
  change (c :: prefix ++ str_of_Z z) with ((c :: prefix) ++ str_of_Z z).
  rewrite rev_app_distr. apply Forall_rev in Hz.
  destruct (rev (str_of_Z z)) as [|d ds] eqn:E.
  - apply (f_equal (@rev ascii)) in E. rewrite rev_involutive in E.
    now contradiction Hne.
  - cbn [app]. now inversion Hz.
Qed.

Lemma pick_message (m fallback : text) :
  m <> [] -> strip m = m ->
  match m, strip m with
  | [], _ | _, [] => fallback
  | _, _ => m
  end = m.
Proof. intros Hne H. destruct m; [congruence|]. now rewrite H. Qed.

(** X16. A validator that exits with a status other than 0 gives an
    invalid verdict whose message is never blank: it is the stripped
    stderr when stderr is not empty, the stripped stdout when stderr is
    empty, and the line naming the exit status when the chosen stream is
    blank.  The fallback [Validation failed] is never used. *)
Theorem invalid_verdict_message :
  forall returncode stdout stderr,
    returncode <> 0%Z ->
    let v := ValidatorExecutorService.verdict_of
               (Exited returncode stdout stderr) in
    let chosen := match stderr with [] => stdout | _ => stderr end in
    ValidatorExecutorService.valid v = false /\
    exists m,
      ValidatorExecutorService.error_message v = Some m /\
      m <> [] /\ strip m = m /\
      m = match strip chosen with
          | [] => T "Validator returned exit code " ++ str_of_Z returncode
          | _ => strip chosen
          end.
Proof.
  intros rc out err Hrc. cbv zeta.
  unfold ValidatorExecutorService.verdict_of.
  apply Z.eqb_neq in Hrc. rewrite Hrc.
  unfold ValidatorExecutorService._parse_validator_error.
  set (chosen := match err with [] => out | _ => err end).
  destruct (strip chosen) as [|c cs] eqn:Hs; lazy beta iota zeta.
  - pose proof (strip_exit_code_message
                  (ascii_of_nat 86) (T "alidator returned exit code ") rc
                  eq_refl) as Hf.
    change (ascii_of_nat 86 :: T "alidator returned exit code " ++ str_of_Z rc)
      with (T "Validator returned exit code " ++ str_of_Z rc) in Hf.
    cbn [ValidatorExecutorService.valid ValidatorExecutorService.error_message].
    split; [reflexivity|]. eexists. split; [reflexivity|].
    rewrite Hf. rewrite pick_message; [|discriminate | exact Hf].
    split; [discriminate|]. split; [exact Hf | reflexivity].
  - cbn [ValidatorExecutorService.valid ValidatorExecutorService.error_message].
    split; [reflexivity|]. eexists. split; [reflexivity|].
    assert (Hi : strip (strip chosen) = strip chosen) by apply strip_idempotent.
    rewrite pick_message; [|rewrite Hs; discriminate | exact Hi].
    split; [rewrite Hs; discriminate|]. split; [exact Hi | exact Hs].
Qed.

Lemma invalid_verdict_message_witness :
  ValidatorExecutorService.valid
    (ValidatorExecutorService.verdict_of (Exited 3 (T "out") (T " "))) = false /\
  exists m,
    ValidatorExecutorService.error_message
      (ValidatorExecutorService.verdict_of (Exited 3 (T "out") (T " "))) = Some m /\
    m <> [] /\ strip m = m /\
    m = T "Validator returned exit code 3".
Proof.
  apply (invalid_verdict_message 3 (T "out") (T " ")). discriminate.
Defined.

(** ** The commands of the generator *)

Lemma fallback_commands_length opt_params :
  length (GeneratorAgentService._generate_fallback_commands opt_params) = 20.
Proof.
  unfold GeneratorAgentService._generate_fallback_commands.
  now rewrite length_map, length_seq.
Qed.

(** X17. [_generate_fallback_commands] always builds twenty commands,
    each starting with [./gen], and every value it passes lies between 1
    and 200000. *)
Theorem fallback_commands_shape :
  forall opt_params,
    length (GeneratorAgentService._generate_fallback_commands opt_params) = 20 /\
    Forall (fun cmd => startswith (T "./gen") cmd = true)
           (GeneratorAgentService._generate_fallback_commands opt_params) /\
    forall param i,
      (1 <= GeneratorAgentService.fallback_value param i <= 200000)%Z.
Proof.
  intros opt_params. split; [apply fallback_commands_length|]. split.
  - unfold GeneratorAgentService._generate_fallback_commands.
    apply List.Forall_forall. intros cmd Hin.
    apply in_map_iff in Hin as (i & <- & _).
    destruct (map _ (sorted opt_params)) as [|p ps]; reflexivity.
  - intros param i. unfold GeneratorAgentService.fallback_value.
    pose proof (Z.mod_pos_bound (Z.of_nat i) 5 eq_refl).
    pose proof (Z.mod_pos_bound (Z.of_nat i) 20 eq_refl).
    repeat match goal with
           | |- context [if ?c then _ else _] => destruct c
           end; lia.
Qed.

(** X18. [_validate_commands] returns no command only when the code
    declares no option and every command it was given mentions a flag;
    as soon as the code declares an option, the result is not empty. *)
Theorem validate_commands_empty_iff :
  forall code commands,
    GeneratorAgentService._validate_commands code commands = [] <->
    (GeneratorAgentService._extract_opt_params code = ∅ /\
     Forall (fun cmd => GeneratorAgentService.cmd_params cmd <> ∅) commands).
Proof.
  intros code commands. unfold GeneratorAgentService._validate_commands.
  set (opts := GeneratorAgentService._extract_opt_params code).
  destruct (filter _ commands) as [|c cs] eqn:Hf.
  - destruct (decide (opts = ∅)) as [He|Hne].
    + split; [|reflexivity]. intros _. split; [exact He|].
      apply Forall_forall. intros cmd Hin Hnone.
      assert (Hk : cmd ∈ filter
                     (fun cmd => GeneratorAgentService.cmd_params cmd ∖ opts = ∅)
                     commands).
      { apply list_elem_of_filter. split; [|exact Hin].
        rewrite Hnone. apply empty_difference_L. }
      rewrite Hf in Hk. now apply elem_of_nil in Hk.
    + split.
      * intros H. apply (f_equal (@length text)) in H.
        rewrite fallback_commands_length in H. discriminate.
      * intros [He _]. contradiction.
  - split; [discriminate|]. intros [He Hall].
    assert (Hc : c ∈ filter
                   (fun cmd => GeneratorAgentService.cmd_params cmd ∖ opts = ∅)
                   commands) by (rewrite Hf; left).
    apply list_elem_of_filter in Hc as [Hc Hin].
    rewrite Forall_forall in Hall. exfalso. apply (Hall c Hin).
    rewrite He, difference_empty_L in Hc. exact Hc.
Qed.

(** ** The returned suite *)

Section Suite.

Variable env : Supervisor.Env.
Variable b : Supervisor.Bundle.
Variable target_count : Z.

Lemma oracle_pass_sublist inputs : forall w,
  map Supervisor.input (fst (Supervisor.oracle_pass env b inputs w))
  `sublist_of` inputs.
Proof.
  induction inputs as [|x inputs IH]; intros w; cbn [Supervisor.oracle_pass].
  - constructor.
  - unfold bind at 1.
    destruct (CodeExecutor.execute _ _ _ w) as [r w1].
    unfold bind, ret. specialize (IH w1).
    destruct (Supervisor.oracle_pass env b inputs w1) as [tcs w2].
    cbn [fst] in *.
    destruct (CodeExecutor.success r); [|now constructor].
    destruct (CodeExecutor.output r) as [[|c out]|]; now constructor.
Qed.

(** The loop ends within its passes in a sound state whose counter is at
    most one above the cap, and which has seen an iteration when it holds
    a candidate. *)
Lemma loop_counts start_time fuel : forall st w,
  loop_inv env st ->
  Supervisor.iteration st <= Supervisor.max_iterations ->
  Supervisor.max_iterations + 1 <= Supervisor.iteration st + fuel ->
  (Supervisor.iteration st = 0 -> Supervisor.valid_cases st = []) ->
  post (Supervisor.loop env b target_count start_time fuel st) w
       (fun r _ => exists st',
          r = Some st' /\
          Supervisor.iteration st' <= Supervisor.max_iterations + 1 /\
          (Supervisor.iteration st' = 0 -> Supervisor.valid_cases st' = [])).
Proof.
  induction fuel as [|fuel IH]; intros st w Hinv Hle Hfuel Hzero.
  - lia.
  - rewrite loop_unfold.
    apply post_bind, post_call.
    destruct (Supervisor.timeout_ms <=? _)%Z;
      [apply post_ret; exists st; split; [reflexivity | split; [lia | exact Hzero]]|].
    destruct (target_count <=? _)%Z;
      [apply post_ret; exists st; split; [reflexivity | split; [lia | exact Hzero]]|].
    destruct (Supervisor.max_iterations <? _) eqn:Hcap.
    { apply post_ret. eexists. split; [reflexivity|]. st_simpl.
      split; [lia | intros; lia]. }
    apply Nat.ltb_ge in Hcap. st_simpl.
    apply post_bind.
    eapply post_mono.
    { apply (body_kept env b target_count
               (Supervisor.set_iteration (S (Supervisor.iteration st)) st)).
      apply kept_refl, loop_inv_set_iteration, Hinv. }
    intros f w' Hf. lazy beta in Hf.
    destruct f as [st'|st'|st']; simpl in Hf; destruct Hf as [Hit Hinv'];
      st_simpl.
    + apply IH; [exact Hinv' | lia | lia | intros; lia].
    + apply IH; [exact Hinv' | lia | lia | intros; lia].
    + apply post_ret. exists st'. split; [reflexivity|].
      split; [lia | intros; lia].
Qed.

Lemma final_state_counts w :
  exists st,
    final_state env b target_count w = Some st /\
    Supervisor.iteration st <= Supervisor.max_iterations + 1 /\
    (Supervisor.iteration st = 0 -> Supervisor.valid_cases st = []).
Proof.
  unfold final_state.
  apply (loop_counts (loop_start env w) (S Supervisor.max_iterations)
           Supervisor.initial_state (loop_world w)).
  - constructor.
  - unfold Supervisor.max_iterations, Supervisor.initial_state. cbn. lia.
  - unfold Supervisor.max_iterations, Supervisor.initial_state. cbn. lia.
  - reflexivity.
Qed.

Lemma returned_from_final_state w res :
  fst (Supervisor.generate_test_cases env b target_count w)
  = Some (Supervisor.Returned res) ->
  exists st w1,
    final_state env b target_count w = Some st /\
    Supervisor.valid_cases st <> [] /\
    Supervisor.test_cases res
    = fst (Supervisor.oracle_pass env b
             (slice_to target_count (Supervisor.valid_cases st)) w1) /\
    Supervisor.total_generated res = length (Supervisor.test_cases res) /\
    Supervisor.iterations res = Supervisor.iteration st /\
    Supervisor.result_generator_code res = Supervisor.generator_code st /\
    Supervisor.result_validator_code res = Supervisor.validator_code st /\
    Supervisor.result_generator_commands res = Supervisor.generator_commands st.
Proof.
  rewrite generate_test_cases_unfold. unfold final_state.
  destruct (Supervisor.loop _ _ _ _ _ _ _) as [[st|] w1]; [|discriminate].
  destruct (Supervisor.valid_cases st) as [|x xs] eqn:Hvc; [discriminate|].
  destruct (Supervisor.oracle_pass _ _ _ _) as [tcs w2] eqn:Hop.
  cbn [fst]. intros [= <-]. exists st, w1.
  rewrite Hvc, Hop. repeat split; try reflexivity. discriminate.
Qed.

Lemma nonpositive_target_ends_at_once w :
  (target_count <= 0)%Z ->
  final_state env b target_count w = Some Supervisor.initial_state.
Proof.
  intros Hle. unfold final_state. rewrite loop_unfold.
  unfold bind, call, ret.
  destruct (Supervisor.timeout_ms <=? _)%Z; [reflexivity|].
  cbn [Supervisor.valid_cases Supervisor.initial_state length].
  destruct (Z.leb_spec target_count (Z.of_nat 0)); [reflexivity | lia].
Qed.

End Suite.

(** X19. A suite is returned for a positive target count only.  Its
    inputs are, in their order, among the first [target_count] candidates
    the loop accumulated, so the suite never has more than [target_count]
    test cases; [total_generated] is its length. *)
Theorem returned_suite_within_target :
  forall env b target_count w res,
    fst (Supervisor.generate_test_cases env b target_count w)
    = Some (Supervisor.Returned res) ->
    (1 <= target_count)%Z /\
    (exists st,
       final_state env b target_count w = Some st /\
       map Supervisor.input (Supervisor.test_cases res)
       `sublist_of` take (Z.to_nat target_count) (Supervisor.valid_cases st)) /\
    length (Supervisor.test_cases res) <= Z.to_nat target_count /\
    Supervisor.total_generated res = length (Supervisor.test_cases res).
Proof.
  intros env b target_count w res H.
  destruct (returned_from_final_state env b target_count w res H)
    as (st & w1 & Hst & Hne & Htcs & Htot & _).
  assert (Hpos : (1 <= target_count)%Z).
  { destruct (Z.le_gt_cases target_count 0) as [Hle|Hgt]; [|lia].
    rewrite (nonpositive_target_ends_at_once env b target_count w Hle) in Hst.
    injection Hst as <-. now contradiction Hne. }
  assert (Hsub : map Supervisor.input (Supervisor.test_cases res)
                 `sublist_of` take (Z.to_nat target_count)
                                (Supervisor.valid_cases st)).
  { rewrite Htcs.
    replace (take (Z.to_nat target_count) (Supervisor.valid_cases st))
      with (slice_to target_count (Supervisor.valid_cases st)).
    - apply oracle_pass_sublist.
    - unfold slice_to. destruct (Z.leb_spec 0 target_count); [reflexivity | lia]. }
  split; [exact Hpos|]. split; [now exists st|]. split; [|exact Htot].
  apply sublist_length in Hsub.
  rewrite length_map, length_take in Hsub. lia.
Qed.

Lemma returned_suite_within_target_witness :
  (1 <= 2)%Z /\
  (exists st,
     final_state Scenarios.strict_eof_env Scenarios.echo_bundle 2 [] = Some st /\
     map Supervisor.input (Supervisor.test_cases Scenarios.strict_eof_suite)
     `sublist_of` take (Z.to_nat 2) (Supervisor.valid_cases st)) /\
  length (Supervisor.test_cases Scenarios.strict_eof_suite) <= Z.to_nat 2 /\
  Supervisor.total_generated Scenarios.strict_eof_suite
  = length (Supervisor.test_cases Scenarios.strict_eof_suite).
Proof.
  apply (returned_suite_within_target
           Scenarios.strict_eof_env Scenarios.echo_bundle 2 []
           Scenarios.strict_eof_suite).
  vm_compute. reflexivity.
Defined.

(** X20. The iteration count of a returned suite is at least 1 and at
    most one above [max_iterations]: the counter is raised before the cap
    is tested.  The bound is reached: a generator that is never revised
    with success and whose two candidates stay below the target returns
    its suite with a count of 101. *)
Theorem returned_iterations_bounds :
  (forall env b target_count w res,
     fst (Supervisor.generate_test_cases env b target_count w)
     = Some (Supervisor.Returned res) ->
     1 <= Supervisor.iterations res <= Supervisor.max_iterations + 1) /\
  (exists res,
     fst (Supervisor.generate_test_cases
            Scenarios.trap_env Scenarios.trap_bundle 50 [])
     = Some (Supervisor.Returned res) /\
     Supervisor.iterations res = Supervisor.max_iterations + 1).
Proof.
  split.
  - intros env b target_count w res H.
    destruct (returned_from_final_state env b target_count w res H)
      as (st & w1 & Hst & Hne & _ & _ & Hit & _).
    destruct (final_state_counts env b target_count w)
      as (st' & Hst' & Hle & Hzero).
    rewrite Hst in Hst'. injection Hst' as <-. rewrite Hit.
    split; [|exact Hle].
    destruct (Supervisor.iteration st); [now contradiction Hne; apply Hzero | lia].
  - eexists. split; [vm_compute; reflexivity | reflexivity].
Qed.

Lemma returned_iterations_bounds_witness :
  1 <= Supervisor.iterations Scenarios.strict_eof_suite
  <= Supervisor.max_iterations + 1.
Proof.
  apply (proj1 returned_iterations_bounds
           Scenarios.strict_eof_env Scenarios.echo_bundle 2%Z []
           Scenarios.strict_eof_suite).
  vm_compute. reflexivity.
Defined.

(** X21. Every input of a returned suite was accepted by a run of a
    validator executable that exited with status 0. *)
Theorem returned_inputs_were_validated :
  forall env b target_count w res,
    fst (Supervisor.generate_test_cases env b target_count w)
    = Some (Supervisor.Returned res) ->
    Forall (fun tc =>
              exists k exe stdout stderr,
                Supervisor.validator_process env k exe (Supervisor.input tc)
                = Exited 0 stdout stderr)
           (Supervisor.test_cases res).
Proof.
  intros env b target_count w res H.
  eapply Forall_impl; [apply (returned_cases env b target_count w res H)|].
  intros tc (Hsound & _).
  destruct (sound_case_accepted env _ Hsound) as (k & exe & Hv). exists k, exe.
  destruct (Supervisor.validator_process env k exe (Supervisor.input tc))
    as [rc out err| |m]; try discriminate.
  unfold ValidatorExecutorService.verdict_of in Hv.
  destruct (Z.eqb_spec rc 0) as [->|Hrc]; [now exists out, err|].
  discriminate.
Qed.

Lemma returned_inputs_were_validated_witness :
  Forall (fun tc =>
            exists k exe stdout stderr,
              Supervisor.validator_process Scenarios.strict_eof_env k exe
                (Supervisor.input tc) = Exited 0 stdout stderr)
         (Supervisor.test_cases Scenarios.strict_eof_suite).
Proof.
  apply (returned_inputs_were_validated
           Scenarios.strict_eof_env Scenarios.echo_bundle 2 []
           Scenarios.strict_eof_suite).
  vm_compute. reflexivity.
Defined.

(** X22. When the time budget has already elapsed at the first check of
    the loop, [generate_test_cases] calls no agent, compiles and runs
    nothing, and ends in its [ValueError]. *)
Theorem spent_budget_raises :
  forall env b target_count w,
    (Supervisor.timeout_ms
     <= Supervisor.time_ms env (S (S (length w))) - Supervisor.time_ms env (length w))%Z ->
    Supervisor.generate_test_cases env b target_count w
    = (Some Supervisor.Raised_ValueError, EvTime :: EvInferFormat :: EvTime :: w).
Proof.
  intros env b target_count w Hlate.
  rewrite generate_test_cases_unfold, loop_unfold.
  unfold bind, call, ret, loop_world, loop_start. cbn [length].
  destruct (Z.leb_spec Supervisor.timeout_ms
              (Supervisor.time_ms env (S (S (length w)))
               - Supervisor.time_ms env (length w))); [reflexivity | lia].
Qed.

Lemma spent_budget_raises_witness :
  Supervisor.generate_test_cases Scenarios.late_env Scenarios.trap_bundle 5 []
  = (Some Supervisor.Raised_ValueError, [EvTime; EvInferFormat; EvTime]).
Proof.
  apply (spent_budget_raises Scenarios.late_env Scenarios.trap_bundle 5 []).
  vm_compute. discriminate.
Defined.

(** Validators that crash on every input: no candidate, and the
    [ValueError]. *)
Lemma rejecting_validator_raises_witness :
  fst (Supervisor.generate_test_cases
         (Scenarios.crashing_env None) Scenarios.sum_bundle 1 [])
  = Some Supervisor.Raised_ValueError.
Proof.
  apply (rejecting_validator_raises
           (Scenarios.crashing_env None) Scenarios.sum_bundle 1 []).
  intros k exe x. reflexivity.
Defined.

(** ** The compile-and-fix loop *)

Lemma auto_fix_loop_outcome ev_compile ev_revise compiler reviser n :
  forall previous code w,
    exists r code' evs,
      Supervisor.auto_fix_loop
        (fun current_code =>
           call (ev_compile current_code) (fun k => compiler k current_code))
        (fun current_code compilation_error =>
           call (ev_revise current_code)
             (fun k => reviser k current_code compilation_error))
        (S n) previous code w
      = ((Some r, code'), evs ++ w) /\
      length evs <= 2 * S n /\
      auto_fix_outcome ev_compile ev_revise compiler reviser (S n) w evs r code'.
Proof.
  induction n as [|n IH]; intros previous code w.
  - cbn [Supervisor.auto_fix_loop]. unfold bind, call, ret.
    destruct (compiler (length w) code) as [path|error] eqn:Hc.
    + exists (Supervisor.CompileOk path), code, [ev_compile code].
      split; [reflexivity|]. split; [cbn; lia|].
      exists []. split; [reflexivity | exact Hc].
    + cbn [length].
      destruct (reviser (S (length w)) code error) as [code'|] eqn:Hr.
      * exists (Supervisor.CompileFailed error), code',
          [ev_revise code; ev_compile code].
        split; [reflexivity|]. split; [cbn; lia|].
        exists code, []. split; [reflexivity|]. split; [exact Hc|].
        right. split; [exact Hr | reflexivity].
      * exists (Supervisor.CompileFailed error), code,
          [ev_revise code; ev_compile code].
        split; [reflexivity|]. split; [cbn; lia|].
        exists code, []. split; [reflexivity|]. split; [exact Hc|].
        left. split; [exact Hr | reflexivity].
  - rewrite (eq_refl :
      Supervisor.auto_fix_loop _ _ (S (S n)) previous code
      = bind (call (ev_compile code) (fun k => compiler k code))
          (fun r =>
             match r with
             | Supervisor.CompileOk _ => ret (Some r, code)
             | Supervisor.CompileFailed compilation_error =>
                 bind (call (ev_revise code)
                         (fun k => reviser k code compilation_error))
                   (fun revised =>
                      match revised with
                      | Some code' =>
                          Supervisor.auto_fix_loop _ _ (S n) (Some r) code'
                      | None => ret (Some r, code)
                      end)
             end)).
    unfold bind at 1, call at 1.
    destruct (compiler (length w) code) as [path|error] eqn:Hc.
    + exists (Supervisor.CompileOk path), code, [ev_compile code].
      split; [reflexivity|]. split; [cbn; lia|].
      exists []. split; [reflexivity | exact Hc].
    + unfold bind at 1, call at 1. cbn [length].
      destruct (reviser (S (length w)) code error) as [code1|] eqn:Hr.
      * destruct (IH (Some (Supervisor.CompileFailed error)) code1
                    (ev_revise code :: ev_compile code :: w))
          as (r & code' & evs & Hrun & Hlen & Hout).
        exists r, code', (evs ++ [ev_revise code; ev_compile code]).
        split; [rewrite Hrun, <- app_assoc; reflexivity|].
        split; [rewrite length_app; cbn [length]; lia|].
        assert (Hw : forall evs' : World,
                   (evs' ++ [ev_revise code; ev_compile code]) ++ w
                   = evs' ++ ev_revise code :: ev_compile code :: w)
          by (intros; now rewrite <- app_assoc).
        destruct r as [path|error']; cbn [auto_fix_outcome] in *.
        -- destruct Hout as (evs' & -> & Hok).
           exists (evs' ++ [ev_revise code; ev_compile code]).
           split; [reflexivity|]. now rewrite Hw.
        -- destruct Hout as (c & evs' & -> & Hfail & Hrev).
           exists c, (evs' ++ [ev_revise code; ev_compile code]).
           split; [reflexivity|]. rewrite Hw. split; [exact Hfail|].
           destruct Hrev as [Hnone | [Hsome Hfull]]; [now left|].
           right. split; [exact Hsome|].
           cbn [length app] in *. rewrite length_app in *. cbn [length] in *. lia.
      * exists (Supervisor.CompileFailed error), code,
          [ev_revise code; ev_compile code].
        split; [reflexivity|]. split; [cbn; lia|].
        exists code, []. split; [reflexivity|]. split; [exact Hc|].
        left. split; [exact Hr | reflexivity].
Qed.

(** X24. [_compile_with_auto_fix] always returns a compilation result,
    after at most three compilations and three revisions.  A success is
    that of its last request, the compilation of the code it returns.  A
    failure is that of the last compilation: it comes with the code that
    failed when the revision of that code failed, and with the revision
    of that code, which is not compiled, when the three attempts are used
    up. *)
Theorem auto_fix_returns_last_compilation :
  forall ev_compile ev_revise compiler reviser code w,
    exists r code' evs,
      auto_fix_run ev_compile ev_revise compiler reviser code w
      = ((Some r, code'), evs ++ w) /\
      length evs <= 6 /\
      auto_fix_outcome ev_compile ev_revise compiler reviser
        Supervisor.max_compilation_fixes w evs r code'.
Proof.
  intros ev_compile ev_revise compiler reviser code w.
  apply (auto_fix_loop_outcome ev_compile ev_revise compiler reviser 2 None code w).
Qed.

(** ** The requests of a call *)

Lemma only_refl P w : only P w w.
Proof. exists []. split; [reflexivity | constructor]. Qed.

Lemma only_cons P ev w w' : P ev -> only P w w' -> only P w (ev :: w').
Proof.
  intros Hev (evs & -> & Hall). exists (ev :: evs).
  split; [reflexivity | now constructor].
Qed.

Lemma only_trans P w0 w1 w2 : only P w0 w1 -> only P w1 w2 -> only P w0 w2.
Proof.
  intros (e1 & -> & H1) (e2 & -> & H2). exists (e2 ++ e1).
  split; [now rewrite app_assoc | apply Forall_app; now split].
Qed.

Lemma post_conj {A} (c : M A) w (Q1 Q2 : A -> World -> Prop) :
  post c w Q1 -> post c w Q2 -> post c w (fun a w' => Q1 a w' /\ Q2 a w').
Proof. unfold post. auto. Qed.

(** Chains the requests made so far back to the world a stretch began in. *)
Ltac only_tac :=
  cbv beta in *;
  repeat match goal with
         | |- only _ ?w ?w => apply only_refl
         | |- only _ _ (_ :: _) => apply only_cons
         | H : only ?P ?w1 ?w2 |- only ?P ?w0 ?w2 =>
             apply (only_trans P w0 w1 w2); [|exact H]
         end.

Section Requests.

Variable env : Supervisor.Env.
Variable b : Supervisor.Bundle.
Variable target_count : Z.

Local Abbreviation ok := (only (guarded_request env b)).

Lemma validate_test_case_requests exe x w :
  built_validator env exe ->
  post (ValidatorExecutorService.validate_test_case
          (Supervisor.validator_process env) exe x) w
       (fun _ w' => ok w w').
Proof.
  intros Hexe. unfold ValidatorExecutorService.validate_test_case.
  apply post_bind, post_call, post_ret. only_tac. exact Hexe.
Qed.

Lemma validate_batch_requests exe xs : forall w,
  built_validator env exe ->
  post (ValidatorExecutorService.validate_test_cases_batch
          (Supervisor.validator_process env) exe xs) w
       (fun _ w' => ok w w').
Proof.
  induction xs as [|x xs IH]; intros w Hexe;
    cbn [ValidatorExecutorService.validate_test_cases_batch].
  - apply post_ret. only_tac.
  - apply post_bind.
    eapply post_mono; [apply validate_test_case_requests, Hexe|].
    intros r w1 H1. lazy beta. apply post_bind.
    eapply post_mono; [apply IH, Hexe|].
    intros rs w2 H2. apply post_ret. only_tac.
Qed.

Lemma generate_test_case_requests exe command w :
  built_generator env exe ->
  post (GeneratorExecutorService.generate_test_case
          (Supervisor.generator_process env) exe command) w
       (fun _ w' => ok w w').
Proof.
  intros Hexe. unfold GeneratorExecutorService.generate_test_case.
  destruct (GeneratorExecutorService.command_args command).
  - apply post_bind, post_call, post_ret. only_tac. exact Hexe.
  - apply post_ret. only_tac.
Qed.

Lemma batch_loop_requests exe target commands : forall results w,
  built_generator env exe ->
  post (GeneratorExecutorService.batch_loop
          (Supervisor.generator_process env) exe target results commands) w
       (fun _ w' => ok w w').
Proof.
  induction commands as [|command commands IH]; intros results w Hexe;
    cbn [GeneratorExecutorService.batch_loop].
  - apply post_ret. only_tac.
  - destruct (target <=? _)%Z; [apply post_ret; only_tac|].
    apply post_bind.
    eapply post_mono; [apply generate_test_case_requests, Hexe|].
    intros r w1 H1. lazy beta.
    eapply post_mono; [apply IH, Hexe|].
    intros rs w2 H2. lazy beta in H2. only_tac.
Qed.

Lemma oracle_pass_requests inputs : forall w,
  Forall (sound_case env) inputs ->
  post (Supervisor.oracle_pass env b inputs) w (fun _ w' => ok w w').
Proof.
  induction inputs as [|x inputs IH]; intros w Hin;
    cbn [Supervisor.oracle_pass].
  - apply post_ret. only_tac.
  - inversion Hin as [|? ? Hx Hrest]; subst.
    unfold CodeExecutor.execute at 1.
    apply post_bind, post_bind, post_call, post_ret. lazy beta.
    apply post_bind.
    eapply post_mono; [apply IH, Hrest|].
    intros tcs w1 H1. lazy beta in H1. apply post_ret.
    only_tac. split; [reflexivity | exact Hx].
Qed.

Lemma filter_candidates_requests exe items : forall acc w,
  built_validator env (default [] exe) ->
  post (Supervisor.filter_candidates env b exe items acc) w
       (fun _ w' => ok w w').
Proof.
  induction items as [|[x r] items IH]; intros acc w Hexe;
    cbn [Supervisor.filter_candidates].
  - apply post_ret. only_tac.
  - destruct (ValidatorExecutorService.valid r); [now apply IH|].
    destruct (contains (T "EOLN") _ || contains (T "Expected") _);
      [|now apply IH].
    destruct (if negb (endswith [NL] x) then _ else _); [now apply IH|].
    apply post_bind.
    eapply post_mono; [apply validate_test_case_requests, Hexe|].
    intros r' w1 H1. lazy beta.
    destruct (ValidatorExecutorService.valid r');
      (eapply post_mono; [apply IH, Hexe|]);
      intros f w2 H2; lazy beta in H2; only_tac.
Qed.

(** The compile-and-fix loop asks for compilations and revisions only,
    and a success it returns is one a compilation reported. *)
Lemma auto_fix_loop_requests (K : text -> Prop)
    (compile : text -> M Supervisor.CompileResult)
    (revise : text -> text -> M (option text)) :
  (forall c w, post (compile c) w
                 (fun r w' => ok w w' /\
                              forall p, r = Supervisor.CompileOk p -> K p)) ->
  (forall c e w, post (revise c e) w (fun _ w' => ok w w')) ->
  forall n previous code w,
    (forall p, previous = Some (Supervisor.CompileOk p) -> K p) ->
    post (Supervisor.auto_fix_loop compile revise n previous code) w
         (fun r w' => ok w w' /\
                      forall p, fst r = Some (Supervisor.CompileOk p) -> K p).
Proof.
  intros Hc Hr. induction n as [|n IH]; intros previous code w Hprev;
    cbn [Supervisor.auto_fix_loop].
  - apply post_ret. split; [only_tac | exact Hprev].
  - apply post_bind.
    eapply post_mono; [apply Hc|].
    intros r w1 [H1 Hk]. lazy beta. destruct r as [p|e].
    + apply post_ret. split; [only_tac|]. cbn [fst]. intros q [= <-]. now apply Hk.
    + apply post_bind.
      eapply post_mono; [apply Hr|].
      intros revised w2 H2. lazy beta in H2 |- *.
      destruct revised as [code'|].
      * eapply post_mono; [apply IH; discriminate|].
        intros r' w3 [H3 Hk3]. lazy beta in H3. split; [only_tac | exact Hk3].
      * apply post_ret. split; [only_tac|]. cbn [fst]. discriminate.
Qed.


(** Symbolic execution that stops at the calls of the services. *)
Ltac tr_run :=
  repeat first
    [ progress st_simpl
    | progress (lazy beta iota)
    | progress (unfold Supervisor.do_compile_generator,
                  Supervisor.do_compile_validator)
    | wp_case
    | match goal with
      | |- post (ret _) _ _ => apply post_ret
      | |- post (Supervisor.go _) _ _ => apply post_lift_go
      | |- post (Supervisor.continue_ _) _ _ => apply post_continue
      | |- post (Supervisor.break_ _) _ _ => apply post_break
      | |- post (Supervisor.lbind _ _) _ _ => apply post_lbind
      | |- post (bind _ _) _ _ => apply post_bind
      | |- post (call _ _) _ _ => apply post_call
      end ].

Ltac tr_state :=
  unfold flow_with, flow_all, samples_known, generator_ready, validator_ready in *;
  st_simpl;
  repeat match goal with
         | |- _ /\ _ => split
         | |- exists exe, Some ?p = Some exe /\ _ => exists p; split; [reflexivity|]
         end;
  try assumption;
  try exact I;
  try (eexists _, _; eassumption);
  try match goal with
      | H : forall p, fst _ = Some (Supervisor.CompileOk p) -> _ |- _ =>
          apply H; reflexivity
      end.

Ltac tr_leaf :=
  match goal with
  | |- post _ _ _ => fail 1
  | |- _ => split; [tr_state | only_tac; try exact I]
  end.

Ltac auto_fix_step K :=
  unfold Supervisor._compile_with_auto_fix;
  eapply post_mono;
  [ apply (auto_fix_loop_requests K);
    [ intros; apply post_call; split;
      [only_tac; exact I | intros ? Hbuilt; eexists _, _; exact Hbuilt]
    | intros; tr_run; only_tac; exact I
    | discriminate ]
  | intros ? ? [? ?] ].

Lemma step_generator_requests st w :
  samples_known b st ->
  post (Supervisor.step_generator env b st) w
       (fun f w' =>
          flow_with (samples_known b)
            (fun st' => samples_known b st' /\ generator_ready env st') f
          /\ ok w w').
Proof.
  intros Hs. unfold Supervisor.step_generator.
  tr_run; try tr_leaf.
  all: auto_fix_step (built_generator env); tr_run; try tr_leaf.
Qed.

Lemma run_validator_batch_requests exe xs w :
  (exists path, exe = Some path /\ built_validator env path) ->
  post (Supervisor.run_validator_batch env exe xs) w (fun _ w' => ok w w').
Proof.
  intros (path & -> & Hb). unfold Supervisor.run_validator_batch.
  now apply validate_batch_requests.
Qed.

Ltac batch_step :=
  eapply post_mono;
  [ apply run_validator_batch_requests; tr_state | intros ? ? ? ].

Lemma minimal_request_known st :
  samples_known b st ->
  Supervisor.is_nil (Supervisor.sample_inputs st) = false ->
  guarded_request env b (EvMinimalValidator (Supervisor.sample_inputs st)).
Proof.
  intros [Hs|Hs] Hn; [rewrite Hs in Hn; discriminate|].
  split; [exact Hs|]. intros E. rewrite E in Hn. discriminate.
Qed.

Lemma minimal_after_compile_failure_requests error st w :
  samples_known b st -> generator_ready env st ->
  post (Supervisor.minimal_after_compile_failure env error st) w
       (fun f w' =>
          flow_with (samples_known b)
            (fun st' => samples_known b st' /\ generator_ready env st'
                        /\ validator_ready env st') f
          /\ ok w w').
Proof.
  intros Hs Hg. unfold Supervisor.minimal_after_compile_failure.
  tr_run; try tr_leaf.
  all: apply minimal_request_known; [exact Hs|];
    match goal with
    | H : (_ && negb ?x) = true |- ?x = false =>
        apply andb_prop in H as [_ H]; now destruct x
    end.
Qed.

Lemma step_validator_requests st w :
  samples_known b st -> generator_ready env st ->
  post (Supervisor.step_validator env b st) w
       (fun f w' =>
          flow_with (samples_known b)
            (fun st' => samples_known b st' /\ generator_ready env st'
                        /\ validator_ready env st') f
          /\ ok w w').
Proof.
  intros Hs Hg. unfold Supervisor.step_validator.
  tr_run; try tr_leaf.
  all: auto_fix_step (built_validator env); tr_run; try tr_leaf.
  all: (eapply post_mono;
        [apply minimal_after_compile_failure_requests; tr_state
        |intros ? ? [? ?]; split; [assumption | only_tac; exact I]]).
Qed.

Ltac samples_tac :=
  match goal with
  | H : Supervisor.examples _ = Some (_ :: _) |- _ \/ _ = example_inputs _ =>
      right; unfold example_inputs; rewrite H; reflexivity
  | H : Supervisor.examples _ = Some (_ :: _),
    Hn : Supervisor.is_nil ?s = false
    |- guarded_request _ _ (EvMinimalValidator ?s) =>
      split; [unfold example_inputs; rewrite H; reflexivity
             |intros E; rewrite E in Hn; discriminate]
  end.

Lemma step_samples_requests st w :
  samples_known b st -> generator_ready env st -> validator_ready env st ->
  post (Supervisor.step_samples env b st) w
       (fun f w' =>
          flow_with (samples_known b)
            (fun st' => samples_known b st' /\ generator_ready env st'
                        /\ validator_ready env st') f
          /\ ok w w').
Proof.
  intros Hs Hg Hv. unfold Supervisor.step_samples.
  tr_run; try tr_leaf; try samples_tac.
  batch_step. tr_run; try tr_leaf; try samples_tac.
  batch_step. tr_run; try tr_leaf; try samples_tac.
Qed.

Lemma step_generate_requests st w :
  samples_known b st -> generator_ready env st ->
  post (Supervisor.step_generate env target_count st) w
       (fun f w' => flow_with (samples_known b) (fun _ => True) f /\ ok w w').
Proof.
  intros Hs (exe & Hexe & Hb). unfold Supervisor.step_generate.
  apply post_bind.
  eapply post_mono.
  { unfold GeneratorExecutorService.generate_test_cases_batch.
    apply batch_loop_requests. rewrite Hexe. exact Hb. }
  intros rs w1 H1. tr_run; tr_leaf.
Qed.

Lemma Forall_slice_to {A} (P : A -> Prop) n (l : list A) :
  Forall P l -> Forall P (slice_to n l).
Proof.
  intros H. unfold slice_to. destruct (0 <=? n)%Z; now apply Forall_take.
Qed.

Lemma step_diversity_requests st w :
  samples_known b st -> loop_inv env st ->
  post (Supervisor.step_diversity env b target_count st) w
       (fun f w' => flow_all (samples_known b) f /\ ok w w').
Proof.
  intros Hs Hinv. unfold Supervisor.step_diversity.
  tr_run; try tr_leaf.
  eapply post_mono; [apply oracle_pass_requests, Forall_slice_to, Hinv|].
  intros tcs w1 H1. tr_run; tr_leaf.
Qed.

Lemma step_filter_requests generated_inputs st w :
  Forall (generated env) generated_inputs ->
  samples_known b st -> validator_ready env st -> loop_inv env st ->
  post (Supervisor.step_filter env b target_count generated_inputs st) w
       (fun f w' => flow_all (samples_known b) f /\ ok w w').
Proof.
  intros Hgen Hs Hv Hinv. unfold Supervisor.step_filter.
  apply post_bind.
  eapply post_mono.
  { apply post_conj;
      [apply validate_batch_verdicts
      |apply (run_validator_batch_requests
                (Supervisor.validator_executable st) generated_inputs w Hv)]. }
  intros rs w1 [Hrs H1]. lazy beta. apply post_bind.
  eapply post_mono.
  { apply post_conj.
    - apply (filter_candidates_sound env b).
      + apply (Forall2_zip_pairs _ _ _ _ Hgen Hrs).
      + exact Hinv.
      + constructor.
    - apply filter_candidates_requests.
      destruct Hv as (exe & -> & Hb). exact Hb. }
  intros f w2 [[Hacc Hnew] H2]. lazy beta.
  assert (Hall : Forall (sound_case env)
                   (Supervisor.accumulated f ++ Supervisor.new_valid_cases f))
    by (apply Forall_app; split; assumption).
  tr_run; try tr_leaf.
  eapply post_mono; [apply step_diversity_requests; [exact Hs | exact Hall]|].
  intros f' w3 [Hf H3]. split; [exact Hf | only_tac].
Qed.

Lemma body_requests st w :
  samples_known b st -> loop_inv env st ->
  post (Supervisor.body env b target_count st) w
       (fun f w' => flow_all (samples_known b) f /\ ok w w').
Proof.
  intros Hs Hinv. unfold Supervisor.body.
  assert (Hcore : forall st', same_core st st' -> loop_inv env st').
  { intros st' [_ Hvc]. unfold loop_inv. now rewrite Hvc. }
  apply post_lbind.
  eapply post_mono.
  { apply post_conj;
      [apply (step_generator_frame env b st st), same_core_refl
      |apply step_generator_requests, Hs]. }
  intros f1 w1 [Hc1 [Hf1 H1]].
  destruct f1 as [st1|st1|st1]; cbn [flow_with flow_all] in *;
    try (split; [exact Hf1 | exact H1]).
  destruct Hf1 as [Hs1 Hg1].
  apply post_lbind.
  eapply post_mono.
  { apply post_conj;
      [apply (step_validator_frame env b st st1), Hc1
      |apply step_validator_requests; assumption]. }
  intros f2 w2 [Hc2 [Hf2 H2]].
  destruct f2 as [st2|st2|st2]; cbn [flow_with flow_all] in *;
    try (split; [exact Hf2 | only_tac]).
  destruct Hf2 as (Hs2 & Hg2 & Hv2).
  apply post_lbind.
  eapply post_mono.
  { apply post_conj;
      [apply (step_samples_frame env b st st2), Hc2
      |apply step_samples_requests; assumption]. }
  intros f3 w3 [Hc3 [Hf3 H3]].
  destruct f3 as [st3|st3|st3]; cbn [flow_with flow_all] in *;
    try (split; [exact Hf3 | only_tac]).
  destruct Hf3 as (Hs3 & Hg3 & Hv3).
  apply post_lbind.
  eapply post_mono.
  { apply post_conj;
      [apply (step_generate_post env target_count st st3), Hc3
      |apply step_generate_requests; assumption]. }
  intros f4 w4 [Hc4 [Hf4 H4]].
  destruct f4 as [xs|st4|st4]; cbn [flow_with flow_all] in *;
    try (split; [exact Hf4 | only_tac]).
  eapply post_mono.
  { apply step_filter_requests; [exact Hc4 | exact Hs3 | exact Hv3|].
    apply Hcore, Hc3. }
  intros f5 w5 [Hf5 H5]. split; [exact Hf5 | only_tac].
Qed.

Lemma loop_requests start_time fuel : forall st w,
  samples_known b st -> loop_inv env st ->
  post (Supervisor.loop env b target_count start_time fuel st) w
       (fun r w' => ok w w' /\ forall st', r = Some st' -> loop_inv env st').
Proof.
  induction fuel as [|fuel IH]; intros st w Hs Hinv.
  - cbn [Supervisor.loop]. apply post_ret. split; [only_tac | discriminate].
  - rewrite loop_unfold.
    apply post_bind, post_call.
    destruct (Supervisor.timeout_ms <=? _)%Z;
      [apply post_ret; split; [only_tac; exact I | now intros ? [= <-]]|].
    destruct (target_count <=? _)%Z;
      [apply post_ret; split; [only_tac; exact I | now intros ? [= <-]]|].
    destruct (Supervisor.max_iterations <? _);
      [apply post_ret; split; [only_tac; exact I | now intros ? [= <-]]|].
    apply post_bind.
    eapply post_mono.
    { apply post_conj.
      - apply (body_kept env b target_count
                 (Supervisor.set_iteration (S (Supervisor.iteration st)) st)).
        apply kept_refl, loop_inv_set_iteration, Hinv.
      - apply body_requests; [exact Hs | exact Hinv]. }
    intros f w1 [Hk [Hf H1]].
    destruct f as [st'|st'|st']; cbn [flow_all] in *; destruct Hk as [_ Hinv'].
    + eapply post_mono; [apply IH; assumption|].
      intros r w2 [H2 Hr]. split; [only_tac; exact I | exact Hr].
    + eapply post_mono; [apply IH; assumption|].
      intros r w2 [H2 Hr]. split; [only_tac; exact I | exact Hr].
    + apply post_ret. split; [only_tac; exact I | now intros ? [= <-]].
Qed.

Lemma generate_test_cases_requests w :
  ok w (snd (Supervisor.generate_test_cases env b target_count w)).
Proof.
  change (post (Supervisor.generate_test_cases env b target_count) w
            (fun _ w' => ok w w')).
  unfold Supervisor.generate_test_cases.
  apply post_bind, post_call, post_bind, post_call, post_bind.
  eapply post_mono; [apply loop_requests; [now left | constructor]|].
  intros r w1 [H1 Hr]. lazy beta.
  destruct r as [st|]; [|apply post_ret; only_tac; exact I].
  specialize (Hr st eq_refl).
  destruct (Supervisor.valid_cases st) eqn:Hvc;
    [apply post_ret; only_tac; exact I|].
  apply post_bind.
  eapply post_mono.
  { apply oracle_pass_requests, Forall_slice_to.
    unfold loop_inv in Hr. rewrite Hvc in Hr. exact Hr. }
  intros tcs w2 H2. apply post_ret. only_tac; exact I.
Qed.

End Requests.

Lemma requests_satisfy env b target_count w (Q : Event -> Prop) :
  (forall ev, guarded_request env b ev -> Q ev) ->
  exists evs,
    snd (Supervisor.generate_test_cases env b target_count w) = evs ++ w /\
    Forall Q evs.
Proof.
  intros HQ.
  destruct (generate_test_cases_requests env b target_count w)
    as (evs & Hevs & Hall).
  exists evs. split; [exact Hevs|].
  eapply Forall_impl; [exact Hall | exact HQ].
Qed.

(** X25. Whenever [generate_test_cases] asks for a minimal validator, it
    hands over the non-empty inputs of the worked examples, and there are
    some; for a bundle without a non-empty example input the minimal
    validator is never asked for. *)
Theorem minimal_validator_only_for_examples :
  forall env b target_count w,
    exists evs,
      snd (Supervisor.generate_test_cases env b target_count w) = evs ++ w /\
      Forall (fun ev => forall samples,
                ev = EvMinimalValidator samples ->
                samples = example_inputs b /\ samples <> []) evs /\
      (example_inputs b = [] -> List.filter Scenarios.asks_minimal evs = []).
Proof.
  intros env b target_count w.
  destruct (requests_satisfy env b target_count w
              (fun ev => forall samples,
                 ev = EvMinimalValidator samples ->
                 samples = example_inputs b /\ samples <> []))
    as (evs & Hevs & Hall).
  { intros ev Hev samples ->. exact Hev. }
  exists evs. split; [exact Hevs|]. split; [exact Hall|].
  intros Hnone. clear Hevs.
  induction Hall as [|ev evs Hev _ IH]; [reflexivity|].
  cbn [List.filter]. destruct ev; cbn [Scenarios.asks_minimal]; try exact IH.
  destruct (Hev _ eq_refl) as [Hs Hne]. rewrite Hnone in Hs. contradiction.
Qed.

Lemma minimal_validator_only_for_examples_witness :
  exists evs,
    snd (Supervisor.generate_test_cases
           (Scenarios.crashing_env None) Scenarios.trap_bundle 1 [])
    = evs ++ [] /\
    List.filter Scenarios.asks_minimal evs = [].
Proof.
  destruct (minimal_validator_only_for_examples
              (Scenarios.crashing_env None) Scenarios.trap_bundle 1 [])
    as (evs & Hevs & _ & Hnone).
  exists evs. split; [exact Hevs | apply Hnone; reflexivity].
Defined.

(** X26. Every run of the oracle that [generate_test_cases] starts, in
    the loop or after it, is a run of the oracle code of the bundle on an
    input that a validator run accepted and that a run of the generator
    of the environment gave: the candidate made of the stdout of that
    run, or, when a validator run rejected that candidate, the candidate
    without its trailing newline. *)
Theorem oracle_runs_on_accepted_inputs_only :
  forall env b target_count w,
    exists evs,
      snd (Supervisor.generate_test_cases env b target_count w) = evs ++ w /\
      Forall (fun ev => forall code x,
                ev = EvRunOracle code x ->
                code = Supervisor.oracle_code b /\
                accepted env x /\
                (generated env x \/
                 exists c, generated env c /\ rejected env c
                           /\ c = x ++ [NL])) evs.
Proof.
  intros env b target_count w. apply requests_satisfy.
  intros ev Hev code x ->. destruct Hev as [Hcode Hsound].
  split; [exact Hcode|]. split; [now apply sound_case_accepted|].
  destruct Hsound as [[Hg _] | (c & Hg & Hr & Hx & _)]; [now left|].
  right. exists c. split; [exact Hg|]. split; [exact Hr|].
  rewrite Hx. apply (generated_snoc env), Hg.
Qed.

(** X27. Every executable that [generate_test_cases] runs was reported
    by a successful compilation: the generator runs on a path that
    [compile_generator] returned, the validator on one that
    [compile_validator] returned. *)
Theorem only_built_executables_run :
  forall env b target_count w,
    exists evs,
      snd (Supervisor.generate_test_cases env b target_count w) = evs ++ w /\
      Forall (fun ev =>
                (forall exe args,
                   ev = EvRunGenerator exe args ->
                   exists k code,
                     Supervisor.compile_generator env k code
                     = Supervisor.CompileOk exe) /\
                (forall exe x,
                   ev = EvRunValidator exe x ->
                   exists k code,
                     Supervisor.compile_validator env k code
                     = Supervisor.CompileOk exe)) evs.
Proof.
  intros env b target_count w. apply requests_satisfy.
  intros ev Hev. split.
  - intros exe args ->. exact Hev.
  - intros exe x ->. exact Hev.
Qed.

(** ** The bookkeeping of step 7 *)



(** ** The two uses of the compile-and-fix loop

    Steps 2 and 4 of the loop body run the compile-and-fix loop on a
    compiler and a reviser of the kind the statement above is about. *)

Lemma generator_auto_fix_is_a_run env b st code :
  Supervisor._compile_with_auto_fix (Supervisor.do_compile_generator env)
    (fun current_code compilation_error =>
       bind (call (EvReviseGenerator current_code)
               (fun k => Supervisor.revise_generator_program env k
                           (Supervisor.problem_statement b) current_code
                           (Supervisor.validation_errors st)
                           (Some compilation_error)))
         (fun rv => ret (option_map fst rv)))
    code
  = auto_fix_run EvCompileGenerator EvReviseGenerator
      (Supervisor.compile_generator env)
      (fun k current_code compilation_error =>
         option_map fst
           (Supervisor.revise_generator_program env k
              (Supervisor.problem_statement b) current_code
              (Supervisor.validation_errors st) (Some compilation_error)))
      code.
Proof. reflexivity. Qed.

Lemma validator_auto_fix_is_a_run env b st code :
  Supervisor._compile_with_auto_fix (Supervisor.do_compile_validator env)
    (fun current_code compilation_error =>
       call (EvReviseValidator current_code)
         (fun k => Supervisor.revise_validator_program env k
                     (Supervisor.problem_statement b) current_code
                     (Supervisor.sample_inputs st)
                     (Supervisor.validation_outputs st)
                     (Some compilation_error) (Supervisor.expected_outputs b)))
    code
  = auto_fix_run EvCompileValidator EvReviseValidator
      (Supervisor.compile_validator env)
      (fun k current_code compilation_error =>
         Supervisor.revise_validator_program env k
           (Supervisor.problem_statement b) current_code
           (Supervisor.sample_inputs st) (Supervisor.validation_outputs st)
           (Some compilation_error) (Supervisor.expected_outputs b))
      code.
Proof. reflexivity. Qed.

(** ** The seed of the command *)

(** C8, the failing run.  [calculate_seed] is defined and called nowhere:
    the Generator Runner starts the executable on the tokens of the
    command, a leading [./gen] or [gen] left out, and on nothing else, so
    no seed derived from the command reaches the invocation.  For the
    command [./gen -n 5] the seed would be 1947922347; the executable is
    started on the two arguments [-n] and [5]. *)
Theorem seed_is_never_passed :
  (forall proc exe command w,
     forallb isspace command = false ->
     exists args,
       (split_ws command = args
        \/ split_ws command = T "./gen" :: args
        \/ split_ws command = T "gen" :: args) /\
       GeneratorExecutorService.generate_test_case proc exe command w
       = (GeneratorExecutorService.candidate_of (proc (length w) exe args),
          EvRunGenerator exe args :: w)) /\
  GeneratorExecutorService.calculate_seed
    (fun _ => Scenarios.md5_of_gen_n_5) (T "./gen -n 5")
  = Some Scenarios.seed_of_gen_n_5 /\
  snd (GeneratorExecutorService.generate_test_case
         Scenarios.stable_generator (T "/tmp/gen") (T "./gen -n 5") [])
  = [EvRunGenerator (T "/tmp/gen") [T "-n"; T "5"]] /\
  ~ In (str_of_Z Scenarios.seed_of_gen_n_5) [T "-n"; T "5"].
Proof.
  split; [|split; [vm_compute; reflexivity|split; [vm_compute; reflexivity|]]].
  - intros proc exe command w Hblank.
    unfold GeneratorExecutorService.generate_test_case,
      GeneratorExecutorService.command_args.
    destruct (split_ws command) as [|p0 rest] eqn:Hsplit.
    + apply split_ws_blank in Hsplit. congruence.
    + destruct (text_eqb p0 (T "./gen")) eqn:E1; cbn [orb].
      * apply text_eqb_eq in E1 as ->. exists rest.
        split; [right; left; reflexivity | reflexivity].
      * destruct (text_eqb p0 (T "gen")) eqn:E2.
        -- apply text_eqb_eq in E2 as ->. exists rest.
           split; [right; right; reflexivity | reflexivity].
        -- exists (p0 :: rest). split; [left; reflexivity | reflexivity].
  - vm_compute. intros [H|[H|[]]]; discriminate.
Qed.
